(** * BudgetWise store engine: a shallow embedding of [budgetwise/app.js]

    The development follows the layout of the source file: the numeric
    primitives the store relies on, the JSON values it reads from storage
    and import files, the normalizers, the domain [Store] with its
    persistence and notification effects, the import/export reconciler and
    the aggregation queries.  The theorems come last. *)

From Stdlib Require Import ZArith List String Ascii Bool Lia.
From Stdlib Require Import Permutation Sorted.
From Stdlib Require Import Floats.SpecFloat.
From Stdlib Require Import DecimalString.
Import ListNotations.

#[local] Set Warnings "-register-all".

Local Open Scope string_scope.
Local Open Scope Z_scope.

(** ** JavaScript numbers

    A JavaScript number is an IEEE 754 binary64 value.  The Standard
    Library's [spec_float] gives the values and the correctly rounded
    arithmetic; [Math.trunc], [Math.round] and [Math.max] are written out
    on the representation. *)

Module Num.

Definition number := spec_float.

Definition prec : Z := 53.
Definition emax : Z := 1024.

Definition NaN : number := S754_nan.
Definition zero : number := S754_zero false.

(** The number denoted by an integer literal. *)
Definition of_Z (z : Z) : number := binary_normalize prec emax z 0 false.

Definition add : number -> number -> number := SFadd prec emax.
Definition sub : number -> number -> number := SFsub prec emax.
Definition mul : number -> number -> number := SFmul prec emax.
Definition div : number -> number -> number := SFdiv prec emax.
Definition neg : number -> number := SFopp.

(** [x === y] on numbers. *)
Definition eqb (x y : number) : bool := SFeqb x y.
(** [x > y]. *)
Definition gtb (x y : number) : bool := SFltb y x.

(** [Number.isFinite] on a value that is a number. *)
Definition isFinite (x : number) : bool :=
  match x with
  | S754_zero _ | S754_finite _ _ _ => true
  | S754_infinity _ | S754_nan => false
  end.

(** [Boolean(x)]: every number but [0], [-0] and [NaN] is truthy. *)
Definition truthy (x : number) : bool :=
  match x with
  | S754_zero _ | S754_nan => false
  | S754_infinity _ | S754_finite _ _ _ => true
  end.

(** The binary64 value of the non-zero integer [(-1)^s * p], for
    [p < 2^53]: the mantissa is shifted left until it has 53 digits. *)
Definition of_pos (s : bool) (p : positive) : number :=
  let '(m, e) := shl_align p 0 (Zpos (digits2_pos p) - prec) in
  S754_finite s m e.

(** [Math.trunc]. *)
Definition trunc (x : number) : number :=
  match x with
  | S754_finite s m e =>
      if 0 <=? e then x
      else match Z.shiftr (Zpos m) (- e) with
           | Zpos p => of_pos s p
           | _ => S754_zero s
           end
  | _ => x
  end.

(** [Math.round]: the nearest integer, a tie going towards [+Infinity];
    that is [floor (x + 1/2)], computed exactly. *)
Definition round (x : number) : number :=
  match x with
  | S754_finite s m e =>
      if 0 <=? e then x
      else match Z.shiftr (2 * cond_Zopp s (Zpos m) + 2 ^ (- e)) (1 - e) with
           | Zpos p => of_pos false p
           | Zneg p => of_pos true p
           | Z0 => S754_zero s
           end
  | _ => x
  end.

(** [Math.max(x, y)]: [NaN] if either is, and [+0] is larger than [-0]. *)
Definition max (x y : number) : number :=
  match SFcompare x y with
  | None => NaN
  | Some Lt => y
  | Some Gt => x
  | Some Eq => match x with S754_zero true => y | _ => x end
  end.

(** [x || 0] on a number. *)
Definition or_zero (x : number) : number := if truthy x then x else zero.

End Num.

Abbreviation number := Num.number.

(** ** Values read from storage and import files *)

Inductive jsval :=
| JUndefined
| JNull
| JBool (b : bool)
| JNum (x : number)
| JStr (s : string)
| JArr (items : list jsval)
| JObj (props : list (string * jsval)).

(** An object is its list of own properties in insertion order.  (The
    language enumerates integer-like keys first; no operation of the
    program depends on the order of the properties.) *)
Definition obj := list (string * jsval).

(** [Boolean(v)]. *)
Definition truthy (v : jsval) : bool :=
  match v with
  | JUndefined | JNull => false
  | JBool b => b
  | JNum x => Num.truthy x
  | JStr s => negb (s =? "")%string
  | JArr _ | JObj _ => true
  end.

(** [typeof v === "object"]. *)
Definition typeof_object (v : jsval) : bool :=
  match v with
  | JNull | JArr _ | JObj _ => true
  | _ => false
  end.

(** [typeof v === "string" ? v : d]. *)
Definition string_or (d : string) (v : jsval) : string :=
  match v with JStr s => s | _ => d end.

(** Property read on an object literal; a later binding of a key shadows
    an earlier one. *)
Fixpoint lookup (k : string) (o : obj) : option jsval :=
  match o with
  | [] => None
  | (k', v) :: o' =>
      match lookup k o' with
      | Some w => Some w
      | None => if (k =? k')%string then Some v else None
      end
  end.

(** [v.k] for the property names the program reads (none of them is an
    array index or ["length"]); on a value without that property the
    read gives [undefined]. *)
Definition get (k : string) (v : jsval) : jsval :=
  match v with
  | JObj o => match lookup k o with Some w => w | None => JUndefined end
  | _ => JUndefined
  end.

(** [Array.isArray(v) ? v : []] as the list of elements. *)
Definition array_items (v : jsval) : list jsval :=
  match v with JArr items => items | _ => [] end.

(** [v === n] for a number literal [n]. *)
Definition strict_eq_num (v : jsval) (n : number) : bool :=
  match v with JNum x => Num.eqb x n | _ => false end.

(** [Number.isFinite(v)]: no coercion, a value that is not a number is
    not finite. *)
Definition Number_isFinite (v : jsval) : bool :=
  match v with JNum x => Num.isFinite x | _ => false end.

(** [Number.isInteger(v)]. *)
Definition Number_isInteger (v : jsval) : bool :=
  match v with
  | JNum x => Num.isFinite x && Num.eqb (Num.trunc x) x
  | _ => false
  end.

(** *** Object spread *)

(** [o[k] = v]: an existing property keeps its place. *)
Fixpoint obj_set (k : string) (v : jsval) (o : obj) : obj :=
  match o with
  | [] => [(k, v)]
  | (k', v') :: o' =>
      if (k =? k')%string then (k, v) :: o' else (k', v') :: obj_set k v o'
  end.

Definition index_key (n : nat) : string :=
  NilEmpty.string_of_uint (Nat.to_uint n).

Fixpoint indexed (n : nat) (l : list jsval) : obj :=
  match l with
  | [] => []
  | v :: l' => (index_key n, v) :: indexed (S n) l'
  end.

(** The own enumerable properties copied by [{...v}]: those of an
    object, the elements of an array, the characters of a string, and
    nothing for any other value. *)
Definition own_props (v : jsval) : obj :=
  match v with
  | JObj o => o
  | JArr items => indexed 0 items
  | JStr s =>
      indexed 0 (map (fun c => JStr (String c EmptyString)) (list_ascii_of_string s))
  | _ => []
  end.

(** [{...base, ...v}]. *)
Definition spread (base : obj) (v : jsval) : obj :=
  fold_left (fun o kv => obj_set (fst kv) (snd kv) o) (own_props v) base.

(** ** Constants of the module *)

Definition STORAGE_VERSION : number := Num.of_Z 1.

Inductive Bucket := Necessities | Leisure | Savings.

Definition bucket_name (b : Bucket) : string :=
  match b with
  | Necessities => "Necessities"
  | Leisure => "Leisure"
  | Savings => "Savings"
  end.

(** [BUCKETS.includes(v) ? v : (none)]. *)
Definition bucket_of (v : jsval) : option Bucket :=
  match v with
  | JStr s =>
      if (s =? "Necessities")%string then Some Necessities
      else if (s =? "Leisure")%string then Some Leisure
      else if (s =? "Savings")%string then Some Savings
      else None
  | _ => None
  end.

Definition DEFAULT_RULE : obj :=
  [ ("necessities", JNum (Num.of_Z 50));
    ("leisure", JNum (Num.of_Z 30));
    ("savings", JNum (Num.of_Z 20)) ].

Definition DEFAULT_SETTINGS : obj :=
  [ ("currency", JStr "USD");
    ("locale", JStr "en-US");
    ("rule", JObj DEFAULT_RULE);
    ("firstDayOfWeek", JNum (Num.of_Z 1));
    ("showAdvancedCharts", JBool false);
    ("hapticFeedback", JBool false);
    ("schema_version", JNum STORAGE_VERSION) ].

(** ** The clock and the random source

    [createId] reads [Date.now()] and [Math.random()], and a missing
    timestamp is filled with [new Date().toISOString()].  An operation
    receives the values these calls return as an [Env], indexed by the
    collection and the position of the record the call is made for. *)

Inductive Key := KTransactions | KCategories | KRecurring | KSettings.

Record Env := {
  env_stamp : Key -> nat -> string;    (* Date.now().toString(36) *)
  env_random : Key -> nat -> string;   (* Math.random().toString(36).slice(2, 8) *)
  env_now : Key -> nat -> string       (* new Date().toISOString() *)
}.

Definition createId (e : Env) (k : Key) (i : nat) : string :=
  env_stamp e k i ++ "-" ++ env_random e k i.

(** ** Domain records

    The records are parameterised by the type [I] of identifiers: the
    normalizers keep whatever truthy value they find under [id], so their
    results carry [jsval] identifiers; the store compares identifiers
    with [localeCompare] and prints them into cursors, and works on
    records whose identifiers are strings. *)

Inductive TxType := income | expense.

Record Category_ (I : Type) := mkCategory {
  cat_id : I;
  cat_name : string;
  cat_bucket : Bucket;
  cat_archived : bool
}.

Record Transaction_ (I : Type) := mkTransaction {
  tx_id : I;
  tx_type : TxType;
  tx_amount_cents : number;
  tx_description : string;
  tx_category_id : option I;      (* [None] is [null] *)
  tx_bucket : option Bucket;      (* [None] is [null] *)
  tx_date_iso : string
}.

Record Recurring_ (I : Type) := mkRecurring {
  rec_id : I;
  rec_description : string;
  rec_default_amount_cents : number;
  rec_category_id : option I
}.

Arguments mkCategory {I}. Arguments cat_id {I}. Arguments cat_name {I}.
Arguments cat_bucket {I}. Arguments cat_archived {I}.
Arguments mkTransaction {I}. Arguments tx_id {I}. Arguments tx_type {I}.
Arguments tx_amount_cents {I}. Arguments tx_description {I}.
Arguments tx_category_id {I}. Arguments tx_bucket {I}.
Arguments tx_date_iso {I}.
Arguments mkRecurring {I}. Arguments rec_id {I}.
Arguments rec_description {I}. Arguments rec_default_amount_cents {I}.
Arguments rec_category_id {I}.

Abbreviation Category := (Category_ string).
Abbreviation Transaction := (Transaction_ string).
Abbreviation Recurring := (Recurring_ string).

(** ** Normalizers *)

(** [list.map(f)] with the position of each element. *)
Fixpoint mapi_from {A B : Type} (n : nat) (f : nat -> A -> B) (l : list A) : list B :=
  match l with
  | [] => []
  | x :: l' => f n x :: mapi_from (S n) f l'
  end.

Definition mapi {A B : Type} (f : nat -> A -> B) (l : list A) : list B :=
  mapi_from 0 f l.

(** [(item) => item && typeof item === "object"]. *)
Definition is_record (item : jsval) : bool := truthy item && typeof_object item.

(** [v || createId()]. *)
Definition id_or_create (e : Env) (k : Key) (i : nat) (v : jsval) : jsval :=
  if truthy v then v else JStr (createId e k i).

(** [v || null]. *)
Definition or_null (v : jsval) : option jsval :=
  if truthy v then Some v else None.

(** [Number.isFinite(v) ? Math.max(0, Math.trunc(v)) : 0]. *)
Definition coerce_amount (v : jsval) : number :=
  match v with
  | JNum x => if Num.isFinite x then Num.max Num.zero (Num.trunc x) else Num.zero
  | _ => Num.zero
  end.

Definition normalizeSettings (raw : jsval) : obj :=
  let settings := spread DEFAULT_SETTINGS raw in
  let settings := obj_set "schema_version" (JNum STORAGE_VERSION) settings in
  let rule :=
    spread DEFAULT_RULE
      (if truthy raw && truthy (get "rule" raw) then get "rule" raw else JObj []) in
  let settings := obj_set "rule" (JObj rule) settings in
  let settings :=
    obj_set "showAdvancedCharts"
      (JBool (truthy (get "showAdvancedCharts" (JObj settings)))) settings in
  let settings :=
    obj_set "hapticFeedback"
      (JBool (truthy (get "hapticFeedback" (JObj settings)))) settings in
  obj_set "firstDayOfWeek"
    (if Number_isInteger (get "firstDayOfWeek" (JObj settings))
        && strict_eq_num (get "firstDayOfWeek" (JObj settings)) (Num.of_Z 0)
     then JNum (Num.of_Z 0) else JNum (Num.of_Z 1))
    settings.

Definition normalizeCategories (e : Env) (items : jsval) : list (Category_ jsval) :=
  mapi (fun i item =>
          {| cat_id := id_or_create e KCategories i (get "id" item);
             cat_name := string_or "Untitled" (get "name" item);
             cat_bucket :=
               match bucket_of (get "bucket" item) with
               | Some b => b
               | None => Necessities
               end;
             cat_archived := truthy (get "archived" item) |})
       (filter is_record (array_items items)).

Definition normalizeTransactions (e : Env) (items : jsval) : list (Transaction_ jsval) :=
  filter (fun tx => Num.gtb (tx_amount_cents tx) Num.zero)
    (mapi (fun i tx =>
             {| tx_id := id_or_create e KTransactions i (get "id" tx);
                tx_type :=
                  match get "type" tx with
                  | JStr s => if (s =? "income")%string then income else expense
                  | _ => expense
                  end;
                tx_amount_cents := coerce_amount (get "amount_cents" tx);
                tx_description := string_or "" (get "description" tx);
                tx_category_id := or_null (get "category_id" tx);
                tx_bucket := bucket_of (get "bucket" tx);
                tx_date_iso :=
                  match get "date_iso" tx with
                  | JStr s => s
                  | _ => env_now e KTransactions i
                  end |})
          (filter is_record (array_items items))).

Definition normalizeRecurring (e : Env) (items : jsval) : list (Recurring_ jsval) :=
  mapi (fun i item =>
          {| rec_id := id_or_create e KRecurring i (get "id" item);
             rec_description := string_or "" (get "description" item);
             rec_default_amount_cents :=
               coerce_amount (get "default_amount_cents" item);
             rec_category_id := or_null (get "category_id" item) |})
       (filter is_record (array_items items)).

(** *** Records as JavaScript objects

    The object a record stands for, given how its identifiers are
    represented. *)

Section ToJs.
Context {I : Type} (inj : I -> jsval).

Definition opt_js {A : Type} (f : A -> jsval) (o : option A) : jsval :=
  match o with Some a => f a | None => JNull end.

Definition type_js (t : TxType) : jsval :=
  match t with income => JStr "income" | expense => JStr "expense" end.

Definition bucket_js (b : Bucket) : jsval := JStr (bucket_name b).

Definition category_js (c : Category_ I) : jsval :=
  JObj [ ("id", inj (cat_id c));
         ("name", JStr (cat_name c));
         ("bucket", bucket_js (cat_bucket c));
         ("archived", JBool (cat_archived c)) ].

Definition transaction_js (t : Transaction_ I) : jsval :=
  JObj [ ("id", inj (tx_id t));
         ("type", type_js (tx_type t));
         ("amount_cents", JNum (tx_amount_cents t));
         ("description", JStr (tx_description t));
         ("category_id", opt_js inj (tx_category_id t));
         ("bucket", opt_js bucket_js (tx_bucket t));
         ("date_iso", JStr (tx_date_iso t)) ].

Definition recurring_js (r : Recurring_ I) : jsval :=
  JObj [ ("id", inj (rec_id r));
         ("description", JStr (rec_description r));
         ("default_amount_cents", JNum (rec_default_amount_cents r));
         ("category_id", opt_js inj (rec_category_id r)) ].
End ToJs.

(** *** Identifiers as strings

    [compareTransactionsDesc] calls [id.localeCompare] and the pagination
    cursor prints [id] into a string, so the store proper handles records
    whose identifiers are strings.  [typed_*] is the passage from a
    normalizer's result to such records; it fails on an identifier of
    another type, a case the store model does not cover. *)

Definition as_string (v : jsval) : option string :=
  match v with JStr s => Some s | _ => None end.

Definition typed_ref (o : option jsval) : option (option string) :=
  match o with
  | None => Some None
  | Some v => match as_string v with Some s => Some (Some s) | None => None end
  end.

Fixpoint traverse {A B : Type} (f : A -> option B) (l : list A) : option (list B) :=
  match l with
  | [] => Some []
  | x :: l' =>
      match f x, traverse f l' with
      | Some y, Some ys => Some (y :: ys)
      | _, _ => None
      end
  end.

Definition typed_category (c : Category_ jsval) : option Category :=
  match as_string (cat_id c) with
  | Some i => Some (mkCategory i (cat_name c) (cat_bucket c) (cat_archived c))
  | None => None
  end.

Definition typed_transaction (t : Transaction_ jsval) : option Transaction :=
  match as_string (tx_id t), typed_ref (tx_category_id t) with
  | Some i, Some c =>
      Some (mkTransaction i (tx_type t) (tx_amount_cents t) (tx_description t)
              c (tx_bucket t) (tx_date_iso t))
  | _, _ => None
  end.

Definition typed_recurring (r : Recurring_ jsval) : option Recurring :=
  match as_string (rec_id r), typed_ref (rec_category_id r) with
  | Some i, Some c =>
      Some (mkRecurring i (rec_description r) (rec_default_amount_cents r) c)
  | _, _ => None
  end.

(** ** Sorting *)

(** [a.localeCompare(b)] compares two strings in the collation of the
    platform's default locale: a negative number when [a] comes first, a
    positive one when [b] does, [0] when the collation does not tell them
    apart.  Which string comes first is the platform's choice (the
    collation of ["en-US"] has ["a"] before ["B"], the order of the code
    units has ["B"] before ["a"]), so the comparison is what a platform
    provides. *)
Class Collation := { localeCompare : string -> string -> Z }.

Definition compareTransactionsDesc {collation : Collation} (a b : Transaction) : Z :=
  if negb (tx_date_iso a =? tx_date_iso b)%string
  then localeCompare (tx_date_iso b) (tx_date_iso a)
  else localeCompare (tx_id b) (tx_id a).

(** [Array.prototype.sort(cmp)]: a stable sort; an element moves in front
    of another only when the comparator says it comes first.  (The
    language fixes the result for a comparator that is consistent; for
    any other it leaves the order to the implementation, of which this is
    one.) *)
Section Sort.
Context {A : Type} (cmp : A -> A -> Z).

Fixpoint insert (x : A) (l : list A) : list A :=
  match l with
  | [] => [x]
  | y :: l' => if cmp y x <=? 0 then y :: insert x l' else x :: y :: l'
  end.

Fixpoint sort_from (acc : list A) (l : list A) : list A :=
  match l with
  | [] => acc
  | x :: l' => sort_from (insert x acc) l'
  end.

Definition sort (l : list A) : list A := sort_from [] l.
End Sort.

(** ** StorageService *)

(** What [localStorage.getItem] returns for a key: nothing, a text that
    does not parse as JSON, or the text of a JSON value. *)
Inductive item :=
| Absent
| Corrupt
| Json (v : jsval).

Record LocalStorage := mkLocalStorage {
  BW_V1_TRANSACTIONS : item;
  BW_V1_CATEGORIES : item;
  BW_V1_RECURRING : item;
  BW_V1_SETTINGS : item
}.

Definition getItem (k : Key) (ls : LocalStorage) : item :=
  match k with
  | KTransactions => BW_V1_TRANSACTIONS ls
  | KCategories => BW_V1_CATEGORIES ls
  | KRecurring => BW_V1_RECURRING ls
  | KSettings => BW_V1_SETTINGS ls
  end.

Definition setItem (k : Key) (it : item) (ls : LocalStorage) : LocalStorage :=
  match k with
  | KTransactions =>
      mkLocalStorage it (BW_V1_CATEGORIES ls) (BW_V1_RECURRING ls) (BW_V1_SETTINGS ls)
  | KCategories =>
      mkLocalStorage (BW_V1_TRANSACTIONS ls) it (BW_V1_RECURRING ls) (BW_V1_SETTINGS ls)
  | KRecurring =>
      mkLocalStorage (BW_V1_TRANSACTIONS ls) (BW_V1_CATEGORIES ls) it (BW_V1_SETTINGS ls)
  | KSettings =>
      mkLocalStorage (BW_V1_TRANSACTIONS ls) (BW_V1_CATEGORIES ls) (BW_V1_RECURRING ls) it
  end.

Definition key_eqb (a b : Key) : bool :=
  match a, b with
  | KTransactions, KTransactions | KCategories, KCategories
  | KRecurring, KRecurring | KSettings, KSettings => true
  | _, _ => false
  end.

(** [JSON.parse(JSON.stringify(v))]: a number that is not finite becomes
    [null], [-0] becomes [0], a property holding [undefined] is left
    out and an [undefined] array element becomes [null]. *)
Fixpoint json (v : jsval) : jsval :=
  match v with
  | JUndefined => JNull
  | JNum x =>
      match x with
      | S754_zero _ => JNum Num.zero
      | S754_finite _ _ _ => v
      | _ => JNull
      end
  | JArr items => JArr (map json items)
  | JObj o =>
      JObj ((fix props (o : obj) : obj :=
               match o with
               | [] => []
               | (k, w) :: o' =>
                   match w with
                   | JUndefined => props o'
                   | _ => (k, json w) :: props o'
                   end
               end) o)
  | _ => v
  end.

Record StorageService := mkService {
  localStorage : LocalStorage;
  corruptedKeys : list Key
}.

(** [safeParse] under [read]: the fallback for a missing or unparsable
    item, and the key of an unparsable one is recorded. *)
Definition read (k : Key) (fallback : jsval) (s : StorageService) : jsval * StorageService :=
  match getItem k (localStorage s) with
  | Json v => (v, s)
  | Absent => (fallback, s)
  | Corrupt =>
      (fallback,
       mkService (localStorage s)
         (if existsb (key_eqb k) (corruptedKeys s) then corruptedKeys s
          else corruptedKeys s ++ [k]))
  end.

Definition write (k : Key) (v : jsval) (s : StorageService) : StorageService :=
  mkService (setItem k (Json (json v)) (localStorage s)) (corruptedKeys s).

(** The three starter categories; their identifiers were drawn when the
    module was loaded. *)
Definition DEFAULT_CATEGORIES (boot : Env) : list Category :=
  [ mkCategory (createId boot KCategories 0) "Housing" Necessities false;
    mkCategory (createId boot KCategories 1) "Groceries" Necessities false;
    mkCategory (createId boot KCategories 2) "Fun" Leisure false ].

Definition is_array (v : jsval) : bool :=
  match v with JArr _ => true | _ => false end.

Definition ensureDefaults (boot : Env) (s : StorageService) : StorageService :=
  let '(storedSettings, s) := read KSettings JNull s in
  let s :=
    if negb (truthy storedSettings)
       || negb (strict_eq_num (get "schema_version" storedSettings) STORAGE_VERSION)
    then write KSettings (JObj DEFAULT_SETTINGS) s else s in
  let '(categories, s) := read KCategories JNull s in
  let s :=
    if negb (is_array categories)
    then write KCategories (JArr (map (category_js JStr) (DEFAULT_CATEGORIES boot))) s
    else s in
  let '(transactions, s) := read KTransactions JNull s in
  let s := if negb (is_array transactions) then write KTransactions (JArr []) s else s in
  let '(recurring, s) := read KRecurring JNull s in
  if negb (is_array recurring) then write KRecurring (JArr []) s else s.

Definition StorageService_init (boot : Env) (s : StorageService) : StorageService :=
  ensureDefaults boot (mkService (localStorage s) []).

Record Snapshot := mkSnapshot {
  snap_settings : jsval;
  snap_categories : jsval;
  snap_transactions : jsval;
  snap_recurring : jsval
}.

(** [read(key, []).filter(Boolean)]; after [ensureDefaults] the three
    collections are arrays. *)
Definition filter_Boolean (v : jsval) : jsval :=
  JArr (filter truthy (array_items v)).

Definition getSnapshot (s : StorageService) : Snapshot * StorageService :=
  let '(st, s) := read KSettings (JObj DEFAULT_SETTINGS) s in
  let '(cs, s) := read KCategories (JArr []) s in
  let '(ts, s) := read KTransactions (JArr []) s in
  let '(rs, s) := read KRecurring (JArr []) s in
  (mkSnapshot st (filter_Boolean cs) (filter_Boolean ts) (filter_Boolean rs), s).

Definition StorageService_reset (boot : Env) (s : StorageService) : Snapshot * StorageService :=
  let s := mkService (mkLocalStorage Absent Absent Absent Absent) (corruptedKeys s) in
  getSnapshot (StorageService_init boot s).

(** ** Store *)

Record State := mkState {
  settings : obj;
  categories : list Category;
  transactions : list Transaction;
  recurring : list Recurring;
  month : Z * Z;
  corruption : list Key
}.

(** The change descriptor handed to the listeners. *)
Inductive Detail :=
| D_init
| D_month_change
| D_transactions_add (transaction : Transaction)
| D_transactions_update (transaction : option Transaction)
| D_transactions_delete (transaction : option Transaction)
| D_app_reset
| D_data_import (strategy : string).

(** The store with its two effects: the storage service it persists to
    and the notifications delivered to the listeners, oldest first, each
    with the state the listeners were shown.  [boot] is the environment
    in which the module was loaded. *)
Record Store := mkStore {
  state : State;
  service : StorageService;
  notified : list (State * Detail);
  boot : Env
}.

Definition set_state (st : State) (s : Store) : Store :=
  mkStore st (service s) (notified s) (boot s).

Definition set_transactions (txs : list Transaction) (st : State) : State :=
  mkState (settings st) (categories st) txs (recurring st) (month st) (corruption st).

Definition persist (s : Store) : Store :=
  let st := state s in
  let sv := write KSettings (JObj (settings st)) (service s) in
  let sv := write KCategories (JArr (map (category_js JStr) (categories st))) sv in
  let sv := write KTransactions (JArr (map (transaction_js JStr) (transactions st))) sv in
  let sv := write KRecurring (JArr (map (recurring_js JStr) (recurring st))) sv in
  mkStore st sv (notified s) (boot s).

Definition notify (detail : Detail) (s : Store) : Store :=
  mkStore (state s) (service s) (notified s ++ [(state s, detail)])%list (boot s).

Definition setMonth (year monthIndex : Z) (s : Store) : Store :=
  let st := state s in
  notify D_month_change
    (set_state
       (mkState (settings st) (categories st) (transactions st) (recurring st)
          (year, monthIndex) (corruption st)) s).

(** What a store operation gives back: a value with the new store, an
    error thrown with its [code], or [Untyped] when an identifier read
    from outside is not a string (see [typed_transaction]). *)
Inductive outcome (A : Type) :=
| Return (a : A) (s : Store)
| Throw (code : string) (s : Store)
| Untyped.

Arguments Return {A}. Arguments Throw {A}. Arguments Untyped {A}.

Definition typed_collections (e : Env) (snap : Snapshot)
  : option (list Category * list Transaction * list Recurring) :=
  match traverse typed_category (normalizeCategories e (snap_categories snap)),
        traverse typed_transaction (normalizeTransactions e (snap_transactions snap)),
        traverse typed_recurring (normalizeRecurring e (snap_recurring snap)) with
  | Some cs, Some ts, Some rs => Some (cs, ts, rs)
  | _, _, _ => None
  end.

Definition loadFromStorage (e : Env) (s : Store) : outcome unit :=
  let '(snap, sv) := getSnapshot (service s) in
  match typed_collections e snap with
  | Some (cs, ts, rs) =>
      Return tt
        (mkStore
           (mkState (normalizeSettings (snap_settings snap)) cs ts rs
              (month (state s)) (corruptedKeys sv))
           sv (notified s) (boot s))
  | None => Untyped
  end.

Definition init (e : Env) (s : Store) : outcome unit :=
  let sv := StorageService_init (boot s) (service s) in
  match loadFromStorage e (mkStore (state s) sv (notified s) (boot s)) with
  | Return _ s' => Return tt (notify D_init s')
  | r => r
  end.

(** [getCategoryBucket]; [None] is [null]. *)
Definition getCategoryBucket (st : State) (categoryId : option string) : option Bucket :=
  match categoryId with
  | Some cid =>
      match find (fun cat => (cat_id cat =? cid)%string) (categories st) with
      | Some category => Some (cat_bucket category)
      | None => None
      end
  | None => None
  end.

(** The draft handed to [addTransaction].  [d_description], [d_category_id],
    [d_bucket] hold the destructuring defaults when the property is
    missing; a missing [date_iso] is [None]. *)
Record Draft := mkDraft {
  d_type : TxType;
  d_amount_cents : number;
  d_description : string;
  d_category_id : option string;
  d_bucket : option Bucket;
  d_date_iso : option string
}.

(** [Boolean(category_id)] for a string or [null]. *)
Definition truthy_ref (c : option string) : bool :=
  match c with Some s => negb (s =? "")%string | None => false end.

Definition buildTransaction (e : Env) (st : State) (d : Draft) : Transaction :=
  let normalizedType := d_type d in
  let amount := Num.max Num.zero (Num.trunc (d_amount_cents d)) in
  let resolvedBucket :=
    match normalizedType, d_bucket d with
    | expense, Some b => Some b
    | expense, None =>
        if truthy_ref (d_category_id d)
        then getCategoryBucket st (d_category_id d) else None
    | income, _ => None
    end in
  {| tx_id := createId e KTransactions 0;
     tx_type := normalizedType;
     tx_amount_cents := amount;
     tx_description := d_description d;
     tx_category_id :=
       match normalizedType with expense => d_category_id d | income => None end;
     tx_bucket :=
       match normalizedType with expense => resolvedBucket | income => None end;
     tx_date_iso :=
       match d_date_iso d with Some s => s | None => env_now e KTransactions 0 end |}.

Definition addTransaction {collation : Collation}
    (e : Env) (payload : Draft) (s : Store) : Transaction * Store :=
  let transaction := buildTransaction e (state s) payload in
  let s :=
    set_state
      (set_transactions
         (sort compareTransactionsDesc (transactions (state s) ++ [transaction])%list)
         (state s)) s in
  (transaction, notify (D_transactions_add transaction) (persist s)).

(** The [updates] object of [updateTransaction]: a property that is
    present overrides the one of the record. *)
Record Updates := mkUpdates {
  u_id : option string;
  u_type : option TxType;
  u_amount_cents : option number;
  u_description : option string;
  u_category_id : option (option string);
  u_bucket : option (option Bucket);
  u_date_iso : option string
}.

Definition override {A : Type} (old : A) (new : option A) : A :=
  match new with Some a => a | None => old end.

(** The body of the [map] callback for a record whose id matches. *)
Definition mergeTransaction (st : State) (tx : Transaction) (updates : Updates) : Transaction :=
  let m_type := override (tx_type tx) (u_type updates) in
  let m_category_id := override (tx_category_id tx) (u_category_id updates) in
  let m_bucket := override (tx_bucket tx) (u_bucket updates) in
  let m_amount := override (tx_amount_cents tx) (u_amount_cents updates) in
  {| tx_id := override (tx_id tx) (u_id updates);
     tx_type := m_type;
     tx_amount_cents := Num.max Num.zero (Num.trunc (Num.or_zero m_amount));
     tx_description := override (tx_description tx) (u_description updates);
     tx_category_id :=
       match m_type with expense => m_category_id | income => None end;
     tx_bucket :=
       match m_type with
       | expense =>
           match m_bucket with
           | Some b => Some b
           | None => getCategoryBucket st m_category_id
           end
       | income => None
       end;
     tx_date_iso := override (tx_date_iso tx) (u_date_iso updates) |}.

(** [target] after the [map]: the merged record of the last match. *)
Fixpoint update_target (st : State) (id : string) (updates : Updates)
    (txs : list Transaction) (target : option Transaction) : option Transaction :=
  match txs with
  | [] => target
  | tx :: txs' =>
      update_target st id updates txs'
        (if (tx_id tx =? id)%string then Some (mergeTransaction st tx updates) else target)
  end.

Definition updateTransaction {collation : Collation} (id : string) (updates : Updates) (s : Store)
  : option Transaction * Store :=
  let st := state s in
  let target := update_target st id updates (transactions st) None in
  let mapped :=
    map (fun tx => if negb (tx_id tx =? id)%string then tx
                   else mergeTransaction st tx updates) (transactions st) in
  let s := set_state (set_transactions (sort compareTransactionsDesc mapped) st) s in
  (target, notify (D_transactions_update target) (persist s)).

Definition deleteTransaction (id : string) (s : Store) : option Transaction * Store :=
  let st := state s in
  let removed := find (fun tx => (tx_id tx =? id)%string) (transactions st) in
  let s :=
    set_state
      (set_transactions
         (filter (fun tx => negb (tx_id tx =? id)%string) (transactions st)) st) s in
  (removed, notify (D_transactions_delete removed) (persist s)).

Definition reset (e : Env) (s : Store) : outcome unit :=
  let '(snap, sv) := StorageService_reset (boot s) (service s) in
  match typed_collections e snap with
  | Some (cs, ts, rs) =>
      Return tt
        (notify D_app_reset
           (mkStore
              (mkState (normalizeSettings (snap_settings snap)) cs ts rs
                 (month (state s)) (corruption (state s)))
              sv (notified s) (boot s)))
  | None => Untyped
  end.

(** ** Import and export *)

Definition exportData (s : Store) : jsval :=
  let st := state s in
  JObj [ ("schema_version", JNum STORAGE_VERSION);
         ("settings", JObj (settings st));
         ("categories", JArr (map (category_js JStr) (categories st)));
         ("recurring", JArr (map (recurring_js JStr) (recurring st)));
         ("transactions", JArr (map (transaction_js JStr) (transactions st))) ].

(** [dedupeById]: [seen] is the set of identifiers met so far. *)
Fixpoint dedupe_from {A : Type} (id : A -> string) (seen : list string) (l : list A) : list A :=
  match l with
  | [] => []
  | item :: l' =>
      if (id item =? "")%string then dedupe_from id seen l'
      else if existsb (String.eqb (id item)) seen then dedupe_from id seen l'
      else item :: dedupe_from id (id item :: seen) l'
  end.

Definition dedupeById {A : Type} (id : A -> string) (l : list A) : list A :=
  dedupe_from id [] l.

Definition SCHEMA_MISMATCH : string := "SCHEMA_MISMATCH".

(** The four collections of an import payload. *)
Definition payload_snapshot (payload : jsval) : Snapshot :=
  mkSnapshot (get "settings" payload) (get "categories" payload)
    (get "transactions" payload) (get "recurring" payload).

Definition importData {collation : Collation}
    (e : Env) (payload : jsval) (strategy : string) (s : Store)
  : outcome unit :=
  if negb (truthy payload)
     || negb (strict_eq_num (get "schema_version" payload) STORAGE_VERSION)
  then Throw SCHEMA_MISMATCH s
  else
    let imported_settings := normalizeSettings (get "settings" payload) in
    match typed_collections e (payload_snapshot payload) with
    | None => Untyped
    | Some (imported_categories, imported_transactions, imported_recurring) =>
        let st := state s in
        let st' :=
          if (strategy =? "merge")%string then
            let existingCategoryIds := map cat_id (categories st) in
            let mergedCategories :=
              (categories st ++
               filter (fun cat => negb (existsb (String.eqb (cat_id cat)) existingCategoryIds))
                 imported_categories)%list in
            let mergedTransactions :=
              dedupeById tx_id (transactions st ++ imported_transactions)%list in
            let mergedRecurring :=
              dedupeById rec_id (recurring st ++ imported_recurring)%list in
            mkState imported_settings mergedCategories
              (sort compareTransactionsDesc mergedTransactions) mergedRecurring
              (month st) (corruption st)
          else
            mkState imported_settings imported_categories
              (sort compareTransactionsDesc imported_transactions) imported_recurring
              (month st) (corruption st) in
        Return tt (notify (D_data_import strategy) (persist (set_state st' s)))
    end.

(** ** Activity feed *)

(** [s.split("|")]. *)
Fixpoint split_bar (s : string) : list string :=
  match s with
  | EmptyString => [EmptyString]
  | String c s' =>
      if Ascii.eqb c "|"%char then EmptyString :: split_bar s'
      else match split_bar s' with
           | h :: t => String c h :: t
           | [] => [String c EmptyString]
           end
  end.

(** [list.findIndex(p)]; [None] is [-1]. *)
Fixpoint findIndex {A : Type} (p : A -> bool) (l : list A) : option nat :=
  match l with
  | [] => None
  | x :: l' =>
      if p x then Some O
      else match findIndex p l' with Some i => Some (S i) | None => None end
  end.

Record Page := mkPage {
  items : list Transaction;
  nextCursor : option string;     (* [None] is [null] *)
  hasMore : bool
}.

(** The cursor of a record: [`${last.date_iso}|${last.id}`]. *)
Definition cursor_of (tx : Transaction) : string :=
  tx_date_iso tx ++ "|" ++ tx_id tx.

Definition getRecentTransactions {collation : Collation}
    (limit : nat) (cursor : option string) (st : State) : Page :=
  let sorted := sort compareTransactionsDesc (transactions st) in
  let startIndex :=
    match cursor with
    | Some c =>
        if negb (c =? "")%string then
          let parts := split_bar c in
          let cursorDate := nth_error parts 0 in
          let cursorId := nth_error parts 1 in
          match findIndex
                  (fun tx =>
                     match cursorDate, cursorId with
                     | Some d, Some i =>
                         (tx_date_iso tx =? d)%string && (tx_id tx =? i)%string
                     | _, _ => false
                     end) sorted with
          | Some i => S i
          | None => O
          end
        else O
    | None => O
    end in
  let slice := firstn limit (skipn startIndex sorted) in
  let nextCursor :=
    match last (map Some slice) None with
    | Some l => if Nat.eqb (List.length slice) limit then Some (cursor_of l) else None
    | None => None
    end in
  {| items := slice;
     nextCursor := nextCursor;
     hasMore := match nextCursor with
                | Some c => negb (c =? "")%string
                | None => false
                end |}.

(** ** Dates

    A [Date] holds a time value: the milliseconds since the epoch, or
    [NaN] ([None]).  The definitions are those of the language
    specification. *)

Module Date.

Definition msPerDay : Z := 86400000.

Definition Day (t : Z) : Z := t / msPerDay.

Definition isLeap (y : Z) : bool :=
  ((y mod 4 =? 0) && negb (y mod 100 =? 0)) || (y mod 400 =? 0).

Definition DaysInYear (y : Z) : Z := if isLeap y then 366 else 365.

Definition DayFromYear (y : Z) : Z :=
  365 * (y - 1970) + (y - 1969) / 4 - (y - 1901) / 100 + (y - 1601) / 400.

(** The largest [y] with [DayFromYear y <= Day t]: the mean length of a
    year gives an estimate that is off by at most one. *)
Definition YearFromTime (t : Z) : Z :=
  let d := Day t in
  let y := 1970 + d * 400 / 146097 in
  if DayFromYear (y + 1) <=? d then y + 1
  else if DayFromYear y <=? d then y
  else y - 1.

Definition DayWithinYear (t : Z) : Z := Day t - DayFromYear (YearFromTime t).

(** The number of days of the year before month [m] (0 to 11). *)
Definition daysBefore (leap : bool) (m : Z) : Z :=
  let l := if leap then 1 else 0 in
  if m <=? 0 then 0
  else if m =? 1 then 31
  else if m =? 2 then 59 + l
  else if m =? 3 then 90 + l
  else if m =? 4 then 120 + l
  else if m =? 5 then 151 + l
  else if m =? 6 then 181 + l
  else if m =? 7 then 212 + l
  else if m =? 8 then 243 + l
  else if m =? 9 then 273 + l
  else if m =? 10 then 304 + l
  else if m =? 11 then 334 + l
  else 365 + l.

Definition MonthFromTime (t : Z) : Z :=
  let d := DayWithinYear t in
  let leap := isLeap (YearFromTime t) in
  if d <? daysBefore leap 1 then 0
  else if d <? daysBefore leap 2 then 1
  else if d <? daysBefore leap 3 then 2
  else if d <? daysBefore leap 4 then 3
  else if d <? daysBefore leap 5 then 4
  else if d <? daysBefore leap 6 then 5
  else if d <? daysBefore leap 7 then 6
  else if d <? daysBefore leap 8 then 7
  else if d <? daysBefore leap 9 then 8
  else if d <? daysBefore leap 10 then 9
  else if d <? daysBefore leap 11 then 10
  else 11.

Definition DaysInMonth (y m : Z) : Z :=
  daysBefore (isLeap y) (m + 1) - daysBefore (isLeap y) m.

(** [MakeDay] for a month in 0..11, [MakeTime] and [MakeDate]. *)
Definition MakeDay (y m d : Z) : Z :=
  DayFromYear y + daysBefore (isLeap y) m + d - 1.

Definition MakeTime (h mi s ms : Z) : Z := ((h * 60 + mi) * 60 + s) * 1000 + ms.

Definition MakeDate (day time : Z) : Z := day * msPerDay + time.

(** The fields of a date-time in the format [toISOString] writes. *)
Record Fields := mkFields {
  f_year : Z; f_month : Z; f_day : Z;
  f_hour : Z; f_minute : Z; f_second : Z; f_ms : Z
}.

Definition digit (c : ascii) : option Z :=
  let n := Z.of_nat (nat_of_ascii c) in
  if (48 <=? n) && (n <=? 57) then Some (n - 48) else None.

Fixpoint number_of (cs : list ascii) (acc : Z) : option Z :=
  match cs with
  | [] => Some acc
  | c :: cs' =>
      match digit c with
      | Some d => number_of cs' (10 * acc + d)
      | None => None
      end
  end.

Definition valid (f : Fields) : bool :=
  (1 <=? f_month f) && (f_month f <=? 12)
  && (1 <=? f_day f) && (f_day f <=? DaysInMonth (f_year f) (f_month f - 1))
  && (f_hour f <=? 23) && (f_minute f <=? 59) && (f_second f <=? 59).

(** [YYYY-MM-DDTHH:mm:ss.sssZ] with fields in range. *)
Definition parse_iso (s : string) : option Fields :=
  match list_ascii_of_string s with
  | [y1; y2; y3; y4; d1; mo1; mo2; d2; da1; da2; t; h1; h2; c1; mi1; mi2; c2;
     s1; s2; p; f1; f2; f3; z] =>
      if Ascii.eqb d1 "-" && Ascii.eqb d2 "-" && Ascii.eqb t "T"
         && Ascii.eqb c1 ":" && Ascii.eqb c2 ":" && Ascii.eqb p "."
         && Ascii.eqb z "Z"
      then
        match number_of [y1; y2; y3; y4] 0, number_of [mo1; mo2] 0,
              number_of [da1; da2] 0, number_of [h1; h2] 0,
              number_of [mi1; mi2] 0, number_of [s1; s2] 0,
              number_of [f1; f2; f3] 0 with
        | Some y, Some mo, Some da, Some h, Some mi, Some sec, Some ms =>
            let f := mkFields y mo da h mi sec ms in
            if valid f then Some f else None
        | _, _, _, _, _, _, _ => None
        end
      else None
  | _ => None
  end.

Definition time_of (f : Fields) : Z :=
  MakeDate (MakeDay (f_year f) (f_month f - 1) (f_day f))
    (MakeTime (f_hour f) (f_minute f) (f_second f) (f_ms f)).

(** The time of day of a date-time is within the day. *)
Definition in_day (f : Fields) : Prop :=
  0 <= f_hour f <= 23 /\ 0 <= f_minute f <= 59 /\ 0 <= f_second f <= 59
  /\ 0 <= f_ms f <= 999.

Definition in_month (f : Fields) : Prop :=
  1 <= f_month f <= 12 /\ 1 <= f_day f <= DaysInMonth (f_year f) (f_month f - 1).

End Date.

(** What the program takes from the platform: the offset of local time
    from UTC at a given instant, and the result of [Date.parse] on a
    string that is not a timestamp in the format of [toISOString]
    (other ISO forms, and whatever else the implementation accepts). *)
Record Platform := mkPlatform {
  LocalTZA : Z -> Z;
  parse_other : string -> option Z
}.

(** The time value of [new Date(dateIso)]. *)
Definition new_Date (pf : Platform) (dateIso : string) : option Z :=
  match Date.parse_iso dateIso with
  | Some f => Some (Date.time_of f)
  | None => parse_other pf dateIso
  end.

Definition getUTCFullYear (date : option Z) : option Z :=
  option_map Date.YearFromTime date.

Definition getUTCMonth (date : option Z) : option Z :=
  option_map Date.MonthFromTime date.

(** [a === b] for a date getter's result and a number: [NaN] equals
    nothing. *)
Definition field_eqb (a : option Z) (b : Z) : bool :=
  match a with Some x => x =? b | None => false end.

Definition isSameMonth (pf : Platform) (dateIso : string) (year monthIndex : Z) : bool :=
  let date := new_Date pf dateIso in
  field_eqb (getUTCFullYear date) year && field_eqb (getUTCMonth date) monthIndex.

(** ** Monthly totals *)

(** [ToNumber] of the operand of [/]; the conversion of a string or an
    object is not modelled ([None]). *)
Definition ToNumber (v : jsval) : option number :=
  match v with
  | JNum x => Some x
  | JUndefined => Some Num.NaN
  | JNull => Some Num.zero
  | JBool b => Some (if b then Num.of_Z 1 else Num.zero)
  | JStr _ | JArr _ | JObj _ => None
  end.

Record BucketTotals := mkBucketTotals {
  spent_cents : number;
  budget_cents : number;
  remaining_cents : number
}.

Record Totals := mkTotals {
  income_cents : number;
  expense_cents : number;
  Necessities_totals : BucketTotals;
  Leisure_totals : BucketTotals;
  Savings_totals : BucketTotals;
  Uncategorized_totals : BucketTotals
}.

(** The accumulators of the loop over the transactions: income, expense
    and the amount spent in each of the four buckets. *)
Record Sums := mkSums {
  sum_income : number;
  sum_expense : number;
  sum_Necessities : number;
  sum_Leisure : number;
  sum_Savings : number;
  sum_Uncategorized : number
}.

Definition accumulate (pf : Platform) (year monthIndex : Z) (acc : Sums) (tx : Transaction) : Sums :=
  if negb (isSameMonth pf (tx_date_iso tx) year monthIndex) then acc
  else
    let a := tx_amount_cents tx in
    match tx_type tx with
    | income =>
        mkSums (Num.add (sum_income acc) a) (sum_expense acc) (sum_Necessities acc)
          (sum_Leisure acc) (sum_Savings acc) (sum_Uncategorized acc)
    | expense =>
        let e := Num.add (sum_expense acc) a in
        match tx_bucket tx with
        | Some Necessities =>
            mkSums (sum_income acc) e (Num.add (sum_Necessities acc) a)
              (sum_Leisure acc) (sum_Savings acc) (sum_Uncategorized acc)
        | Some Leisure =>
            mkSums (sum_income acc) e (sum_Necessities acc)
              (Num.add (sum_Leisure acc) a) (sum_Savings acc) (sum_Uncategorized acc)
        | Some Savings =>
            mkSums (sum_income acc) e (sum_Necessities acc) (sum_Leisure acc)
              (Num.add (sum_Savings acc) a) (sum_Uncategorized acc)
        | None =>
            mkSums (sum_income acc) e (sum_Necessities acc) (sum_Leisure acc)
              (sum_Savings acc) (Num.add (sum_Uncategorized acc) a)
        end
    end.

Definition monthly_sums (pf : Platform) (year monthIndex : Z) (st : State) : Sums :=
  fold_left (accumulate pf year monthIndex) (transactions st)
    (mkSums Num.zero Num.zero Num.zero Num.zero Num.zero Num.zero).

(** [Math.round(income * (pct / 100))]. *)
Definition budget (income pct : number) : number :=
  Num.round (Num.mul income (Num.div pct (Num.of_Z 100))).

(** [budget ? budget - spent : -spent]. *)
Definition remaining (budget spent : number) : number :=
  if Num.truthy budget then Num.sub budget spent else Num.neg spent.

Definition bucket_totals (spent budget : number) : BucketTotals :=
  mkBucketTotals spent budget (remaining budget spent).

(** [state.settings.rule.k]: reading a property of [undefined] or [null]
    throws. *)
Definition rule_percentage (k : string) (st : State) : option number :=
  match get "rule" (JObj (settings st)) with
  | JUndefined | JNull => None
  | rule => ToNumber (get k rule)
  end.

(** [None] when a percentage cannot be read or its conversion to a
    number is not modelled. *)
Definition getMonthlyTotals (pf : Platform) (year monthIndex : Z) (st : State) : option Totals :=
  let sums := monthly_sums pf year monthIndex st in
  match rule_percentage "necessities" st, rule_percentage "leisure" st,
        rule_percentage "savings" st with
  | Some necessities, Some leisure, Some savings =>
      Some
        (mkTotals (sum_income sums) (sum_expense sums)
           (bucket_totals (sum_Necessities sums) (budget (sum_income sums) necessities))
           (bucket_totals (sum_Leisure sums) (budget (sum_income sums) leisure))
           (bucket_totals (sum_Savings sums) (budget (sum_income sums) savings))
           (bucket_totals (sum_Uncategorized sums) Num.zero))
  | _, _, _ => None
  end.

(** ** Vocabulary of the properties *)

Local Open Scope list_scope.

(** *** The feed *)

(** The caller's loop over the activity feed: call
    [getRecentTransactions], keep the items, and call again with the
    returned cursor while [hasMore] holds.  [fuel] bounds the number of
    calls; [None] when it runs out before [hasMore] is [false]. *)
Fixpoint pages {collation : Collation} (fuel limit : nat) (cursor : option string) (st : State)
  : option (list Transaction) :=
  match fuel with
  | O => None
  | S fuel' =>
      let p := getRecentTransactions limit cursor st in
      if hasMore p then
        match pages fuel' limit (nextCursor p) st with
        | Some more => Some (items p ++ more)%list
        | None => None
        end
      else Some (items p)
  end.

(** The page returned by the call number [j] (from 0) of that loop. *)
Fixpoint page_seq {collation : Collation}
    (j limit : nat) (cursor : option string) (st : State) : Page :=
  match j with
  | O => getRecentTransactions limit cursor st
  | S j' => page_seq j' limit (nextCursor (getRecentTransactions limit cursor st)) st
  end.

(** A string without the cursor separator. *)
Fixpoint no_bar (s : string) : bool :=
  match s with
  | EmptyString => true
  | String c s' => negb (Ascii.eqb c "|"%char) && no_bar s'
  end.

(** What a cursor records of a transaction. *)
Definition cursor_key (tx : Transaction) : string * string :=
  (tx_date_iso tx, tx_id tx).

(** A collection in which a cursor identifies one record: no two records
    share timestamp and identifier, and neither contains the separator. *)
Definition cursor_safe (txs : list Transaction) : Prop :=
  NoDup (map cursor_key txs)
  /\ Forall (fun tx => no_bar (tx_date_iso tx) = true /\ no_bar (tx_id tx) = true) txs.

(** The records after the position of a cursor in the sorted list [l]:
    all of them for [null], those after the record the cursor was made
    from otherwise. *)
Definition rest_after (l : list Transaction) (cursor : option string)
    (rest : list Transaction) : Prop :=
  (cursor = None /\ rest = l)
  \/ (exists before tx, cursor = Some (cursor_of tx) /\ l = (before ++ tx :: rest)%list).

(** *** Normal forms *)

(** An amount as the normalizers leave it: [+0] or a positive integer. *)
Definition is_amount (a : number) : Prop :=
  Num.isFinite a = true /\ Num.trunc a = a
  /\ (a = Num.zero \/ Num.gtb a Num.zero = true).

(** A reference is [null] or a truthy value. *)
Definition normal_ref (o : option jsval) : Prop :=
  forall v, o = Some v -> truthy v = true.

(** What a record returned by each normalizer satisfies. *)
Definition normal_category (c : Category_ jsval) : Prop :=
  truthy (cat_id c) = true.

Definition normal_transaction (t : Transaction_ jsval) : Prop :=
  truthy (tx_id t) = true
  /\ is_amount (tx_amount_cents t)
  /\ Num.gtb (tx_amount_cents t) Num.zero = true
  /\ normal_ref (tx_category_id t).

Definition normal_recurring (r : Recurring_ jsval) : Prop :=
  truthy (rec_id r) = true
  /\ is_amount (rec_default_amount_cents r)
  /\ normal_ref (rec_category_id r).

(** The names of the properties of an object. *)
Definition keys (o : obj) : list string := map fst o.

(** Assigning the properties [props], in order, to [base]. *)
Definition set_all (props base : obj) : obj :=
  fold_left (fun o kv => obj_set (fst kv) (snd kv) o) props base.

(** The shape of a settings object returned by [normalizeSettings]. *)
Record normal_settings (r : obj) : Prop := {
  ns_nodup : NoDup (keys r);
  ns_keys : exists ex, keys r = keys DEFAULT_SETTINGS ++ ex;
  ns_version : lookup "schema_version" r = Some (JNum STORAGE_VERSION);
  ns_rule : exists rule ex,
      lookup "rule" r = Some (JObj rule)
      /\ NoDup (keys rule) /\ keys rule = keys DEFAULT_RULE ++ ex;
  ns_charts : exists b, lookup "showAdvancedCharts" r = Some (JBool b);
  ns_haptic : exists b, lookup "hapticFeedback" r = Some (JBool b);
  ns_day : lookup "firstDayOfWeek" r = Some (JNum (Num.of_Z 0))
           \/ lookup "firstDayOfWeek" r = Some (JNum (Num.of_Z 1))
}.

(** *** Order *)

(** [x] is not placed after [y] by the comparator. *)
Definition before {A : Type} (cmp : A -> A -> Z) (x y : A) : Prop := cmp x y <= 0.

(** What the language asks of [localeCompare], a consistent comparison
    function: exchanging the two strings reverses the sign of the
    result, and coming no later than another string is transitive. *)
Record consistent (collation : Collation) : Prop := {
  compare_reverse :
    forall s t, Z.sgn (localeCompare t s) = - Z.sgn (localeCompare s t);
  compare_through :
    forall s t u,
      localeCompare s t <= 0 -> localeCompare t u <= 0 -> localeCompare s u <= 0
}.

(** The collation tells the strings of [l] apart: it finds two of them
    equal only when they are the same string.  (A collation may find
    different strings equal, two spellings of an accented letter for
    instance.) *)
Definition told_apart {collation : Collation} (l : list string) : Prop :=
  forall s t, In s l -> In t l -> localeCompare s t = 0 -> s = t.

(** [a] comes no later than [b] in the feed, as [compareTransactionsDesc]
    decides it: when the timestamps are different strings, the one of
    [b] does not come after the one of [a] in the collation; when they
    are the same string, the identifier of [b] does not come after the
    one of [a]. *)
Definition desc_order {collation : Collation} (a b : Transaction) : Prop :=
  (tx_date_iso a <> tx_date_iso b
   /\ localeCompare (tx_date_iso b) (tx_date_iso a) <= 0)
  \/ (tx_date_iso a = tx_date_iso b
      /\ localeCompare (tx_id b) (tx_id a) <= 0).

(** [a] comes before [b]: the comparison that decides is not [0]. *)
Definition desc_order_strict {collation : Collation} (a b : Transaction) : Prop :=
  (tx_date_iso a <> tx_date_iso b
   /\ localeCompare (tx_date_iso b) (tx_date_iso a) < 0)
  \/ (tx_date_iso a = tx_date_iso b
      /\ localeCompare (tx_id b) (tx_id a) < 0).

(** A collection in feed order: every record comes no later than every
    record that stands after it. *)
Definition feed_order {collation : Collation} (txs : list Transaction) : Prop :=
  StronglySorted desc_order txs.

(** The strict order of the sort contract as the specification words
    it, strings being compared by their code units. *)
Definition strict_desc_order (a b : Transaction) : Prop :=
  String.compare (tx_date_iso a) (tx_date_iso b) = Gt
  \/ (tx_date_iso a = tx_date_iso b
      /\ String.compare (tx_id a) (tx_id b) = Gt).

(** *** Pages *)

(** The test [findIndex] runs for the cursor of [tx]. *)
Definition at_cursor (tx u : Transaction) : bool :=
  (tx_date_iso u =? tx_date_iso tx)%string && (tx_id u =? tx_id tx)%string.

(** The page cut from the records that remain. *)
Definition page_of (limit : nat) (rest : list Transaction) : Page :=
  let slice := firstn limit rest in
  let next :=
    match last (map Some slice) None with
    | Some l => if Nat.eqb (List.length slice) limit then Some (cursor_of l) else None
    | None => None
    end in
  mkPage slice next
    (match next with Some c => negb (c =? "")%string | None => false end).

(** Where the page starts: after the record the cursor matches, or at
    the beginning. *)
Definition start_index (cursor : option string) (sorted : list Transaction) : nat :=
  match cursor with
  | Some c =>
      if negb (c =? "")%string then
        match findIndex
                (fun tx =>
                   match nth_error (split_bar c) 0, nth_error (split_bar c) 1 with
                   | Some d, Some i =>
                       (tx_date_iso tx =? d)%string && (tx_id tx =? i)%string
                   | _, _ => false
                   end) sorted with
        | Some i => S i
        | None => O
        end
      else O
  | None => O
  end.


(** *** States *)

(** A typed record seen as a normalizer's result. *)
Definition untyped_ref (c : option string) : option jsval := option_map JStr c.

Definition untyped_category (c : Category) : Category_ jsval :=
  mkCategory (JStr (cat_id c)) (cat_name c) (cat_bucket c) (cat_archived c).

Definition untyped_transaction (t : Transaction) : Transaction_ jsval :=
  mkTransaction (JStr (tx_id t)) (tx_type t) (tx_amount_cents t) (tx_description t)
    (untyped_ref (tx_category_id t)) (tx_bucket t) (tx_date_iso t).

Definition untyped_recurring (r : Recurring) : Recurring_ jsval :=
  mkRecurring (JStr (rec_id r)) (rec_description r) (rec_default_amount_cents r)
    (untyped_ref (rec_category_id r)).

(** The records a normalizer can have produced: the identifier is not
    empty, a reference is [null] or not empty, an amount is [+0] or a
    positive integer, and positive for a transaction. *)
Definition stored_category (c : Category) : Prop := cat_id c <> "".

Definition stored_transaction (t : Transaction) : Prop :=
  tx_id t <> ""
  /\ is_amount (tx_amount_cents t)
  /\ Num.gtb (tx_amount_cents t) Num.zero = true
  /\ tx_category_id t <> Some "".

Definition stored_recurring (r : Recurring) : Prop :=
  rec_id r <> ""
  /\ is_amount (rec_default_amount_cents r)
  /\ rec_category_id r <> Some "".

Definition normal_state (st : State) : Prop :=
  normal_settings (settings st)
  /\ Forall stored_category (categories st)
  /\ Forall stored_transaction (transactions st)
  /\ Forall stored_recurring (recurring st).

(** *** Payloads *)



(** [x] is the first record of [l] with its identifier. *)
Definition first_with_id {A : Type} (id : A -> string) (x : A) (l : list A) : Prop :=
  find (fun y => (id y =? id x)%string) l = Some x.

(** The state a successful import leaves. *)
Definition imported_state {collation : Collation} (strategy : string) (settings' : obj)
    (cs : list Category) (ts : list Transaction) (rs : list Recurring)
    (st : State) : State :=
  if (strategy =? "merge")%string then
    mkState settings'
      (categories st ++
       filter (fun cat => negb (existsb (String.eqb (cat_id cat)) (map cat_id (categories st)))) cs)
      (sort compareTransactionsDesc (dedupeById tx_id (transactions st ++ ts)))
      (dedupeById rec_id (recurring st ++ rs))
      (month st) (corruption st)
  else
    mkState settings' cs (sort compareTransactionsDesc ts) rs (month st) (corruption st).

(** The public operations that assign the transactions collection, load
    apart, and one call of each. *)
Inductive Operation :=
| op_addTransaction
| op_updateTransaction
| op_deleteTransaction
| op_importData
| op_reset.

Inductive step {collation : Collation} : Operation -> Store -> Store -> Prop :=
| step_add (e : Env) (d : Draft) (s : Store) :
    step op_addTransaction s (snd (addTransaction e d s))
| step_update (id : string) (u : Updates) (s : Store) :
    step op_updateTransaction s (snd (updateTransaction id u s))
| step_delete (id : string) (s : Store) :
    step op_deleteTransaction s (snd (deleteTransaction id s))
| step_import (e : Env) (payload : jsval) (strategy : string) (s s' : Store) :
    importData e payload strategy s = Return tt s' -> step op_importData s s'
| step_reset (e : Env) (s s' : Store) :
    reset e s = Return tt s' -> step op_reset s s'.

(** *** The month test in local time

    The test as the specification words it: the year and the month of
    the date in the local time of the platform, which [getFullYear] and
    [getMonth] return. *)
Definition getFullYear (pf : Platform) (date : option Z) : option Z :=
  option_map (fun t => Date.YearFromTime (t + LocalTZA pf t)) date.

Definition getMonth (pf : Platform) (date : option Z) : option Z :=
  option_map (fun t => Date.MonthFromTime (t + LocalTZA pf t)) date.

Definition isSameMonth_local (pf : Platform) (dateIso : string) (year monthIndex : Z) : bool :=
  let date := new_Date pf dateIso in
  field_eqb (getFullYear pf date) year && field_eqb (getMonth pf date) monthIndex.

(** *** The budget in exact arithmetic

    [round(income * pct / 100)] on integers, a half rounding up as
    [Math.round] does. *)
Definition exact_budget (income pct : Z) : Z := (2 * income * pct + 100) / 200.

(** The four bucket entries of the totals. *)
Definition buckets_of (t : Totals) : list BucketTotals :=
  [Necessities_totals t; Leisure_totals t; Savings_totals t; Uncategorized_totals t].

(** ** Sample data *)

(** The collation of the examples, of every one that names no other:
    it orders strings by their code units.  The examples compare
    timestamps that differ in a digit and identifiers that are capital
    letters, which a collation puts in that order too. *)
Definition code_unit_order (a b : string) : Z :=
  match String.compare a b with
  | Lt => -1
  | Eq => 0
  | Gt => 1
  end.

#[export] Instance code_units : Collation := {| localeCompare := code_unit_order |}.

(** A collation that compares letters without regard to their case
    first, and puts a small letter before its capital: ["a"] comes
    before ["B"], as in the collation of ["en-US"]. *)
Definition small_letter (c : ascii) : ascii :=
  let n := N_of_ascii c in
  if ((65 <=? n) && (n <=? 90))%N then ascii_of_N (n + 32) else c.

Definition small_letters (s : string) : string :=
  string_of_list_ascii (map small_letter (list_ascii_of_string s)).

Definition letters_before_case : Collation :=
  {| localeCompare := fun a b =>
       match String.compare (small_letters a) (small_letters b) with
       | Lt => -1
       | Eq => code_unit_order b a
       | Gt => 1
       end |}.

Definition sample_env : Env :=
  {| env_stamp := fun _ _ => "lz4k2m9q";
     env_random := fun _ i => index_key i;
     env_now := fun _ _ => "2024-01-15T12:00:00.000Z" |}.

Definition sample_platform : Platform :=
  {| LocalTZA := fun _ => 0; parse_other := fun _ => None |}.

(** A platform one hour east of Greenwich. *)
Definition platform_plus_one : Platform :=
  {| LocalTZA := fun _ => 3600000; parse_other := fun _ => None |}.

(** The store before [init]. *)
Definition initial_state : State :=
  mkState DEFAULT_SETTINGS [] [] [] (2024, 0) [].

Definition fresh_store : Store :=
  mkStore initial_state (mkService (mkLocalStorage Absent Absent Absent Absent) [])
    [] sample_env.

Definition with_transactions (txs : list Transaction) : Store :=
  set_state (set_transactions txs initial_state) fresh_store.

Definition zero_draft : Draft := mkDraft expense Num.zero "" None None None.

Definition tx_A : Transaction :=
  mkTransaction "A" expense (Num.of_Z 1200) "coffee" None None
    "2024-01-03T09:00:00.000Z".

Definition tx_B : Transaction :=
  mkTransaction "B" expense (Num.of_Z 5000) "groceries" None None
    "2024-01-02T09:00:00.000Z".

Definition tx_B_imported : Transaction :=
  mkTransaction "B" income (Num.of_Z 99) "from the file" None None
    "2024-01-09T09:00:00.000Z".

Definition tx_C : Transaction :=
  mkTransaction "C" expense (Num.of_Z 700) "bus" None None
    "2024-01-01T09:00:00.000Z".

(** A record with the timestamp of [tx_B], under a small letter. *)
Definition tx_small_a : Transaction :=
  mkTransaction "a" expense (Num.of_Z 300) "tea" None None
    "2024-01-02T09:00:00.000Z".

Definition payload_of (txs : list Transaction) : jsval :=
  JObj [ ("schema_version", JNum STORAGE_VERSION);
         ("transactions", JArr (map (transaction_js JStr) txs)) ].

(** The example of the specification: current ids {A, B}, imported ids
    {B, C}. *)
Definition merged_store : Store :=
  match importData sample_env (payload_of [tx_B_imported; tx_C]) "merge"
          (with_transactions [tx_A; tx_B]) with
  | Return _ s' => s'
  | _ => fresh_store
  end.

(** Settings with 29 % for necessities, and an income of 50 cents. *)
Definition rule_29 : obj :=
  obj_set "rule"
    (JObj [ ("necessities", JNum (Num.of_Z 29));
            ("leisure", JNum (Num.of_Z 51));
            ("savings", JNum (Num.of_Z 20)) ])
    DEFAULT_SETTINGS.

Definition income_50 : Transaction :=
  mkTransaction "I" income (Num.of_Z 50) "refund" None None
    "2024-01-15T12:00:00.000Z".

Definition state_29 : State :=
  mkState rule_29 [] [income_50] [] (2024, 0) [].

(** The scenario of the specification: an income of 200000 and an
    expense of 50000 in a Necessities category, under 50/30/20. *)
Definition income_200000 : Transaction :=
  mkTransaction "I" income (Num.of_Z 200000) "salary" None None
    "2024-01-15T12:00:00.000Z".

Definition rent_50000 : Transaction :=
  mkTransaction "R" expense (Num.of_Z 50000) "rent" (Some "housing")
    (Some Necessities) "2024-01-16T12:00:00.000Z".

Definition scenario_state : State :=
  mkState DEFAULT_SETTINGS [mkCategory "housing" "Housing" Necessities false]
    [rent_50000; income_200000] [] (2024, 0) [].

(** An expense entered at 00:30 on 1 February 2024, one hour east of
    Greenwich, in a store that shows February. *)
Definition late_january : Transaction :=
  mkTransaction "L" expense (Num.of_Z 1200) "night bus" None None
    "2024-01-31T23:30:00.000Z".

Definition state_month_end : State :=
  mkState DEFAULT_SETTINGS [] [late_january] [] (2024, 1) [].

(** Two records with the same timestamp and identifier, as a file with a
    repeated entry gives them. *)
Definition tx_twice : Transaction :=
  mkTransaction "A" expense (Num.of_Z 1200) "coffee" None None
    "2024-01-03T09:00:00.000Z".

Definition state_twice : State :=
  set_transactions [tx_twice; tx_twice; tx_C] initial_state.

Definition state_pair : State :=
  set_transactions [tx_twice; tx_twice] initial_state.

Definition state_ABC : State :=
  set_transactions [tx_C; tx_A; tx_B] initial_state.

(** An update that moves a record to a later day. *)
Definition later_date : Updates :=
  mkUpdates None None None None None None (Some "2024-01-05T09:00:00.000Z").

(** The store after a draft of amount [0] was added. *)
Definition zero_store : Store := snd (addTransaction sample_env zero_draft fresh_store).

(** A storage whose transactions are stored oldest first. *)
Definition store_oldest_first : Store :=
  mkStore initial_state
    (mkService
       (mkLocalStorage (Json (JArr (map (transaction_js JStr) [tx_C; tx_A])))
          Absent Absent Absent) [])
    [] sample_env.

(** ** Categories, templates and settings *)

Definition set_settings (o : obj) (st : State) : State :=
  mkState o (categories st) (transactions st) (recurring st) (month st) (corruption st).

Definition set_categories (cs : list Category) (st : State) : State :=
  mkState (settings st) cs (transactions st) (recurring st) (month st) (corruption st).

Definition set_recurring (rs : list Recurring) (st : State) : State :=
  mkState (settings st) (categories st) (transactions st) rs (month st) (corruption st).

(** The change descriptors of the operations on categories, templates
    and settings. *)
Inductive CatalogueDetail :=
| D_categories_add (category : Category)
| D_categories_update (category : option Category)
| D_recurring_add (template : Recurring)
| D_recurring_update (template : option Recurring)
| D_recurring_delete (template : option Recurring)
| D_settings_update.

(** [persist(); notify(detail); return a]: the value returned, the store
    after [persist], and the notification delivered to the listeners,
    which is the state they are shown and the detail.  The log [notified]
    of the store keeps the notifications of the operations on the
    transactions; this one is handed back beside the store. *)
Definition announce {A : Type} (a : A) (detail : CatalogueDetail) (s : Store)
  : A * Store * (State * CatalogueDetail) :=
  let s := persist s in
  (a, s, (state s, detail)).

(** [target] after a [map] whose callback assigns it at every record it
    replaces: the replacement of the last match, or [null]. *)
Definition last_replaced {A : Type} (matches : A -> bool) (merge : A -> A) (l : list A)
  : option A :=
  fold_left (fun target x => if matches x then Some (merge x) else target) l None.

(** The [updates] object of [updateCategory].  The bucket is any value:
    it is checked against [BUCKETS] after the merge. *)
Record CategoryUpdates := mkCategoryUpdates {
  cu_id : option string;
  cu_name : option string;
  cu_bucket : option jsval;
  cu_archived : option bool
}.

Definition mergeCategory (cat : Category) (updates : CategoryUpdates) : Category :=
  {| cat_id := override (cat_id cat) (cu_id updates);
     cat_name := override (cat_name cat) (cu_name updates);
     cat_bucket :=
       match cu_bucket updates with
       | Some v => match bucket_of v with Some b => b | None => Necessities end
       | None => cat_bucket cat
       end;
     cat_archived := override (cat_archived cat) (cu_archived updates) |}.

Definition updateCategory (id : string) (updates : CategoryUpdates) (s : Store)
  : option Category * Store * (State * CatalogueDetail) :=
  let st := state s in
  let target :=
    last_replaced (fun cat => (cat_id cat =? id)%string)
      (fun cat => mergeCategory cat updates) (categories st) in
  let mapped :=
    map (fun cat => if negb (cat_id cat =? id)%string then cat
                    else mergeCategory cat updates) (categories st) in
  announce target (D_categories_update target) (set_state (set_categories mapped st) s).

Definition archiveCategory (id : string) (archived : bool) (s : Store)
  : option Category * Store * (State * CatalogueDetail) :=
  updateCategory id (mkCategoryUpdates None None None (Some archived)) s.

(** The [updates] object of [updateRecurring]. *)
Record RecurringUpdates := mkRecurringUpdates {
  ru_id : option string;
  ru_description : option string;
  ru_default_amount_cents : option number;
  ru_category_id : option (option string)
}.

Definition mergeRecurring (template : Recurring) (updates : RecurringUpdates) : Recurring :=
  {| rec_id := override (rec_id template) (ru_id updates);
     rec_description := override (rec_description template) (ru_description updates);
     rec_default_amount_cents :=
       Num.max Num.zero
         (Num.trunc
            (Num.or_zero
               (override (rec_default_amount_cents template)
                  (ru_default_amount_cents updates))));
     rec_category_id := override (rec_category_id template) (ru_category_id updates) |}.

Definition updateRecurring (id : string) (updates : RecurringUpdates) (s : Store)
  : option Recurring * Store * (State * CatalogueDetail) :=
  let st := state s in
  let target :=
    last_replaced (fun template => (rec_id template =? id)%string)
      (fun template => mergeRecurring template updates) (recurring st) in
  let mapped :=
    map (fun template => if negb (rec_id template =? id)%string then template
                         else mergeRecurring template updates) (recurring st) in
  announce target (D_recurring_update target) (set_state (set_recurring mapped st) s).

Definition deleteRecurring (id : string) (s : Store)
  : option Recurring * Store * (State * CatalogueDetail) :=
  let st := state s in
  let target := find (fun template => (rec_id template =? id)%string) (recurring st) in
  announce target (D_recurring_delete target)
    (set_state
       (set_recurring
          (filter (fun template => negb (rec_id template =? id)%string) (recurring st)) st)
       s).

Definition saveSettings (updates : jsval) (s : Store)
  : obj * Store * (State * CatalogueDetail) :=
  let st := state s in
  let settings' := normalizeSettings (JObj (spread (settings st) updates)) in
  announce settings' D_settings_update (set_state (set_settings settings' st) s).

(** [addCategory] and [addRecurring] trim the text they are given.
    Which code units [String.prototype.trim] removes is left to the
    platform. *)
Section Trim.
Context (trim : string -> string).

(** [text.trim() || fallback]. *)
Definition trim_or (fallback text : string) : string :=
  if (trim text =? "")%string then fallback else trim text.

Definition addCategory (e : Env) (name : string) (bucket : jsval) (s : Store)
  : Category * Store * (State * CatalogueDetail) :=
  let category :=
    {| cat_id := createId e KCategories 0;
       cat_name := trim_or "Untitled" name;
       cat_bucket := match bucket_of bucket with Some b => b | None => Necessities end;
       cat_archived := false |} in
  announce category (D_categories_add category)
    (set_state (set_categories (categories (state s) ++ [category]) (state s)) s).

Definition addRecurring (e : Env) (description : string) (default_amount_cents : number)
    (category_id : option string) (s : Store)
  : Recurring * Store * (State * CatalogueDetail) :=
  let template :=
    {| rec_id := createId e KRecurring 0;
       rec_description := trim_or "Template" description;
       rec_default_amount_cents :=
         Num.max Num.zero (Num.trunc (Num.or_zero default_amount_cents));
       rec_category_id := if truthy_ref category_id then category_id else None |} in
  announce template (D_recurring_add template)
    (set_state (set_recurring (recurring (state s) ++ [template]) (state s)) s).
End Trim.

(** ** Spending by category *)

(** A [Map] with string keys: its entries in insertion order.  [set] on
    a key that is present replaces the value where it stands. *)
Definition Map (V : Type) := list (string * V).

Fixpoint Map_get {V : Type} (k : string) (m : Map V) : option V :=
  match m with
  | [] => None
  | (k', v) :: m' => if (k =? k')%string then Some v else Map_get k m'
  end.

Definition Map_has {V : Type} (k : string) (m : Map V) : bool :=
  match Map_get k m with Some _ => true | None => false end.

Fixpoint Map_set {V : Type} (k : string) (v : V) (m : Map V) : Map V :=
  match m with
  | [] => [(k, v)]
  | (k', v') :: m' =>
      if (k =? k')%string then (k, v) :: m' else (k', v') :: Map_set k v m'
  end.

Definition Map_values {V : Type} (m : Map V) : list V := map snd m.

(** [tx.category_id || "uncategorized"]. *)
Definition category_key (tx : Transaction) : string :=
  match tx_category_id tx with
  | Some c => if truthy_ref (Some c) then c else "uncategorized"
  | None => "uncategorized"
  end.

(** An entry of the spending map; [count] is a natural number. *)
Record Spending := mkSpending {
  sp_category_id : string;
  sp_name : string;
  sp_bucket : option Bucket;
  sp_spent_cents : number;
  sp_count : nat
}.

(** The body of the loop of [getSpendingByCategory]. *)
Definition spend (pf : Platform) (year monthIndex : Z) (st : State)
    (m : Map Spending) (tx : Transaction) : Map Spending :=
  match tx_type tx with
  | income => m
  | expense =>
      if negb (isSameMonth pf (tx_date_iso tx) year monthIndex) then m
      else
        let id := category_key tx in
        let m :=
          if negb (Map_has id m) then
            let category :=
              match tx_category_id tx with
              | Some c => find (fun cat => (cat_id cat =? c)%string) (categories st)
              | None => None
              end in
            Map_set id
              {| sp_category_id := id;
                 sp_name :=
                   match category with
                   | Some c => cat_name c
                   | None => "Uncategorized"
                   end;
                 sp_bucket := option_map cat_bucket category;
                 sp_spent_cents := Num.zero;
                 sp_count := 0 |} m
          else m in
        match Map_get id m with
        | Some entry =>
            Map_set id
              {| sp_category_id := sp_category_id entry;
                 sp_name := sp_name entry;
                 sp_bucket := sp_bucket entry;
                 sp_spent_cents := Num.add (sp_spent_cents entry) (tx_amount_cents tx);
                 sp_count := S (sp_count entry) |} m
        | None => m
        end
  end.

(** The sign a comparator's result stands for; [NaN] counts as [0]. *)
Definition sign (x : number) : Z :=
  match x with
  | S754_zero _ | S754_nan => 0
  | S754_infinity s | S754_finite s _ _ => if s then -1 else 1
  end.

(** [(a, b) => b.spent_cents - a.spent_cents]. *)
Definition compareSpentDesc (a b : Spending) : Z :=
  sign (Num.sub (sp_spent_cents b) (sp_spent_cents a)).

Definition getSpendingByCategory (pf : Platform) (year monthIndex : Z) (st : State)
  : list Spending :=
  sort compareSpentDesc
    (Map_values (fold_left (spend pf year monthIndex st) (transactions st) [])).

(** The body of the loop of [getCategoryStats]. *)
Definition count_expense (pf : Platform) (year monthIndex : Z)
    (counts : Map nat) (tx : Transaction) : Map nat :=
  match tx_type tx with
  | income => counts
  | expense =>
      if negb (isSameMonth pf (tx_date_iso tx) year monthIndex) then counts
      else
        let id := category_key tx in
        Map_set id
          (S (match Map_get id counts with Some n => n | None => O end)) counts
  end.

(** Each category with its [currentMonthCount]. *)
Definition getCategoryStats (pf : Platform) (year monthIndex : Z) (st : State)
  : list (Category * nat) :=
  let counts := fold_left (count_expense pf year monthIndex) (transactions st) [] in
  map (fun category =>
         (category,
          match Map_get (cat_id category) counts with Some n => n | None => O end))
    (categories st).

(** ** Activity groups *)

(** [new Intl.DateTimeFormat(locale, {year, month, day})]: the
    constructor throws a [RangeError] on a locale it does not accept
    ([None]); the formatter gives the text of the day of a time value. *)
Definition DateTimeFormat := jsval -> option (Z -> string).

Record Group := mkGroup {
  dateLabel : string;
  entries : list Transaction
}.

Record Activity := mkActivity {
  groups : list Group;
  activity_nextCursor : option string;
  activity_hasMore : bool
}.

(** [currentGroup.entries.push(tx)]: [currentGroup] is the last element
    of [grouped]. *)
Fixpoint push_entry (tx : Transaction) (grouped : list Group) : list Group :=
  match grouped with
  | [] => []
  | g :: rest =>
      match rest with
      | [] => [mkGroup (dateLabel g) (entries g ++ [tx])]
      | _ :: _ => g :: push_entry tx rest
      end
  end.

(** One turn of the loop, for a transaction whose day reads [dayLabel]. *)
Definition group_entry (dayLabel : string) (tx : Transaction) (grouped : list Group)
  : list Group :=
  let grouped :=
    match last (map Some grouped) None with
    | Some currentGroup =>
        if negb (dateLabel currentGroup =? dayLabel)%string
        then grouped ++ [mkGroup dayLabel []]
        else grouped
    | None => grouped ++ [mkGroup dayLabel []]
    end in
  push_entry tx grouped.

(** The loop; [format] throws a [RangeError] on an invalid date
    ([None]). *)
Fixpoint group_items (format : Z -> string) (pf : Platform) (txs : list Transaction)
    (grouped : list Group) : option (list Group) :=
  match txs with
  | [] => Some grouped
  | tx :: txs' =>
      match new_Date pf (tx_date_iso tx) with
      | Some t => group_items format pf txs' (group_entry (format t) tx grouped)
      | None => None
      end
  end.

(** [year] and [monthIndex] are read by no statement with an effect. *)
Definition getActivityGroups {collation : Collation} (intl : DateTimeFormat) (pf : Platform)
    (year monthIndex : Z) (pageSize : nat) (cursor : option string) (st : State)
  : option Activity :=
  let p := getRecentTransactions pageSize cursor st in
  match intl (get "locale" (JObj (settings st))) with
  | Some format =>
      match group_items format pf (items p) [] with
      | Some grouped => Some (mkActivity grouped (nextCursor p) (hasMore p))
      | None => None
      end
  | None => None
  end.

(** ** Amount entry *)

Definition is_digit (c : ascii) : bool :=
  match Date.digit c with Some _ => true | None => false end.

Definition is_separator (c : ascii) : bool :=
  Ascii.eqb c "."%char || Ascii.eqb c ","%char.

(** [s.lastIndexOf(c)]. *)
Fixpoint lastIndexOf (c : ascii) (s : list ascii) : Z :=
  match s with
  | [] => -1
  | x :: s' =>
      let i := lastIndexOf c s' in
      if 0 <=? i then i + 1 else if Ascii.eqb x c then 0 else -1
  end.

(** [Number.parseInt(digits, 10)] for a string of decimal digits, the
    only strings it is called with: the number nearest to the integer
    they write, and [NaN] for the empty string.  (Beyond twenty digits
    the language lets an implementation round less exactly.) *)
Definition parseInt (digits : list ascii) : number :=
  match digits with
  | [] => Num.NaN
  | _ :: _ =>
      match Date.number_of digits 0 with
      | Some n => Num.of_Z n
      | None => Num.NaN
      end
  end.

Definition parseAmountToCents (inputValue : jsval) : number :=
  match inputValue with
  | JStr s =>
      let sanitized :=
        filter (fun c => is_digit c || is_separator c) (list_ascii_of_string s) in
      match sanitized with
      | [] => Num.NaN
      | _ :: _ =>
          let lastComma := lastIndexOf ","%char sanitized in
          let lastDot := lastIndexOf "."%char sanitized in
          let separatorIndex := Z.max lastComma lastDot in
          if separatorIndex =? -1 then
            match filter is_digit sanitized with
            | [] => Num.NaN
            | digits => Num.mul (parseInt digits) (Num.of_Z 100)
            end
          else
            let integerPart :=
              filter is_digit (firstn (Z.to_nat separatorIndex) sanitized) in
            let fractionalPart :=
              filter is_digit (skipn (Z.to_nat (separatorIndex + 1)) sanitized) in
            match integerPart with
            | [] => Num.NaN
            | _ :: _ =>
                let fractionalPart :=
                  match fractionalPart with
                  | [] => ["0"; "0"]%char
                  | [d] => [d; "0"%char]
                  | _ => firstn 2 fractionalPart
                  end in
                let cents :=
                  Num.add (Num.mul (parseInt integerPart) (Num.of_Z 100))
                    (parseInt fractionalPart) in
                if Num.isFinite cents then cents else Num.NaN
            end
      end
  | _ => Num.NaN
  end.
(** ** Vocabulary of the further properties *)

(** *** Undo *)

(** The draft [{...removed}] that the undo of a deletion hands to
    [addTransaction]. *)
Definition draft_of (t : Transaction) : Draft :=
  mkDraft (tx_type t) (tx_amount_cents t) (tx_description t) (tx_category_id t)
    (tx_bucket t) (Some (tx_date_iso t)).

(** The record [t] under another identifier. *)
Definition with_id (id : string) (t : Transaction) : Transaction :=
  mkTransaction id (tx_type t) (tx_amount_cents t) (tx_description t)
    (tx_category_id t) (tx_bucket t) (tx_date_iso t).

(** A record as [buildTransaction] makes it from the categories of [st]:
    an income has neither category nor bucket, and an expense without
    bucket has no category that would give it one. *)
Definition resolved (st : State) (t : Transaction) : Prop :=
  match tx_type t with
  | income => tx_category_id t = None /\ tx_bucket t = None
  | expense =>
      tx_bucket t = None -> truthy_ref (tx_category_id t) = true ->
      getCategoryBucket st (tx_category_id t) = None
  end.

(** *** Months *)

(** The records of a collection that fall in a month. *)
Definition of_month (pf : Platform) (year monthIndex : Z) (txs : list Transaction)
  : list Transaction :=
  filter (fun tx => isSameMonth pf (tx_date_iso tx) year monthIndex) txs.

(** The expenses among them. *)
Definition expenses_of_month (pf : Platform) (year monthIndex : Z) (txs : list Transaction)
  : list Transaction :=
  filter (fun tx => match tx_type tx with expense => true | income => false end)
    (of_month pf year monthIndex txs).

(** *** Spending *)

(** The records filed under a key of the spending map. *)
Definition with_key (k : string) (txs : list Transaction) : list Transaction :=
  filter (fun tx => (category_key tx =? k)%string) txs.

(** The category whose identifier a record carries, if the state has
    one. *)
Definition category_of (st : State) (tx : Transaction) : option Category :=
  match tx_category_id tx with
  | Some c => find (fun cat => (cat_id cat =? c)%string) (categories st)
  | None => None
  end.

(** The entry of the spending map for the records [txs] filed under
    [k]: named after the category of the first record, with the amounts
    added in the order of the records. *)
Definition spending_entry (st : State) (k : string) (txs : list Transaction) : Spending :=
  let category := match txs with tx :: _ => category_of st tx | [] => None end in
  {| sp_category_id := k;
     sp_name := match category with Some c => cat_name c | None => "Uncategorized" end;
     sp_bucket := option_map cat_bucket category;
     sp_spent_cents := fold_left (fun a tx => Num.add a (tx_amount_cents tx)) txs Num.zero;
     sp_count := List.length txs |}.

(** *** Groups *)

(** The label the formatter gives the day of a record; [None] when the
    date does not parse. *)
Definition day_label (format : Z -> string) (pf : Platform) (tx : Transaction)
  : option string :=
  option_map format (new_Date pf (tx_date_iso tx)).

(** A group that holds records, all of the day it is labelled with. *)
Definition day_group (format : Z -> string) (pf : Platform) (g : Group) : Prop :=
  entries g <> []
  /\ Forall (fun tx => day_label format pf tx = Some (dateLabel g)) (entries g).

(** Two groups of different days. *)
Definition other_day (g h : Group) : Prop := dateLabel g <> dateLabel h.

(** *** Amounts typed in *)

(** The amount, in cents, written by the digits [units] before the
    decimal separator and the digits [fraction] after it: the fraction is
    padded or cut to two digits. *)
Definition cents_of (units fraction : list ascii) : number :=
  match units with
  | [] => Num.NaN
  | _ :: _ =>
      let two :=
        match fraction with
        | [] => ["0"; "0"]%char
        | [d] => [d; "0"%char]
        | d1 :: d2 :: _ => [d1; d2]
        end in
      let cents := Num.add (Num.mul (parseInt units) (Num.of_Z 100)) (parseInt two) in
      if Num.isFinite cents then cents else Num.NaN
  end.

(** A number that is not negative: [NaN], or a value whose sign is
    [+]. *)
Definition not_negative (x : number) : Prop :=
  match x with
  | S754_nan => True
  | S754_zero s | S754_infinity s | S754_finite s _ _ => s = false
  end.

(** *** Stores that reload *)

(** The storage holds what [persist] writes for the state. *)
Definition in_sync (s : Store) : Prop :=
  localStorage (service s) = localStorage (service (persist s)).

(** A store whose state is normal, whose settings hold JSON values, and
    whose storage is in step with the state. *)
Definition sound (s : Store) : Prop :=
  normal_state (state s)
  /\ json (JObj (settings (state s))) = JObj (settings (state s))
  /\ in_sync s.

(** An amount that a transaction keeps: at least [1], and not
    [Infinity]. *)
Definition positive_amount (a : number) : Prop :=
  Num.isFinite a = true /\ Num.gtb (Num.trunc a) Num.zero = true.

(** One call of an operation of the store on the transactions, the
    categories or the templates, with arguments as the forms send them:
    no identifier in the updates, no empty category reference, a positive
    amount for a transaction and one that is not [Infinity] for a
    template. *)
Inductive form_call {collation : Collation} : Store -> Store -> Prop :=
| call_addTransaction (e : Env) (d : Draft) (s : Store) :
    positive_amount (d_amount_cents d) -> d_category_id d <> Some "" ->
    form_call s (snd (addTransaction e d s))
| call_updateTransaction (id : string) (u : Updates) (s : Store) :
    u_id u = None -> u_category_id u <> Some (Some "") ->
    (forall a, u_amount_cents u = Some a -> positive_amount a) ->
    form_call s (snd (updateTransaction id u s))
| call_deleteTransaction (id : string) (s : Store) :
    form_call s (snd (deleteTransaction id s))
| call_addCategory (trim : string -> string) (e : Env) (name : string) (bucket : jsval)
    (s : Store) :
    form_call s (snd (fst (addCategory trim e name bucket s)))
| call_updateCategory (id : string) (u : CategoryUpdates) (s : Store) :
    cu_id u = None ->
    form_call s (snd (fst (updateCategory id u s)))
| call_addRecurring (trim : string -> string) (e : Env) (description : string)
    (amount : number) (category_id : option string) (s : Store) :
    amount <> S754_infinity false ->
    form_call s (snd (fst (addRecurring trim e description amount category_id s)))
| call_updateRecurring (id : string) (u : RecurringUpdates) (s : Store) :
    ru_id u = None -> ru_category_id u <> Some (Some "") ->
    ru_default_amount_cents u <> Some (S754_infinity false) ->
    form_call s (snd (fst (updateRecurring id u s)))
| call_deleteRecurring (id : string) (s : Store) :
    form_call s (snd (fst (deleteRecurring id s))).

(** *** Settings *)

(** The keys [normalizeSettings] assigns itself. *)
Definition normalized_keys : list string :=
  ["schema_version"; "rule"; "showAdvancedCharts"; "hapticFeedback"; "firstDayOfWeek"].

(** *** Storage *)

(** What [ensureDefaults] accepts under a key: an array for a
    collection, a truthy value with the current [schema_version] for the
    settings. *)
Definition usable_array (it : item) : bool :=
  match it with Json v => is_array v | _ => false end.

Definition usable_settings (it : item) : bool :=
  match it with
  | Json v => truthy v && strict_eq_num (get "schema_version" v) STORAGE_VERSION
  | _ => false
  end.

Definition is_corrupt (it : item) : bool :=
  match it with Corrupt => true | _ => false end.

Definition usable (k : Key) (it : item) : bool :=
  match k with
  | KSettings => usable_settings it
  | _ => usable_array it
  end.

(** The value [ensureDefaults] writes under a key. *)
Definition default_value (boot : Env) (k : Key) : jsval :=
  match k with
  | KSettings => JObj DEFAULT_SETTINGS
  | KCategories => JArr (map (category_js JStr) (DEFAULT_CATEGORIES boot))
  | KTransactions | KRecurring => JArr []
  end.

(** The keys in the order [ensureDefaults] reads them. *)
Definition STORAGE_KEYS : list Key := [KSettings; KCategories; KTransactions; KRecurring].

(** The state [st] as a page load finds it: no corruption noted. *)
Definition reloaded (st : State) : State :=
  mkState (settings st) (categories st) (transactions st) (recurring st) (month st) [].

(** The state of a store that has just been reset. *)
Definition factory_state (s : Store) : State :=
  mkState DEFAULT_SETTINGS (DEFAULT_CATEGORIES (boot s)) [] []
    (month (state s)) (corruption (state s)).

(** ** Further sample data *)

Definition housing : Category := mkCategory "housing" "Housing" Necessities false.

Definition fun_category : Category := mkCategory "fun" "Fun" Leisure false.

(** Two categories and the rent, an expense of the first one. *)
Definition store_with_rent : Store :=
  set_state
    (mkState DEFAULT_SETTINGS [housing; fun_category] [rent_50000] [] (2024, 0) [])
    fresh_store.

(** What the edit dialog sends when the category of the rent is changed
    to the second one. *)
Definition rent_to_fun : Updates :=
  mkUpdates None None (Some (Num.of_Z 50000)) (Some "rent") (Some (Some "fun")) None None.

(** A storage whose transactions do not parse, and the store after the
    page load that finds it. *)
Definition corrupt_store : Store :=
  mkStore initial_state (mkService (mkLocalStorage Corrupt Absent Absent Absent) [])
    [] sample_env.

Definition corrupt_store_loaded : Store :=
  match init sample_env corrupt_store with
  | Return _ s' => s'
  | _ => corrupt_store
  end.

(** The scenario a month later: the same rule, the two records of
    January, a record of February, and other categories. *)
Definition rent_february : Transaction :=
  mkTransaction "F" expense (Num.of_Z 50000) "rent" (Some "housing")
    (Some Necessities) "2024-02-16T12:00:00.000Z".

Definition scenario_state_february : State :=
  mkState DEFAULT_SETTINGS [housing; fun_category]
    [rent_february; rent_50000; income_200000] [] (2024, 1) [].

(** A formatter that labels a day by its number since the epoch. *)
Definition sample_intl : DateTimeFormat :=
  fun _ => Some (fun t => index_key (Z.to_nat (Date.Day t))).

(** A record whose [date_iso] is not a date, as an import accepts it. *)
Definition tx_undated : Transaction :=
  mkTransaction "U" expense (Num.of_Z 100) "tea" None None "yesterday".

(** A draft as the expense form sends it. *)
Definition coffee_draft : Draft :=
  mkDraft expense (Num.of_Z 450) "coffee" None None None.

(** The update that moves the first category to another bucket. *)
Definition housing_to_savings : CategoryUpdates :=
  mkCategoryUpdates None (Some "Housing") (Some (JStr "Savings")) None.

(** An update of the currency alone, with a version that is not the
    current one. *)
Definition euro_update : jsval :=
  JObj [("currency", JStr "EUR"); ("schema_version", JNum (Num.of_Z 7))].

(** An update of one percentage of the rule. *)
Definition necessities_60 : jsval :=
  JObj [("rule", JObj [("necessities", JNum (Num.of_Z 60))])].

(** A store whose rule is 29/51/20. *)
Definition store_29 : Store := set_state state_29 fresh_store.

(** * Properties *)

(** ** Numbers *)

Module NumFacts.
Import Num.

Lemma pos_iter_xO (p d : positive) :
  Zpos (Pos.iter xO p d) = Z.shiftl (Zpos p) (Zpos d).
Proof.
  unfold Z.shiftl.
  apply (Pos.iter_swap_gen _ _ Zpos xO (Z.mul 2)). reflexivity.
Qed.

(** The integer a canonical mantissa stands for is recovered by shifting
    it back. *)
Lemma of_pos_cases (s : bool) (p : positive) :
  of_pos s p = S754_finite s p 0
  \/ exists d, of_pos s p = S754_finite s (Pos.iter xO p d) (Zneg d).
Proof.
  unfold of_pos, shl_align.
  destruct (Zpos (digits2_pos p) - prec) as [|d|d]; simpl; auto.
  right. exists d. reflexivity.
Qed.

(** The integer a canonical mantissa stands for is recovered by shifting
    it back. *)
Lemma trunc_of_pos (s : bool) (p : positive) : trunc (of_pos s p) = of_pos s p.
Proof.
  destruct (of_pos_cases s p) as [E | [d E]].
  - rewrite E. reflexivity.
  - assert (H : trunc (S754_finite s (Pos.iter xO p d) (Zneg d)) = of_pos s p).
    { unfold trunc.
      replace (0 <=? Zneg d) with false by reflexivity.
      rewrite pos_iter_xO.
      change (- Zneg d) with (Zpos d).
      rewrite Z.shiftr_shiftl_l by lia.
      rewrite Z.sub_diag. reflexivity. }
    rewrite E at 1. exact H.
Qed.

Lemma trunc_idempotent (x : number) : trunc (trunc x) = trunc x.
Proof.
  destruct x as [s|s| |s m e]; simpl; try reflexivity.
  destruct (0 <=? e) eqn:E.
  - simpl. rewrite E. reflexivity.
  - destruct (Z.shiftr (Zpos m) (- e)); try reflexivity.
    apply trunc_of_pos.
Qed.

Lemma trunc_finite (x : number) : isFinite x = true -> isFinite (trunc x) = true.
Proof.
  destruct x as [s|s| |s m e]; simpl; try congruence.
  intros _. destruct (0 <=? e); [reflexivity|].
  destruct (Z.shiftr (Zpos m) (- e)); try reflexivity.
  unfold of_pos. destruct (shl_align _ _ _). reflexivity.
Qed.

(** [Math.max(0, x)] of a finite [x] is [+0] or [x] itself, and then [x]
    is positive. *)
Lemma max_zero_cases (x : number) :
  isFinite x = true ->
  max zero x = zero \/ (max zero x = x /\ gtb x zero = true).
Proof.
  destruct x as [s|s| |s m e]; simpl; try congruence; intros _.
  - left. reflexivity.
  - destruct s; [left | right]; split; reflexivity.
Qed.

Lemma gtb_zero_max (x : number) : gtb x zero = true -> max zero x = x.
Proof.
  destruct x as [s|s| |s m e]; try destruct s; cbv; congruence.
Qed.

Lemma gtb_zero_truthy (x : number) : gtb x zero = true -> truthy x = true.
Proof.
  destruct x as [s|s| |s m e]; try destruct s; cbv; congruence.
Qed.

(** [===] on numbers decides equality with a finite non-zero number. *)
Lemma eqb_finite (x : number) (s : bool) (m : positive) (e : Z) :
  eqb x (S754_finite s m e) = true <-> x = S754_finite s m e.
Proof.
  split.
  - unfold eqb, SFeqb.
    destruct x as [s'|s'| |s' m' e']; simpl.
    + destruct s; discriminate.
    + destruct s'; discriminate.
    + discriminate.
    + destruct s', s; try discriminate;
        (destruct (e' ?= e) eqn:E; try discriminate;
         apply Z.compare_eq in E; subst e';
         destruct (Pos.compare_cont Eq m' m) eqn:C; try discriminate;
         apply Pcompare_Eq_eq in C; now subst).
  - intros ->. unfold eqb, SFeqb. simpl.
    destruct s; rewrite Z.compare_refl, Pcompare_refl; reflexivity.
Qed.

End NumFacts.

Lemma coerce_amount_is_amount (v : jsval) : is_amount (coerce_amount v).
Proof.
  assert (Z : is_amount Num.zero) by (repeat split; auto).
  destruct v as [| | |x| | |]; simpl; try exact Z.
  destruct (Num.isFinite x) eqn:F; [|exact Z].
  pose proof (NumFacts.trunc_finite x F) as Ft.
  destruct (NumFacts.max_zero_cases (Num.trunc x) Ft) as [H | [H G]]; rewrite H.
  - exact Z.
  - repeat split; auto using NumFacts.trunc_idempotent.
Qed.

Lemma is_amount_max (a : number) : is_amount a -> Num.max Num.zero a = a.
Proof.
  intros (_ & _ & [->|G]); [reflexivity|]. now apply NumFacts.gtb_zero_max.
Qed.

Lemma coerce_amount_fixed (a : number) : is_amount a -> coerce_amount (JNum a) = a.
Proof.
  intros H. pose proof (is_amount_max a H) as M.
  destruct H as (F & T & _). simpl. rewrite F, T. exact M.
Qed.

(** ** Normalizers *)

Section ListFacts.
Context {A B : Type}.

Lemma filter_all (f : A -> bool) (l : list A) :
  Forall (fun x => f x = true) l -> filter f l = l.
Proof.
  induction 1 as [|x l Hx _ IH]; simpl; [reflexivity|].
  rewrite Hx, IH. reflexivity.
Qed.

Lemma Forall_filter_keep (P : A -> Prop) (f : A -> bool) (l : list A) :
  Forall P l -> Forall P (filter f l).
Proof.
  induction 1 as [|x l Hx _ IH]; simpl; [constructor|].
  destruct (f x); auto.
Qed.

Lemma Forall_filter_test (f : A -> bool) (l : list A) :
  Forall (fun x => f x = true) (filter f l).
Proof.
  induction l as [|x l IH]; simpl; [constructor|].
  destruct (f x) eqn:E; auto.
Qed.

Lemma Forall_mapi_from (Q : B -> Prop) (g : nat -> A -> B) (l : list A) :
  (forall i x, Q (g i x)) -> forall n, Forall Q (mapi_from n g l).
Proof.
  intros Hg. induction l as [|x l IH]; intros n; simpl; constructor; auto.
Qed.

(** Mapping back over the image of a list of fixed points gives the
    list, whatever the positions. *)
Lemma mapi_from_fixed (P : B -> Prop) (g : nat -> A -> B) (h : B -> A) (l : list B) :
  (forall i y, P y -> g i (h y) = y) ->
  Forall P l -> forall n, mapi_from n g (map h l) = l.
Proof.
  intros Hg. induction 1 as [|y l Hy _ IH]; intros n; simpl; [reflexivity|].
  rewrite Hg, IH by assumption. reflexivity.
Qed.
End ListFacts.

Lemma createId_nonempty (e : Env) (k : Key) (i : nat) : createId e k i <> "".
Proof.
  unfold createId. destruct (env_stamp e k i); discriminate.
Qed.

Lemma id_or_create_truthy (e : Env) (k : Key) (i : nat) (v : jsval) :
  truthy (id_or_create e k i v) = true.
Proof.
  unfold id_or_create. destruct (truthy v) eqn:T; [exact T|].
  simpl. apply negb_true_iff, String.eqb_neq, createId_nonempty.
Qed.

Lemma id_or_create_fixed (e : Env) (k : Key) (i : nat) (v : jsval) :
  truthy v = true -> id_or_create e k i v = v.
Proof. unfold id_or_create. now intros ->. Qed.

Lemma or_null_normal (v : jsval) : normal_ref (or_null v).
Proof.
  unfold normal_ref, or_null. intros w. destruct (truthy v) eqn:T; congruence.
Qed.

Lemma or_null_fixed (o : option jsval) :
  normal_ref o -> or_null (opt_js (fun v => v) o) = o.
Proof.
  unfold normal_ref, or_null. destruct o as [v|]; simpl; [|reflexivity].
  intros H. now rewrite (H v eq_refl).
Qed.

Lemma bucket_of_fixed (b : option Bucket) : bucket_of (opt_js bucket_js b) = b.
Proof. destruct b as [[]|]; reflexivity. Qed.

Lemma bucket_of_name (b : Bucket) : bucket_of (JStr (bucket_name b)) = Some b.
Proof. destruct b; reflexivity. Qed.

Lemma normalizeCategories_normal (e : Env) (x : jsval) :
  Forall normal_category (normalizeCategories e x).
Proof.
  unfold normalizeCategories, mapi. apply Forall_mapi_from.
  intros i item. apply id_or_create_truthy.
Qed.

Lemma normalizeTransactions_normal (e : Env) (x : jsval) :
  Forall normal_transaction (normalizeTransactions e x).
Proof.
  unfold normalizeTransactions.
  set (f := fun tx : Transaction_ jsval => Num.gtb (tx_amount_cents tx) Num.zero).
  match goal with |- Forall _ (filter _ ?l) =>
    assert (H1 : Forall (fun t => f t = true) (filter f l)) by apply Forall_filter_test;
    assert (H2 : Forall (fun t => truthy (tx_id t) = true
                                  /\ is_amount (tx_amount_cents t)
                                  /\ normal_ref (tx_category_id t)) (filter f l))
  end.
  { apply Forall_filter_keep. unfold mapi. apply Forall_mapi_from.
    intros i tx. simpl. split; [apply id_or_create_truthy|].
    split; [apply coerce_amount_is_amount | apply or_null_normal]. }
  rewrite Forall_forall in *. intros t Ht.
  destruct (H2 t Ht) as (Hi & Ha & Hc). repeat split; auto.
  - apply Ha.
  - apply Ha.
  - apply Ha.
  - exact (H1 t Ht).
Qed.

Lemma normalizeRecurring_normal (e : Env) (x : jsval) :
  Forall normal_recurring (normalizeRecurring e x).
Proof.
  unfold normalizeRecurring, mapi. apply Forall_mapi_from.
  intros i item. split; [apply id_or_create_truthy|].
  split; [apply coerce_amount_is_amount | apply or_null_normal].
Qed.

Lemma all_records {A : Type} (h : A -> jsval) (l : list A) :
  (forall a, is_record (h a) = true) ->
  filter is_record (map h l) = map h l.
Proof.
  intros Hh. induction l as [|a l IH]; simpl; [reflexivity|].
  now rewrite Hh, IH.
Qed.

Section Fields.
Context {I : Type} (inj : I -> jsval).

Lemma category_js_fields (c : Category_ I) :
  get "id" (category_js inj c) = inj (cat_id c)
  /\ get "name" (category_js inj c) = JStr (cat_name c)
  /\ get "bucket" (category_js inj c) = bucket_js (cat_bucket c)
  /\ get "archived" (category_js inj c) = JBool (cat_archived c).
Proof. repeat split; reflexivity. Qed.

Lemma transaction_js_fields (t : Transaction_ I) :
  get "id" (transaction_js inj t) = inj (tx_id t)
  /\ get "type" (transaction_js inj t) = type_js (tx_type t)
  /\ get "amount_cents" (transaction_js inj t) = JNum (tx_amount_cents t)
  /\ get "description" (transaction_js inj t) = JStr (tx_description t)
  /\ get "category_id" (transaction_js inj t) = opt_js inj (tx_category_id t)
  /\ get "bucket" (transaction_js inj t) = opt_js bucket_js (tx_bucket t)
  /\ get "date_iso" (transaction_js inj t) = JStr (tx_date_iso t).
Proof. repeat split; reflexivity. Qed.

Lemma recurring_js_fields (r : Recurring_ I) :
  get "id" (recurring_js inj r) = inj (rec_id r)
  /\ get "description" (recurring_js inj r) = JStr (rec_description r)
  /\ get "default_amount_cents" (recurring_js inj r)
     = JNum (rec_default_amount_cents r)
  /\ get "category_id" (recurring_js inj r) = opt_js inj (rec_category_id r).
Proof. repeat split; reflexivity. Qed.
End Fields.

(** A normalizer gives back a list of normal records unchanged. *)
Lemma normalizeCategories_fixed (e : Env) (cs : list (Category_ jsval)) :
  Forall normal_category cs ->
  normalizeCategories e (JArr (map (category_js (fun v => v)) cs)) = cs.
Proof.
  intros H. unfold normalizeCategories, mapi. simpl array_items.
  rewrite all_records by reflexivity.
  apply (mapi_from_fixed normal_category); [|exact H].
  intros i c Hc. unfold normal_category in Hc.
  destruct (category_js_fields (fun v => v) c) as (-> & -> & -> & ->).
  rewrite (id_or_create_fixed _ _ _ _ Hc). unfold bucket_js.
  rewrite bucket_of_name. destruct c as [cid name b arch], arch; reflexivity.
Qed.

Lemma type_js_fixed (ty : TxType) :
  match type_js ty with
  | JStr s => if (s =? "income")%string then income else expense
  | _ => expense
  end = ty.
Proof. destruct ty; reflexivity. Qed.

Lemma normalizeTransactions_fixed (e : Env) (ts : list (Transaction_ jsval)) :
  Forall normal_transaction ts ->
  normalizeTransactions e (JArr (map (transaction_js (fun v => v)) ts)) = ts.
Proof.
  intros H. unfold normalizeTransactions, mapi. simpl array_items.
  rewrite all_records by reflexivity.
  rewrite (mapi_from_fixed normal_transaction); [| |exact H].
  - apply filter_all. revert H. apply Forall_impl. intros t Ht. apply Ht.
  - intros i t (Hi & Ha & _ & Hc).
    destruct (transaction_js_fields (fun v => v) t) as (-> & -> & -> & -> & -> & -> & ->).
    rewrite (id_or_create_fixed _ _ _ _ Hi), type_js_fixed.
    rewrite (coerce_amount_fixed _ Ha), (or_null_fixed _ Hc), bucket_of_fixed.
    destruct t; reflexivity.
Qed.

Lemma normalizeRecurring_fixed (e : Env) (rs : list (Recurring_ jsval)) :
  Forall normal_recurring rs ->
  normalizeRecurring e (JArr (map (recurring_js (fun v => v)) rs)) = rs.
Proof.
  intros H. unfold normalizeRecurring, mapi. simpl array_items.
  rewrite all_records by reflexivity.
  apply (mapi_from_fixed normal_recurring); [|exact H].
  intros i r (Hi & Ha & Hc).
  destruct (recurring_js_fields (fun v => v) r) as (-> & -> & -> & ->).
  rewrite (id_or_create_fixed _ _ _ _ Hi), (or_null_fixed _ Hc).
  rewrite (coerce_amount_fixed _ Ha). destruct r; reflexivity.
Qed.

(** ** Objects and [normalizeSettings] *)

Lemma lookup_notin (k : string) (o : obj) : ~ In k (keys o) -> lookup k o = None.
Proof.
  induction o as [|[k' v] o IH]; simpl; [reflexivity|].
  intros H. rewrite IH by tauto.
  destruct (String.eqb_spec k k'); [|reflexivity]. subst. tauto.
Qed.

Lemma lookup_cons_ne (k k' : string) (v : jsval) (o : obj) :
  k <> k' -> lookup k ((k', v) :: o) = lookup k o.
Proof.
  intros H. simpl. destruct (lookup k o); [reflexivity|].
  now apply String.eqb_neq in H as ->.
Qed.

Lemma obj_set_app (k : string) (v : jsval) (done o : obj) :
  ~ In k (keys done) -> obj_set k v (done ++ o) = done ++ obj_set k v o.
Proof.
  induction done as [|[k' v'] done IH]; simpl; [reflexivity|].
  intros H. destruct (String.eqb_spec k k'); [subst; tauto|].
  rewrite IH by tauto. reflexivity.
Qed.

Lemma keys_obj_set (k : string) (v : jsval) (o : obj) :
  keys (obj_set k v o) = if in_dec string_dec k (keys o) then keys o else keys o ++ [k].
Proof.
  induction o as [|[k' v'] o IH]; simpl; [reflexivity|].
  destruct (String.eqb_spec k k') as [->|N]; simpl.
  - destruct (string_dec k' k'); [reflexivity|congruence].
  - rewrite IH. destruct (string_dec k' k); [congruence|].
    destruct (in_dec string_dec k (keys o)); reflexivity.
Qed.

Lemma obj_set_NoDup (k : string) (v : jsval) (o : obj) :
  NoDup (keys o) -> NoDup (keys (obj_set k v o)).
Proof.
  intros H. rewrite keys_obj_set.
  destruct (in_dec string_dec k (keys o)); [exact H|].
  apply NoDup_app; [exact H| |].
  - constructor; [intros []|constructor].
  - intros x Hx [<-|[]]. contradiction.
Qed.

Lemma obj_set_prefix (k : string) (v : jsval) (o : obj) (p : list string) :
  (exists ex, keys o = p ++ ex) -> exists ex, keys (obj_set k v o) = p ++ ex.
Proof.
  intros [ex E]. rewrite keys_obj_set.
  destruct (in_dec string_dec k (keys o)); rewrite E; [eauto|].
  exists (ex ++ [k]). now rewrite app_assoc.
Qed.

Lemma lookup_obj_set_other (k k' : string) (v : jsval) (o : obj) :
  k <> k' -> lookup k (obj_set k' v o) = lookup k o.
Proof.
  intros N. induction o as [|[k2 v2] o IH]; cbn [obj_set].
  - rewrite lookup_cons_ne by assumption. reflexivity.
  - destruct (String.eqb_spec k' k2) as [E|N2].
    + subst k2. rewrite !lookup_cons_ne by assumption. reflexivity.
    + destruct (string_dec k k2) as [->|N3].
      * simpl. rewrite IH, String.eqb_refl. reflexivity.
      * rewrite !lookup_cons_ne by assumption. exact IH.
Qed.

Lemma lookup_obj_set_same (k : string) (v : jsval) (o : obj) :
  NoDup (keys o) -> lookup k (obj_set k v o) = Some v.
Proof.
  induction o as [|[k2 v2] o IH]; simpl; intros H.
  - now rewrite String.eqb_refl.
  - inversion H as [|? ? Hn Hd]; subst.
    destruct (String.eqb_spec k k2) as [->|N]; simpl.
    + rewrite lookup_notin by assumption. now rewrite String.eqb_refl.
    + rewrite IH by assumption. reflexivity.
Qed.

Lemma obj_set_fixed (k : string) (v : jsval) (o : obj) :
  NoDup (keys o) -> lookup k o = Some v -> obj_set k v o = o.
Proof.
  induction o as [|[k2 v2] o IH]; simpl; intros H L; [discriminate|].
  inversion H as [|? ? Hn Hd]; subst.
  destruct (String.eqb_spec k k2) as [->|N].
  - rewrite lookup_notin in L by assumption. congruence.
  - destruct (lookup k o) eqn:E; [|discriminate].
    rewrite IH; congruence.
Qed.

Lemma set_all_cons (k : string) (v : jsval) (props base : obj) :
  set_all ((k, v) :: props) base = set_all props (obj_set k v base).
Proof. reflexivity. Qed.

Lemma set_all_keys (props base : obj) :
  NoDup (keys base) ->
  NoDup (keys (set_all props base))
  /\ exists ex, keys (set_all props base) = keys base ++ ex.
Proof.
  revert base. induction props as [|[k v] props IH]; intros base H.
  - split; [exact H|]. exists []. now rewrite app_nil_r.
  - rewrite set_all_cons.
    destruct (IH (obj_set k v base) (obj_set_NoDup k v base H)) as [Hn [ex E]].
    split; [exact Hn|].
    destruct (obj_set_prefix k v base (keys base)) as [ex' E'].
    { exists []. now rewrite app_nil_r. }
    rewrite E, E'. exists (ex' ++ ex). now rewrite app_assoc.
Qed.

(** Spreading an object over a base whose keys it starts with, in the
    same order, gives the object. *)
Lemma set_all_fixed (rest done props : obj) (ex : list string) :
  keys props = keys rest ++ ex ->
  NoDup (keys done ++ keys props) ->
  set_all props (done ++ rest) = done ++ props.
Proof.
  revert done props. induction rest as [|[k v0] rest IH]; intros done props E N.
  - rewrite app_nil_r. clear E. revert done N.
    induction props as [|[k v] props IHp]; intros done N; simpl.
    + now rewrite app_nil_r.
    + simpl in N. apply NoDup_remove in N as N'. destruct N' as [N1 N2].
      rewrite <- (app_nil_r done) at 1.
      rewrite obj_set_app by (intros X; apply N2, in_or_app; auto).
      simpl.
      replace (done ++ (k, v) :: props) with ((done ++ [(k, v)]) ++ props)
        by (rewrite <- app_assoc; reflexivity).
      apply IHp. unfold keys. rewrite map_app. simpl.
      rewrite <- app_assoc. exact N.
  - destruct props as [|[k' v] props]; [discriminate|].
    simpl in E. injection E as -> E.
    simpl in N. apply NoDup_remove in N as N'. destruct N' as [N1 N2].
    simpl. rewrite obj_set_app by (intros X; apply N2, in_or_app; auto).
    simpl. rewrite String.eqb_refl.
    replace (done ++ (k, v) :: rest) with ((done ++ [(k, v)]) ++ rest)
      by (rewrite <- app_assoc; reflexivity).
    replace (done ++ (k, v) :: props) with ((done ++ [(k, v)]) ++ props)
      by (rewrite <- app_assoc; reflexivity).
    apply (IH _ _ E). unfold keys. rewrite map_app. simpl.
    rewrite <- app_assoc. exact N.
Qed.

Lemma spread_fixed (base r : obj) (ex : list string) :
  keys r = keys base ++ ex -> NoDup (keys r) -> spread base (JObj r) = r.
Proof.
  intros E N. apply (set_all_fixed base [] r ex E N).
Qed.

Lemma spread_keys (base : obj) (v : jsval) :
  NoDup (keys base) ->
  NoDup (keys (spread base v)) /\ exists ex, keys (spread base v) = keys base ++ ex.
Proof. apply set_all_keys. Qed.

Lemma DEFAULT_SETTINGS_NoDup : NoDup (keys DEFAULT_SETTINGS).
Proof.
  repeat (constructor; [simpl; intuition discriminate|]). constructor.
Qed.

Lemma DEFAULT_RULE_NoDup : NoDup (keys DEFAULT_RULE).
Proof.
  repeat (constructor; [simpl; intuition discriminate|]). constructor.
Qed.

Ltac other_key := rewrite lookup_obj_set_other by discriminate.

Lemma normalizeSettings_normal (raw : jsval) : normal_settings (normalizeSettings raw).
Proof.
  unfold normalizeSettings.
  destruct (spread_keys DEFAULT_SETTINGS raw DEFAULT_SETTINGS_NoDup) as [N0 K0].
  set (s0 := spread DEFAULT_SETTINGS raw) in *.
  set (src := if truthy raw && truthy (get "rule" raw) then get "rule" raw else JObj []).
  destruct (spread_keys DEFAULT_RULE src DEFAULT_RULE_NoDup) as [Nr [exr Kr]].
  set (rule := spread DEFAULT_RULE src) in *.
  set (s1 := obj_set "schema_version" (JNum STORAGE_VERSION) s0).
  set (s2 := obj_set "rule" (JObj rule) s1).
  match goal with |- context [obj_set "showAdvancedCharts" ?b s2] =>
    set (s3 := obj_set "showAdvancedCharts" b s2) end.
  match goal with |- context [obj_set "hapticFeedback" ?b s3] =>
    set (s4 := obj_set "hapticFeedback" b s3) end.
  match goal with |- context [obj_set "firstDayOfWeek" ?d s4] => set (day := d) end.
  assert (N1 : NoDup (keys s1)) by now apply obj_set_NoDup.
  assert (N2 : NoDup (keys s2)) by now apply obj_set_NoDup.
  assert (N3 : NoDup (keys s3)) by now apply obj_set_NoDup.
  assert (N4 : NoDup (keys s4)) by now apply obj_set_NoDup.
  constructor.
  - now apply obj_set_NoDup.
  - repeat apply obj_set_prefix. exact K0.
  - unfold s4, s3, s2, s1. repeat other_key. now apply lookup_obj_set_same.
  - exists rule, exr. split; [|split; assumption].
    unfold s4, s3, s2. repeat other_key. now apply lookup_obj_set_same.
  - eexists. unfold s4, s3. repeat other_key. now apply lookup_obj_set_same.
  - eexists. unfold s4. repeat other_key. now apply lookup_obj_set_same.
  - rewrite lookup_obj_set_same by assumption.
    unfold day.
    destruct (Number_isInteger (get "firstDayOfWeek" (JObj s4))
              && strict_eq_num (get "firstDayOfWeek" (JObj s4)) (Num.of_Z 0));
      [left | right]; reflexivity.
Qed.

Lemma normalizeSettings_fixed (r : obj) :
  normal_settings r -> normalizeSettings (JObj r) = r.
Proof.
  intros [N [ex K] V (rule & exr & R & Nr & Kr) [b1 C] [b2 H] D].
  unfold normalizeSettings. cbv zeta.
  rewrite (spread_fixed DEFAULT_SETTINGS r ex K N).
  rewrite (obj_set_fixed _ _ r N V).
  assert (G : get "rule" (JObj r) = JObj rule) by (simpl; now rewrite R).
  rewrite G. change (truthy (JObj r) && truthy (JObj rule)) with true. cbv iota.
  rewrite (spread_fixed DEFAULT_RULE rule exr Kr Nr).
  rewrite (obj_set_fixed _ _ r N R).
  assert (G1 : get "showAdvancedCharts" (JObj r) = JBool b1) by (simpl; now rewrite C).
  rewrite G1. change (truthy (JBool b1)) with b1. rewrite (obj_set_fixed _ _ r N C).
  assert (G2 : get "hapticFeedback" (JObj r) = JBool b2) by (simpl; now rewrite H).
  rewrite G2. change (truthy (JBool b2)) with b2. rewrite (obj_set_fixed _ _ r N H).
  destruct D as [D|D];
    (assert (G3 : get "firstDayOfWeek" (JObj r) = _) by (simpl; rewrite D; reflexivity));
    rewrite G3;
    match goal with |- obj_set _ ?v _ = _ =>
      let w := eval vm_compute in v in change v with w
    end;
    apply (obj_set_fixed _ _ r N); rewrite D; reflexivity.
Qed.

(** The settings object of a state that went through [normalizeSettings]
    (every assignment to [state.settings] does) is normal; so is the
    initial [DEFAULT_SETTINGS]. *)
Lemma DEFAULT_SETTINGS_normal : normal_settings DEFAULT_SETTINGS.
Proof.
  replace DEFAULT_SETTINGS with (normalizeSettings JUndefined) by reflexivity.
  apply normalizeSettings_normal.
Qed.

(** ** Sorting *)

Section SortFacts.
Context {A : Type} (cmp : A -> A -> Z).

Lemma insert_perm (x : A) (l : list A) : Permutation (x :: l) (insert cmp x l).
Proof.
  induction l as [|y l IH]; simpl; [reflexivity|].
  destruct (cmp y x <=? 0); [|reflexivity].
  rewrite perm_swap. now constructor.
Qed.

Lemma sort_from_perm (l acc : list A) : Permutation (acc ++ l) (sort_from cmp acc l).
Proof.
  revert acc. induction l as [|x l IH]; intros acc; simpl.
  - now rewrite app_nil_r.
  - rewrite <- IH, <- insert_perm. simpl. symmetry. apply Permutation_middle.
Qed.

Lemma sort_perm (l : list A) : Permutation l (sort cmp l).
Proof. exact (sort_from_perm l []). Qed.

Lemma sort_In (x : A) (l : list A) : In x (sort cmp l) <-> In x l.
Proof.
  split; apply Permutation_in; [symmetry|]; apply sort_perm.
Qed.

Lemma sort_length (l : list A) : List.length (sort cmp l) = List.length l.
Proof. symmetry. apply Permutation_length, sort_perm. Qed.

(** The comparator puts any two elements one way or the other. *)
Hypothesis cmp_total : forall x y, 0 < cmp x y -> cmp y x <= 0.

Lemma insert_HdRel (a x : A) (l : list A) :
  before cmp a x -> HdRel (before cmp) a l -> HdRel (before cmp) a (insert cmp x l).
Proof.
  intros Hax H. destruct l as [|y l]; simpl; [now constructor|].
  inversion H; subst. destruct (cmp y x <=? 0); now constructor.
Qed.

Lemma insert_sorted (x : A) (l : list A) :
  Sorted (before cmp) l -> Sorted (before cmp) (insert cmp x l).
Proof.
  induction 1 as [|y l Hs IH Hd]; simpl.
  - repeat constructor.
  - destruct (cmp y x <=? 0) eqn:E.
    + constructor; [exact IH|]. apply insert_HdRel; [|exact Hd].
      now apply Z.leb_le.
    + constructor; [now constructor|]. constructor.
      apply cmp_total. apply Z.leb_gt in E. lia.
Qed.

Lemma sort_from_sorted (l acc : list A) :
  Sorted (before cmp) acc -> Sorted (before cmp) (sort_from cmp acc l).
Proof.
  revert acc. induction l as [|x l IH]; intros acc H; simpl; [exact H|].
  apply IH, insert_sorted, H.
Qed.

Theorem sort_sorted (l : list A) : Sorted (before cmp) (sort cmp l).
Proof. apply sort_from_sorted. constructor. Qed.

(** Sorting a list that is in order leaves it as it is. *)
Hypothesis cmp_trans : forall x y z, before cmp x y -> before cmp y z -> before cmp x z.

Lemma insert_last (x : A) (l : list A) :
  Forall (fun y => before cmp y x) l -> insert cmp x l = l ++ [x].
Proof.
  induction 1 as [|y l Hy _ IH]; simpl; [reflexivity|].
  apply Z.leb_le in Hy. now rewrite Hy, IH.
Qed.

Lemma sort_from_sorted_id (l acc : list A) :
  StronglySorted (before cmp) (acc ++ l) -> sort_from cmp acc l = acc ++ l.
Proof.
  revert acc. induction l as [|x l IH]; intros acc H; simpl.
  - now rewrite app_nil_r.
  - rewrite insert_last.
    + rewrite IH; rewrite <- app_assoc; [reflexivity|exact H].
    + clear IH. induction acc as [|a acc IHa]; [constructor|].
      simpl in H. inversion H as [|? ? Hs Hf]; subst.
      constructor; [|now apply IHa].
      rewrite Forall_forall in Hf. apply Hf, in_or_app. right. now left.
Qed.

Theorem sort_sorted_id (l : list A) : Sorted (before cmp) l -> sort cmp l = l.
Proof.
  intros H. apply (sort_from_sorted_id l []). simpl.
  apply Sorted_StronglySorted; [|exact H].
  intros x y z. apply cmp_trans.
Qed.
End SortFacts.

(** *** The order of [compareTransactionsDesc] *)

Lemma Sorted_impl {A : Type} (R S : A -> A -> Prop) (l : list A) :
  (forall x y, R x y -> S x y) -> Sorted R l -> Sorted S l.
Proof.
  intros H. induction 1 as [|x l Hs IH Hd]; constructor; [exact IH|].
  destruct Hd; constructor; auto.
Qed.

(** Where the relation is transitive on the elements of the list,
    adjacent elements in order put every pair in order. *)
Lemma Sorted_StronglySorted_in {A : Type} (R : A -> A -> Prop) (l : list A) :
  (forall x y z, In x l -> In y l -> In z l -> R x y -> R y z -> R x z) ->
  Sorted R l -> StronglySorted R l.
Proof.
  intros T H. induction H as [|x l Hs IH Hd]; [constructor|].
  assert (G : StronglySorted R l).
  { apply IH. intros a b c Ha Hb Hc. apply T; now right. }
  constructor; [exact G|].
  destruct Hd as [|y l Hxy]; [constructor|].
  constructor; [exact Hxy|].
  inversion G as [|? ? _ F]; subst. rewrite Forall_forall in F |- *.
  intros z Hz. apply (T x y z); [now left|right; now left|now right; right|exact Hxy|].
  now apply F.
Qed.

Lemma StronglySorted_filter {A : Type} (R : A -> A -> Prop) (f : A -> bool) (l : list A) :
  StronglySorted R l -> StronglySorted R (filter f l).
Proof.
  induction 1 as [|x l Hs IH Hf]; simpl; [constructor|].
  destruct (f x); [|exact IH]. constructor; [exact IH|].
  now apply Forall_filter_keep.
Qed.

(** Two arrangements of the same elements, each with every element
    strictly before the ones after it, are the same list. *)
Lemma StronglySorted_unique {A : Type} (R : A -> A -> Prop) (l1 l2 : list A) :
  (forall x y, R x y -> R y x -> False) ->
  StronglySorted R l1 -> StronglySorted R l2 -> Permutation l1 l2 -> l1 = l2.
Proof.
  intros Asym H1. revert l2.
  induction H1 as [|x l1 Hs1 IH Hf1]; intros l2 H2 P.
  - now apply Permutation_nil in P.
  - destruct H2 as [|y l2 Hs2 Hf2]; [symmetry in P; now apply Permutation_nil in P|].
    assert (E : x = y).
    { assert (Hx : In x (y :: l2)) by (apply (Permutation_in _ P); now left).
      assert (Hy : In y (x :: l1))
        by (apply (Permutation_in _ (Permutation_sym P)); now left).
      destruct Hx as [Hx|Hx]; [now symmetry|].
      destruct Hy as [Hy|Hy]; [exact Hy|].
      rewrite Forall_forall in Hf1, Hf2.
      exfalso. exact (Asym x y (Hf1 y Hy) (Hf2 x Hx)). }
    subst y. f_equal. apply IH; [exact Hs2|].
    now apply Permutation_cons_inv in P.
Qed.

Section Order.
Context {collation : Collation}.

Lemma compare_before_iff (a b : Transaction) :
  before compareTransactionsDesc a b <-> desc_order a b.
Proof.
  unfold before, compareTransactionsDesc, desc_order.
  destruct (String.eqb_spec (tx_date_iso a) (tx_date_iso b)) as [E|N]; simpl; tauto.
Qed.

Lemma compare_strict_iff (a b : Transaction) :
  compareTransactionsDesc a b < 0 <-> desc_order_strict a b.
Proof.
  unfold compareTransactionsDesc, desc_order_strict.
  destruct (String.eqb_spec (tx_date_iso a) (tx_date_iso b)) as [E|N]; simpl; tauto.
Qed.

(** In a consistent collation, of two strings compared both ways one
    comes no later than the other, and two strings that come no later
    than each other are found equal. *)
Lemma reverse_positive (s t : string) :
  consistent collation -> 0 < localeCompare s t -> localeCompare t s <= 0.
Proof.
  intros C H. pose proof (compare_reverse _ C s t) as R.
  destruct (localeCompare s t); [lia| |lia].
  destruct (localeCompare t s); simpl in R; try discriminate R; lia.
Qed.

Lemma reverse_negative (s t : string) :
  consistent collation -> localeCompare s t < 0 -> 0 < localeCompare t s.
Proof.
  intros C H. pose proof (compare_reverse _ C s t) as R.
  destruct (localeCompare s t); [lia|lia|].
  destruct (localeCompare t s); simpl in R; try discriminate R; lia.
Qed.

Lemma both_ways_equal (s t : string) :
  consistent collation ->
  localeCompare s t <= 0 -> localeCompare t s <= 0 -> localeCompare s t = 0.
Proof.
  intros C H1 H2. pose proof (compare_reverse _ C s t) as R.
  destruct (localeCompare s t); [reflexivity|lia|].
  destruct (localeCompare t s); simpl in R; try discriminate R; lia.
Qed.

Lemma compare_total (a b : Transaction) :
  consistent collation ->
  0 < compareTransactionsDesc a b -> compareTransactionsDesc b a <= 0.
Proof.
  intros C. unfold compareTransactionsDesc.
  rewrite (String.eqb_sym (tx_date_iso b)).
  destruct (negb _); apply reverse_positive, C.
Qed.

(** The order of the records is transitive where the collation tells
    their timestamps apart. *)
Lemma desc_order_trans (l : list Transaction) (a b c : Transaction) :
  consistent collation -> told_apart (map tx_date_iso l) ->
  In a l -> In b l -> In c l ->
  desc_order a b -> desc_order b c -> desc_order a c.
Proof.
  intros C T Ha Hb Hc.
  assert (K : forall x y, In x l -> In y l ->
                localeCompare (tx_date_iso x) (tx_date_iso y) <= 0 ->
                localeCompare (tx_date_iso y) (tx_date_iso x) <= 0 ->
                tx_date_iso x = tx_date_iso y).
  { intros x y Hx Hy H1 H2. apply T; [now apply in_map|now apply in_map|].
    now apply both_ways_equal. }
  unfold desc_order. intros [[N1 H1]|[E1 H1]] [[N2 H2]|[E2 H2]].
  - pose proof (compare_through _ C _ _ _ H2 H1) as H3.
    destruct (String.eqb_spec (tx_date_iso a) (tx_date_iso c)) as [E|N];
      [|left; split; [exact N|exact H3]].
    exfalso. apply N1. apply (K a b Ha Hb); [|exact H1].
    rewrite E. exact H2.
  - left. rewrite <- E2. split; [exact N1|exact H1].
  - left. rewrite E1. split; [exact N2|exact H2].
  - right. split; [congruence|]. exact (compare_through _ C _ _ _ H2 H1).
Qed.

(** After [sort(compareTransactionsDesc)] every adjacent pair is in
    order. *)
Lemma sort_desc (l : list Transaction) :
  consistent collation -> Sorted desc_order (sort compareTransactionsDesc l).
Proof.
  intros C. apply (Sorted_impl (before compareTransactionsDesc)).
  - intros x y. apply compare_before_iff.
  - apply sort_sorted. intros x y. now apply compare_total.
Qed.

(** So is every pair, where the collation tells the timestamps apart. *)
Lemma sort_feed_order (l : list Transaction) :
  consistent collation -> told_apart (map tx_date_iso l) ->
  feed_order (sort compareTransactionsDesc l).
Proof.
  intros C T. apply Sorted_StronglySorted_in; [|now apply sort_desc].
  intros x y z Hx Hy Hz. apply sort_In in Hx, Hy, Hz.
  now apply (desc_order_trans l).
Qed.

(** Sorting a collection that is in feed order leaves it as it is. *)
Lemma sort_feed_order_id (l : list Transaction) :
  feed_order l -> sort compareTransactionsDesc l = l.
Proof.
  intros H. apply (sort_from_sorted_id compareTransactionsDesc l []). simpl.
  revert H. unfold feed_order. induction 1 as [|x l Hs IH Hf]; constructor; [exact IH|].
  revert Hf. apply Forall_impl. intros y. apply compare_before_iff.
Qed.

(** Removing records keeps the rest in feed order. *)
Lemma filter_feed_order (f : Transaction -> bool) (l : list Transaction) :
  feed_order l -> feed_order (filter f l).
Proof. apply StronglySorted_filter. Qed.

(** Telling strings apart is a matter of which strings there are. *)
Lemma told_apart_incl (l l' : list string) :
  (forall s, In s l' -> In s l) -> told_apart l -> told_apart l'.
Proof. intros I T s t Hs Ht. apply T; now apply I. Qed.

Lemma told_apart_sort (f : Transaction -> string) (l : list Transaction) :
  told_apart (map f (sort compareTransactionsDesc l)) <-> told_apart (map f l).
Proof.
  split; apply told_apart_incl; intros s; rewrite !in_map_iff;
    intros (x & E & Hx); exists x; (split; [exact E|]);
    now apply (sort_In compareTransactionsDesc).
Qed.

(** Of two records neither comes before the other and after it. *)
Lemma desc_order_strict_asym (a b : Transaction) :
  consistent collation -> desc_order_strict a b -> desc_order_strict b a -> False.
Proof.
  intros C [[N1 H1]|[E1 H1]] [[N2 H2]|[E2 H2]]; try congruence.
  - pose proof (reverse_negative (tx_date_iso a) (tx_date_iso b) C). lia.
  - pose proof (reverse_negative (tx_id a) (tx_id b) C). lia.
Qed.

(** In feed order, records that differ in timestamp or identifier are
    strictly in order, where the collation tells timestamps and
    identifiers apart. *)
Lemma feed_order_strict (l : list Transaction) :
  told_apart (map tx_date_iso l) -> told_apart (map tx_id l) ->
  feed_order l -> NoDup (map cursor_key l) -> StronglySorted desc_order_strict l.
Proof.
  intros Td Ti H. induction H as [|x l Hs IH Hf]; intros N; [constructor|].
  inversion N as [|? ? Hn Hn']; subst.
  constructor.
  - apply IH; [| |exact Hn'].
    + intros s t Hs' Ht'. apply Td; now right.
    + intros s t Hs' Ht'. apply Ti; now right.
  - rewrite Forall_forall in Hf |- *. intros y Hy.
    destruct (Hf y Hy) as [[Nd L]|[E L]].
    + left. split; [exact Nd|].
      destruct (Z.eq_dec (localeCompare (tx_date_iso y) (tx_date_iso x)) 0) as [Z|Z];
        [|lia].
      exfalso. apply Nd. symmetry.
      apply Td; [right; now apply in_map|now left|exact Z].
    + right. split; [exact E|].
      destruct (Z.eq_dec (localeCompare (tx_id y) (tx_id x)) 0) as [Z|Z]; [|lia].
      exfalso. apply Hn. apply in_map_iff. exists y. split; [|exact Hy].
      unfold cursor_key. rewrite E. f_equal.
      apply Ti; [right; now apply in_map|now left|exact Z].
Qed.

(** Such a collection is the one [sort] makes of any arrangement of its
    records. *)
Lemma sort_arrangement (l l' : list Transaction) :
  consistent collation ->
  told_apart (map tx_date_iso l) -> told_apart (map tx_id l) ->
  feed_order l -> NoDup (map cursor_key l) ->
  Permutation l' l -> sort compareTransactionsDesc l' = l.
Proof.
  intros C Td Ti F N P.
  assert (I : forall (f : Transaction -> string) s, In s (map f l') -> In s (map f l)).
  { intros f s. apply Permutation_in, Permutation_map, P. }
  apply (StronglySorted_unique desc_order_strict).
  - intros x y. now apply desc_order_strict_asym.
  - apply feed_order_strict.
    + apply told_apart_sort. revert Td. apply told_apart_incl, I.
    + apply told_apart_sort. revert Ti. apply told_apart_incl, I.
    + apply sort_feed_order; [exact C|]. revert Td. apply told_apart_incl, I.
    + apply (Permutation_NoDup (l := map cursor_key l)); [|exact N].
      apply Permutation_map. rewrite <- (sort_perm compareTransactionsDesc l').
      now symmetry.
  - now apply feed_order_strict.
  - rewrite <- (sort_perm compareTransactionsDesc l'). exact P.
Qed.
End Order.

(** *** The order of the code units *)

Lemma ascii_compare_trans (a b c : ascii) :
  Ascii.compare a b = Lt -> Ascii.compare b c = Lt -> Ascii.compare a c = Lt.
Proof.
  unfold Ascii.compare. rewrite !N.compare_lt_iff. lia.
Qed.

Lemma string_compare_trans (s t u : string) :
  String.compare s t = Lt -> String.compare t u = Lt -> String.compare s u = Lt.
Proof.
  revert t u. induction s as [|a s IH]; intros [|b t] [|c u]; simpl; try congruence.
  destruct (Ascii.compare a b) eqn:Eab; try discriminate;
    destruct (Ascii.compare b c) eqn:Ebc; try discriminate; intros H1 H2.
  - apply Ascii.compare_eq_iff in Eab, Ebc. subst.
    unfold Ascii.compare. rewrite N.compare_refl. eauto.
  - apply Ascii.compare_eq_iff in Eab. subst. now rewrite Ebc.
  - apply Ascii.compare_eq_iff in Ebc. subst. now rewrite Eab.
  - now rewrite (ascii_compare_trans a b c).
Qed.

Lemma code_unit_order_le (s t : string) :
  code_unit_order s t <= 0 <-> String.compare s t <> Gt.
Proof.
  unfold code_unit_order. destruct (String.compare s t); split; try lia; congruence.
Qed.

(** The collation of the examples is a consistent comparison, and it
    tells any two strings apart. *)
Lemma code_units_consistent : consistent code_units.
Proof.
  split; cbn [localeCompare code_units].
  - intros s t. unfold code_unit_order. rewrite (String.compare_antisym s t).
    destruct (String.compare t s); reflexivity.
  - intros s t u. rewrite !code_unit_order_le. intros H1 H2 H3.
    destruct (String.compare s t) eqn:C1; [| |congruence].
    + apply String.compare_eq_iff in C1. subst. contradiction.
    + destruct (String.compare t u) eqn:C2; [| |congruence].
      * apply String.compare_eq_iff in C2. subst. congruence.
      * rewrite (string_compare_trans _ _ _ C1 C2) in H3. discriminate.
Qed.

Lemma code_units_apart (l : list string) : told_apart l.
Proof.
  intros s t _ _. cbn [localeCompare code_units]. unfold code_unit_order.
  destruct (String.compare s t) eqn:C; try discriminate.
  intros _. now apply String.compare_eq_iff.
Qed.

(** Sample collections in order in the collation of the examples: each
    comparison is computed. *)
Ltac sample_order :=
  repeat first
    [ apply SSorted_nil | apply Sorted_nil | apply Forall_nil | apply HdRel_nil
    | apply SSorted_cons | apply Sorted_cons | apply Forall_cons | apply HdRel_cons
    | (left; split; [discriminate|vm_compute; discriminate])
    | (right; split; [reflexivity|vm_compute; discriminate]) ].

(** ** Activity feed *)

Lemma split_bar_no_bar (s : string) : no_bar s = true -> split_bar s = [s].
Proof.
  induction s as [|c s IH]; simpl; [reflexivity|].
  intros H. apply andb_true_iff in H as [Hc Hs].
  apply negb_true_iff in Hc. rewrite Hc, (IH Hs). reflexivity.
Qed.

Lemma split_bar_cursor (d i : string) :
  no_bar d = true -> no_bar i = true ->
  split_bar (d ++ "|" ++ i)%string = [d; i].
Proof.
  intros Hd Hi. induction d as [|c d IH]; simpl.
  - now rewrite (split_bar_no_bar i Hi).
  - simpl in Hd. apply andb_true_iff in Hd as [Hc Hd].
    apply negb_true_iff in Hc. rewrite Hc.
    change (d ++ String "|" i)%string with (d ++ "|" ++ i)%string.
    now rewrite (IH Hd).
Qed.

Lemma cursor_of_nonempty (tx : Transaction) : (cursor_of tx =? "")%string = false.
Proof.
  unfold cursor_of. destruct (tx_date_iso tx); reflexivity.
Qed.

Lemma at_cursor_key (tx u : Transaction) :
  at_cursor tx u = true <-> cursor_key u = cursor_key tx.
Proof.
  unfold at_cursor, cursor_key.
  rewrite andb_true_iff, !String.eqb_eq. split; [intros [-> ->]|intros [= -> ->]]; auto.
Qed.

Lemma findIndex_middle (tx : Transaction) (l1 l2 : list Transaction) :
  NoDup (map cursor_key (l1 ++ tx :: l2)) ->
  findIndex (at_cursor tx) (l1 ++ tx :: l2) = Some (List.length l1).
Proof.
  induction l1 as [|u l1 IH]; simpl; intros N.
  - assert (E : at_cursor tx tx = true) by now apply at_cursor_key.
    now rewrite E.
  - inversion N as [|? ? Hn Hd]; subst.
    destruct (at_cursor tx u) eqn:E.
    + exfalso. apply Hn. apply at_cursor_key in E. rewrite E.
      rewrite map_app. apply in_or_app. right. now left.
    + now rewrite (IH Hd).
Qed.

Lemma getRecentTransactions_page {collation : Collation}
    (limit : nat) (cursor : option string) (st : State) :
  getRecentTransactions limit cursor st
  = page_of limit
      (skipn (start_index cursor (sort compareTransactionsDesc (transactions st)))
         (sort compareTransactionsDesc (transactions st))).
Proof. reflexivity. Qed.

Lemma getRecentTransactions_start {collation : Collation} (limit : nat) (st : State) :
  getRecentTransactions limit None st
  = page_of limit (sort compareTransactionsDesc (transactions st)).
Proof. reflexivity. Qed.

Lemma skipn_middle {A : Type} (l1 l2 : list A) (x : A) :
  skipn (S (List.length l1)) (l1 ++ x :: l2) = l2.
Proof. induction l1 as [|y l1 IH]; simpl; [reflexivity|exact IH]. Qed.

Lemma start_index_cursor (tx : Transaction) (l1 l2 : list Transaction) :
  no_bar (tx_date_iso tx) = true -> no_bar (tx_id tx) = true ->
  NoDup (map cursor_key (l1 ++ tx :: l2)) ->
  start_index (Some (cursor_of tx)) (l1 ++ tx :: l2) = S (List.length l1).
Proof.
  intros Bd Bi N. unfold start_index.
  rewrite cursor_of_nonempty. cbn [negb].
  replace (split_bar (cursor_of tx)) with [tx_date_iso tx; tx_id tx]
    by (symmetry; now apply split_bar_cursor).
  cbn [nth_error].
  change (findIndex _ (l1 ++ tx :: l2)) with (findIndex (at_cursor tx) (l1 ++ tx :: l2)).
  now rewrite findIndex_middle.
Qed.

Lemma getRecentTransactions_resume {collation : Collation} (limit : nat) (st : State)
    (tx : Transaction) (l1 l2 : list Transaction) :
  cursor_safe (transactions st) ->
  sort compareTransactionsDesc (transactions st) = l1 ++ tx :: l2 ->
  getRecentTransactions limit (Some (cursor_of tx)) st = page_of limit l2.
Proof.
  intros [N B] E.
  assert (P : Permutation (transactions st) (l1 ++ tx :: l2))
    by (rewrite <- E; apply sort_perm).
  assert (N' : NoDup (map cursor_key (l1 ++ tx :: l2))).
  { eapply Permutation_NoDup; [|exact N]. now apply Permutation_map. }
  assert (Btx : no_bar (tx_date_iso tx) = true /\ no_bar (tx_id tx) = true).
  { rewrite Forall_forall in B. apply B.
    eapply Permutation_in; [symmetry; exact P|]. apply in_or_app. right. now left. }
  rewrite getRecentTransactions_page, E.
  rewrite (start_index_cursor tx l1 l2 (proj1 Btx) (proj2 Btx) N'), skipn_middle.
  reflexivity.
Qed.

Lemma last_map_Some {A : Type} (l : list A) (x : A) :
  last (map Some (l ++ [x])) None = Some x.
Proof.
  induction l as [|y l IH]; simpl; [reflexivity|].
  rewrite IH. destruct (map Some (l ++ [x])) eqn:E; [|reflexivity].
  destruct l; discriminate.
Qed.

(** A page of fewer records than the limit is the last one. *)
Lemma page_of_short (limit : nat) (rest : list Transaction) :
  (List.length rest < limit)%nat -> page_of limit rest = mkPage rest None false.
Proof.
  intros H. unfold page_of.
  rewrite firstn_all2 by lia.
  destruct (last (map Some rest) None); [|reflexivity].
  destruct (Nat.eqb_spec (List.length rest) limit); [lia|reflexivity].
Qed.

(** A full page: its last record gives the cursor. *)
Lemma page_of_full (limit : nat) (rest : list Transaction) :
  (0 < limit <= List.length rest)%nat ->
  exists front tx,
    firstn limit rest = front ++ [tx]
    /\ rest = (front ++ [tx]) ++ skipn limit rest
    /\ page_of limit rest = mkPage (front ++ [tx]) (Some (cursor_of tx)) true.
Proof.
  intros H.
  assert (L : List.length (firstn limit rest) = limit) by (rewrite length_firstn; lia).
  destruct (exists_last (l := firstn limit rest)) as (front & tx & E).
  { intros X. rewrite X in L. simpl in L. lia. }
  exists front, tx. split; [exact E|]. split.
  - rewrite <- E. symmetry. apply firstn_skipn.
  - unfold page_of. rewrite E, last_map_Some. rewrite <- E, L, Nat.eqb_refl.
    now rewrite cursor_of_nonempty.
Qed.

Lemma pages_S {collation : Collation} (fuel limit : nat) (cursor : option string) (st : State) :
  pages (S fuel) limit cursor st
  = let p := getRecentTransactions limit cursor st in
    if hasMore p then
      match pages fuel limit (nextCursor p) st with
      | Some more => Some (items p ++ more)
      | None => None
      end
    else Some (items p).
Proof. reflexivity. Qed.

(** The loop from any position returns the records that remain. *)
Lemma pages_rest {collation : Collation} (st : State) (limit : nat) :
  cursor_safe (transactions st) -> (0 < limit)%nat ->
  forall fuel cursor rest,
    rest_after (sort compareTransactionsDesc (transactions st)) cursor rest ->
    (List.length rest < fuel * limit)%nat ->
    pages fuel limit cursor st = Some rest.
Proof.
  intros S Hl. induction fuel as [|fuel IH]; intros cursor rest R F; [simpl in F; lia|].
  assert (P : getRecentTransactions limit cursor st = page_of limit rest).
  { destruct R as [[-> ->]|(l1 & tx & -> & E)].
    - apply getRecentTransactions_start.
    - now apply (getRecentTransactions_resume limit st tx l1 rest). }
  rewrite pages_S, P. cbv zeta.
  destruct (Nat.lt_ge_cases (List.length rest) limit) as [Sh|Fu].
  - now rewrite page_of_short.
  - destruct (page_of_full limit rest) as (front & tx & E1 & E2 & ->); [lia|].
    cbn [hasMore nextCursor items].
    rewrite (IH (Some (cursor_of tx)) (skipn limit rest)).
    + now rewrite <- E2.
    + right.
      destruct R as [[_ ->]|(l1 & tx0 & _ & E)].
      * exists front, tx. split; [reflexivity|].
        rewrite E2 at 1. now rewrite <- app_assoc.
      * exists (l1 ++ tx0 :: front), tx. split; [reflexivity|].
        rewrite E. rewrite E2 at 1. rewrite <- !app_assoc. reflexivity.
    + rewrite length_skipn. simpl in F. lia.
Qed.

Lemma getRecentTransactions_rest {collation : Collation} (st : State) (limit : nat)
    (cursor : option string) (rest : list Transaction) :
  cursor_safe (transactions st) ->
  rest_after (sort compareTransactionsDesc (transactions st)) cursor rest ->
  getRecentTransactions limit cursor st = page_of limit rest.
Proof.
  intros S [[-> ->]|(l1 & tx & -> & E)].
  - apply getRecentTransactions_start.
  - now apply (getRecentTransactions_resume limit st tx l1 rest).
Qed.

(** A call that finds at least [limit] records returns a full page and
    a cursor for the records after it. *)
Lemma page_step {collation : Collation} (st : State) (limit : nat) (cursor : option string)
    (rest : list Transaction) :
  cursor_safe (transactions st) -> (0 < limit <= List.length rest)%nat ->
  rest_after (sort compareTransactionsDesc (transactions st)) cursor rest ->
  exists tx,
    getRecentTransactions limit cursor st
    = mkPage (firstn limit rest) (Some (cursor_of tx)) true
    /\ rest_after (sort compareTransactionsDesc (transactions st))
         (Some (cursor_of tx)) (skipn limit rest).
Proof.
  intros S H R.
  rewrite (getRecentTransactions_rest st limit cursor rest S R).
  destruct (page_of_full limit rest H) as (front & tx & E1 & E2 & ->).
  exists tx. rewrite E1. split; [reflexivity|]. right.
  destruct R as [[_ ->]|(l1 & tx0 & _ & E)].
  - exists front, tx. split; [reflexivity|].
    rewrite E2 at 1. now rewrite <- app_assoc.
  - exists (l1 ++ tx0 :: front), tx. split; [reflexivity|].
    rewrite E. rewrite E2 at 1. rewrite <- !app_assoc. reflexivity.
Qed.

Lemma skipn_add {A : Type} (a b : nat) (l : list A) :
  skipn a (skipn b l) = skipn (b + a) l.
Proof.
  revert l. induction b as [|b IH]; intros l; simpl; [reflexivity|].
  destruct l; [now rewrite skipn_nil|apply IH].
Qed.

(** When the records that remain fill [j + 1] pages exactly, the page of
    call [j] is full and announces more; the call after it finds
    nothing. *)
Lemma page_seq_exact {collation : Collation} (st : State) (limit : nat) :
  cursor_safe (transactions st) -> (0 < limit)%nat ->
  forall j cursor rest,
    rest_after (sort compareTransactionsDesc (transactions st)) cursor rest ->
    List.length rest = (S j * limit)%nat ->
    exists tx,
      page_seq j limit cursor st
      = mkPage (skipn (j * limit) rest) (Some (cursor_of tx)) true
      /\ List.length (skipn (j * limit) rest) = limit
      /\ getRecentTransactions limit (Some (cursor_of tx)) st = mkPage [] None false.
Proof.
  intros Safe Hl. induction j as [|j IH]; intros cursor rest R L.
  - destruct (page_step st limit cursor rest Safe) as (tx & P & R'); [simpl in L; lia|exact R|].
    exists tx. cbn [page_seq Nat.mul skipn]. rewrite P.
    rewrite firstn_all2 by (simpl in L; lia).
    split; [reflexivity|]. split; [simpl in L; lia|].
    rewrite skipn_all2 in R' by (simpl in L; lia).
    rewrite (getRecentTransactions_rest st limit _ _ Safe R').
    now apply page_of_short.
  - destruct (page_step st limit cursor rest Safe) as (tx & P & R'); [simpl in L; lia|exact R|].
    cbn [page_seq]. rewrite P. cbn [nextCursor].
    destruct (IH _ _ R') as (tx' & P' & L' & E').
    { rewrite length_skipn. simpl in L |- *. lia. }
    exists tx'. rewrite P', skipn_add in *.
    replace (S j * limit)%nat with (limit + j * limit)%nat by reflexivity.
    auto.
Qed.

(** ** Deduplication *)

Section Dedupe.
Context {A : Type} (id : A -> string).

Lemma existsb_eqb (x : string) (seen : list string) :
  existsb (String.eqb x) seen = true <-> In x seen.
Proof.
  rewrite existsb_exists. split.
  - intros (y & Hy & E). apply String.eqb_eq in E. now subst.
  - intros H. exists x. split; [exact H|apply String.eqb_refl].
Qed.





End Dedupe.

(** ** Import and export *)

Lemma state_notify (d : Detail) (s : Store) : state (notify d s) = state s.
Proof. reflexivity. Qed.

Lemma state_persist (s : Store) : state (persist s) = state s.
Proof. reflexivity. Qed.

Lemma importData_Return {collation : Collation}
    (e : Env) (payload : jsval) (strategy : string) (s s' : Store) :
  importData e payload strategy s = Return tt s' ->
  exists cs ts rs,
    typed_collections e (payload_snapshot payload) = Some (cs, ts, rs)
    /\ state s'
       = imported_state strategy (normalizeSettings (get "settings" payload))
           cs ts rs (state s)
    /\ s' = notify (D_data_import strategy) (persist (set_state (state s') s)).
Proof.
  unfold importData.
  destruct (negb (truthy payload) || _); [discriminate|].
  destruct (typed_collections e (payload_snapshot payload)) as [[[cs ts] rs]|];
    [|discriminate].
  intros [= <-]. exists cs, ts, rs. split; [reflexivity|].
  rewrite state_notify, state_persist. unfold imported_state.
  destruct (strategy =? "merge")%string; split; reflexivity.
Qed.

Lemma importData_accepts {collation : Collation}
    (e : Env) (payload : jsval) (strategy : string) (s : Store)
    (cs : list Category) (ts : list Transaction) (rs : list Recurring) :
  truthy payload = true ->
  strict_eq_num (get "schema_version" payload) STORAGE_VERSION = true ->
  typed_collections e (payload_snapshot payload) = Some (cs, ts, rs) ->
  importData e payload strategy s
  = Return tt
      (notify (D_data_import strategy)
         (persist
            (set_state
               (imported_state strategy (normalizeSettings (get "settings" payload))
                  cs ts rs (state s)) s))).
Proof.
  intros T V C. unfold importData. rewrite T, V, C. simpl.
  unfold imported_state. destruct (strategy =? "merge")%string; reflexivity.
Qed.

(** *** Typed records through the normalizers *)

Lemma traverse_map {A B : Type} (f : A -> option B) (g : B -> A) (l : list B) :
  (forall y, f (g y) = Some y) -> traverse f (map g l) = Some l.
Proof.
  intros H. induction l as [|y l IH]; simpl; [reflexivity|].
  now rewrite H, IH.
Qed.

Lemma typed_untyped_ref (c : option string) : typed_ref (untyped_ref c) = Some c.
Proof. destruct c; reflexivity. Qed.

Lemma typed_untyped_category (c : Category) :
  typed_category (untyped_category c) = Some c.
Proof. destruct c; reflexivity. Qed.

Lemma typed_untyped_transaction (t : Transaction) :
  typed_transaction (untyped_transaction t) = Some t.
Proof.
  destruct t as [i ty a d c b dt]. unfold typed_transaction, untyped_transaction.
  simpl. now rewrite typed_untyped_ref.
Qed.

Lemma typed_untyped_recurring (r : Recurring) :
  typed_recurring (untyped_recurring r) = Some r.
Proof.
  destruct r as [i d a c]. unfold typed_recurring, untyped_recurring.
  simpl. now rewrite typed_untyped_ref.
Qed.

Lemma nonempty_truthy (s : string) : s <> "" -> truthy (JStr s) = true.
Proof. intros H. simpl. now apply negb_true_iff, String.eqb_neq. Qed.

Lemma untyped_ref_normal (c : option string) : c <> Some "" -> normal_ref (untyped_ref c).
Proof.
  intros H v. destruct c as [s|]; simpl; [|discriminate].
  intros [= <-]. apply nonempty_truthy. congruence.
Qed.

Lemma stored_transaction_normal (t : Transaction) :
  stored_transaction t -> normal_transaction (untyped_transaction t).
Proof.
  intros (I & A & G & C). unfold normal_transaction. simpl.
  split; [now apply nonempty_truthy|]. split; [exact A|]. split; [exact G|].
  now apply untyped_ref_normal.
Qed.

Lemma stored_recurring_normal (r : Recurring) :
  stored_recurring r -> normal_recurring (untyped_recurring r).
Proof.
  intros (I & A & C). unfold normal_recurring. simpl.
  split; [now apply nonempty_truthy|]. split; [exact A|].
  now apply untyped_ref_normal.
Qed.

Lemma opt_js_untyped (c : option string) :
  opt_js (fun v => v) (untyped_ref c) = opt_js JStr c.
Proof. destruct c; reflexivity. Qed.

(** The collections of a normal state come back from the normalizers as
    they went. *)
Lemma normalize_stored_categories (e : Env) (cs : list Category) :
  Forall stored_category cs ->
  traverse typed_category (normalizeCategories e (JArr (map (category_js JStr) cs)))
  = Some cs.
Proof.
  intros H.
  replace (map (category_js JStr) cs)
    with (map (category_js (fun v => v)) (map untyped_category cs))
    by (rewrite map_map; reflexivity).
  rewrite normalizeCategories_fixed.
  - apply traverse_map, typed_untyped_category.
  - apply Forall_map. revert H. apply Forall_impl.
    intros c Hc. now apply nonempty_truthy.
Qed.

Lemma normalize_stored_transactions (e : Env) (ts : list Transaction) :
  Forall stored_transaction ts ->
  traverse typed_transaction
    (normalizeTransactions e (JArr (map (transaction_js JStr) ts)))
  = Some ts.
Proof.
  intros H.
  replace (map (transaction_js JStr) ts)
    with (map (transaction_js (fun v => v)) (map untyped_transaction ts)).
  - rewrite normalizeTransactions_fixed.
    + apply traverse_map, typed_untyped_transaction.
    + apply Forall_map. revert H. apply Forall_impl, stored_transaction_normal.
  - rewrite map_map. apply map_ext. intros t.
    unfold transaction_js, untyped_transaction. simpl.
    now rewrite opt_js_untyped.
Qed.

Lemma normalize_stored_recurring (e : Env) (rs : list Recurring) :
  Forall stored_recurring rs ->
  traverse typed_recurring (normalizeRecurring e (JArr (map (recurring_js JStr) rs)))
  = Some rs.
Proof.
  intros H.
  replace (map (recurring_js JStr) rs)
    with (map (recurring_js (fun v => v)) (map untyped_recurring rs)).
  - rewrite normalizeRecurring_fixed.
    + apply traverse_map, typed_untyped_recurring.
    + apply Forall_map. revert H. apply Forall_impl, stored_recurring_normal.
  - rewrite map_map. apply map_ext. intros r.
    unfold recurring_js, untyped_recurring. simpl.
    now rewrite opt_js_untyped.
Qed.








(** ** Dates *)

Module DateFacts.
Import Date.

Lemma DayFromYear_succ (y : Z) : DayFromYear (y + 1) = DayFromYear y + DaysInYear y.
Proof.
  unfold DayFromYear, DaysInYear, isLeap.
  assert (H4 : (y + 1 - 1969) / 4 = (y - 1969) / 4 + (if y mod 4 =? 0 then 1 else 0)).
  { destruct (Z.eqb_spec (y mod 4) 0); Z.div_mod_to_equations; lia. }
  assert (H100 : (y + 1 - 1901) / 100
                 = (y - 1901) / 100 + (if y mod 100 =? 0 then 1 else 0)).
  { destruct (Z.eqb_spec (y mod 100) 0); Z.div_mod_to_equations; lia. }
  assert (H400 : (y + 1 - 1601) / 400
                 = (y - 1601) / 400 + (if y mod 400 =? 0 then 1 else 0)).
  { destruct (Z.eqb_spec (y mod 400) 0); Z.div_mod_to_equations; lia. }
  assert (D100 : y mod 100 = 0 -> y mod 4 = 0) by (Z.div_mod_to_equations; lia).
  assert (D400 : y mod 400 = 0 -> y mod 100 = 0) by (Z.div_mod_to_equations; lia).
  rewrite H4, H100, H400.
  destruct (Z.eqb_spec (y mod 4) 0) as [E4|E4];
    destruct (Z.eqb_spec (y mod 100) 0) as [E100|E100];
    destruct (Z.eqb_spec (y mod 400) 0) as [E400|E400]; cbn [andb orb negb];
    try tauto; ring.
Qed.

(** The first day of a year is within two days of what the mean length
    of a year gives. *)
Lemma DayFromYear_bounds (y : Z) :
  146097 * (y - 1970) - 800 <= 400 * DayFromYear y <= 146097 * (y - 1970) + 800.
Proof. unfold DayFromYear. Z.div_mod_to_equations. lia. Qed.

Lemma DayFromYear_mono (a b : Z) : a <= b -> DayFromYear a <= DayFromYear b.
Proof. unfold DayFromYear. Z.div_mod_to_equations. lia. Qed.

(** [YearFromTime] is the year whose days contain the day of [t]. *)
Lemma YearFromTime_day (t y : Z) :
  DayFromYear y <= Day t < DayFromYear (y + 1) -> YearFromTime t = y.
Proof.
  unfold YearFromTime. generalize (Day t). intros d H.
  pose proof (DayFromYear_bounds y). pose proof (DayFromYear_bounds (y + 1)).
  set (y0 := 1970 + d * 400 / 146097).
  assert (y - 1 <= y0 <= y + 1) by (unfold y0; Z.div_mod_to_equations; lia).
  destruct (Z.leb_spec (DayFromYear (y0 + 1)) d) as [E1|E1].
  - assert (y0 + 1 < y + 1)
      by (destruct (Z.lt_ge_cases (y0 + 1) (y + 1)); [assumption|];
          pose proof (DayFromYear_mono (y + 1) (y0 + 1)); lia).
    pose proof (DayFromYear_mono (y0 + 1) y). lia.
  - destruct (Z.leb_spec (DayFromYear y0) d) as [E2|E2].
    + assert (y0 < y + 1)
        by (destruct (Z.lt_ge_cases y0 (y + 1)); [assumption|];
            pose proof (DayFromYear_mono (y + 1) y0); lia).
      assert (y < y0 + 1)
        by (destruct (Z.lt_ge_cases y (y0 + 1)); [assumption|];
            pose proof (DayFromYear_mono (y0 + 1) y); lia).
      lia.
    + assert (y < y0)
        by (destruct (Z.lt_ge_cases y y0); [assumption|];
            pose proof (DayFromYear_mono y0 y); lia).
      lia.
Qed.

Lemma Day_time_of (f : Fields) :
  in_day f -> Day (time_of f) = MakeDay (f_year f) (f_month f - 1) (f_day f).
Proof.
  intros (Hh & Hm & Hs & Hms). unfold Day, time_of, MakeDate, MakeTime, msPerDay.
  generalize (MakeDay (f_year f) (f_month f - 1) (f_day f)). intros d.
  Z.div_mod_to_equations. lia.
Qed.

Lemma month_cases (m : Z) :
  1 <= m <= 12 ->
  (m = 1 \/ m = 2 \/ m = 3 \/ m = 4 \/ m = 5 \/ m = 6
   \/ m = 7 \/ m = 8 \/ m = 9 \/ m = 10 \/ m = 11 \/ m = 12).
Proof. lia. Qed.

Ltac eval_daysBefore :=
  repeat match goal with
         | |- context [daysBefore ?b ?k] =>
             let v := eval cbv in (daysBefore b k) in change (daysBefore b k) with v
         | H : context [daysBefore ?b ?k] |- _ =>
             let v := eval cbv in (daysBefore b k) in change (daysBefore b k) with v in H
         end.

Lemma time_of_year (f : Fields) :
  in_day f -> in_month f -> YearFromTime (time_of f) = f_year f.
Proof.
  intros Hd (Hm & Hday). apply YearFromTime_day.
  rewrite (Day_time_of f Hd), DayFromYear_succ. unfold MakeDay, DaysInYear.
  unfold DaysInMonth in Hday.
  destruct (month_cases (f_month f) Hm)
    as [E|[E|[E|[E|[E|[E|[E|[E|[E|[E|[E|E]]]]]]]]]]];
    rewrite E in *; destruct (isLeap (f_year f)); eval_daysBefore; lia.
Qed.

Lemma time_of_month (f : Fields) :
  in_day f -> in_month f -> MonthFromTime (time_of f) = f_month f - 1.
Proof.
  intros Hd Hmo. unfold MonthFromTime, DayWithinYear.
  rewrite (time_of_year f Hd Hmo), (Day_time_of f Hd). unfold MakeDay.
  destruct Hmo as (Hm & Hday). unfold DaysInMonth in Hday.
  replace (DayFromYear (f_year f) + daysBefore (isLeap (f_year f)) (f_month f - 1)
           + f_day f - 1 - DayFromYear (f_year f))
    with (daysBefore (isLeap (f_year f)) (f_month f - 1) + f_day f - 1) by ring.
  destruct (month_cases (f_month f) Hm)
    as [E|[E|[E|[E|[E|[E|[E|[E|[E|[E|[E|E]]]]]]]]]]];
    rewrite E in *; destruct (isLeap (f_year f)); eval_daysBefore;
    repeat match goal with
           | |- context [?a <? ?b] => destruct (Z.ltb_spec a b); try lia
           end; reflexivity.
Qed.

(** *** Reading a timestamp *)

Lemma digit_range (c : ascii) (d : Z) : digit c = Some d -> 0 <= d <= 9.
Proof.
  unfold digit.
  destruct (Z.leb_spec 48 (Z.of_nat (nat_of_ascii c)));
    destruct (Z.leb_spec (Z.of_nat (nat_of_ascii c)) 57); simpl; try discriminate.
  intros [= <-]. lia.
Qed.

Lemma number_of_cons (c : ascii) (cs : list ascii) (acc : Z) :
  number_of (c :: cs) acc
  = match digit c with
    | Some d => number_of cs (10 * acc + d)
    | None => None
    end.
Proof. reflexivity. Qed.

Lemma number_of_nil (acc : Z) : number_of [] acc = Some acc.
Proof. reflexivity. Qed.

Lemma number_of_2 (a b : ascii) (n : Z) :
  number_of [a; b] 0 = Some n -> 0 <= n <= 99.
Proof.
  rewrite number_of_cons. destruct (digit a) as [x|] eqn:A; [|discriminate].
  rewrite number_of_cons. destruct (digit b) as [y|] eqn:B; [|discriminate].
  rewrite number_of_nil. apply digit_range in A. apply digit_range in B.
  intros H. assert (n = 10 * (10 * 0 + x) + y) by congruence. lia.
Qed.

Lemma number_of_3 (a b c : ascii) (n : Z) :
  number_of [a; b; c] 0 = Some n -> 0 <= n <= 999.
Proof.
  rewrite number_of_cons. destruct (digit a) as [x|] eqn:A; [|discriminate].
  rewrite number_of_cons. destruct (digit b) as [y|] eqn:B; [|discriminate].
  rewrite number_of_cons. destruct (digit c) as [z|] eqn:C; [|discriminate].
  rewrite number_of_nil. apply digit_range in A. apply digit_range in B.
  apply digit_range in C.
  intros H. assert (n = 10 * (10 * (10 * 0 + x) + y) + z) by congruence. lia.
Qed.

Lemma parse_iso_fields (s : string) (f : Fields) :
  parse_iso s = Some f -> in_day f /\ in_month f.
Proof.
  unfold parse_iso.
  repeat match goal with
         | |- context [match ?l with [] => _ | _ :: _ => _ end] =>
             destruct l; try discriminate
         end.
  match goal with |- context [if ?c then _ else _] => destruct c; [|discriminate] end.
  repeat match goal with
         | |- context [number_of ?l 0] =>
             let E := fresh "E" in
             destruct (number_of l 0) eqn:E; [|discriminate]
         end.
  match goal with |- context [valid ?g] => destruct (valid g) eqn:V; [|discriminate] end.
  intros [= <-].
  repeat match goal with
         | H : number_of [_; _] 0 = Some _ |- _ => apply number_of_2 in H
         | H : number_of [_; _; _] 0 = Some _ |- _ => apply number_of_3 in H
         end.
  unfold valid in V. cbn [f_year f_month f_day f_hour f_minute f_second f_ms] in V.
  repeat match goal with
         | H : _ && _ = true |- _ => apply andb_true_iff in H; destruct H
         | H : (_ <=? _) = true |- _ => apply Z.leb_le in H
         end.
  unfold in_day, in_month. cbn [f_year f_month f_day f_hour f_minute f_second f_ms].
  repeat split; lia.
Qed.

End DateFacts.

(** ** Operations on the transactions collection *)

Lemma typed_collections_Some (e : Env) (snap : Snapshot)
    (cs : list Category) (ts : list Transaction) (rs : list Recurring) :
  typed_collections e snap = Some (cs, ts, rs) ->
  traverse typed_category (normalizeCategories e (snap_categories snap)) = Some cs
  /\ traverse typed_transaction (normalizeTransactions e (snap_transactions snap))
     = Some ts
  /\ traverse typed_recurring (normalizeRecurring e (snap_recurring snap)) = Some rs.
Proof.
  unfold typed_collections.
  destruct (traverse typed_category _); [|discriminate].
  destruct (traverse typed_transaction _); [|discriminate].
  destruct (traverse typed_recurring _); [|discriminate].
  intros [= -> -> ->]. auto.
Qed.

Lemma reset_transactions (e : Env) (s s' : Store) :
  reset e s = Return tt s' -> transactions (state s') = [].
Proof.
  unfold reset.
  destruct (StorageService_reset (boot s) (service s)) as [snap sv] eqn:E.
  assert (T : snap_transactions snap = JArr []).
  { unfold StorageService_reset, StorageService_init, ensureDefaults in E.
    cbn in E. injection E as <- _. reflexivity. }
  destruct (typed_collections e snap) as [[[cs ts] rs]|] eqn:C; [|discriminate].
  apply typed_collections_Some in C as (_ & C & _).
  rewrite T in C. cbn in C. injection C as <-.
  intros [= <-]. reflexivity.
Qed.

Lemma transactions_add {collation : Collation} (e : Env) (d : Draft) (s : Store) :
  transactions (state (snd (addTransaction e d s)))
  = sort compareTransactionsDesc
      (transactions (state s) ++ [buildTransaction e (state s) d]).
Proof. reflexivity. Qed.

Lemma transactions_update {collation : Collation} (id : string) (u : Updates) (s : Store) :
  exists l, transactions (state (snd (updateTransaction id u s)))
            = sort compareTransactionsDesc l.
Proof. eexists. reflexivity. Qed.

Lemma transactions_delete (id : string) (s : Store) :
  transactions (state (snd (deleteTransaction id s)))
  = filter (fun tx => negb (tx_id tx =? id)%string) (transactions (state s)).
Proof. reflexivity. Qed.

Lemma transactions_import {collation : Collation}
    (e : Env) (payload : jsval) (strategy : string) (s s' : Store) :
  importData e payload strategy s = Return tt s' ->
  exists l, transactions (state s') = sort compareTransactionsDesc l.
Proof.
  intros H. apply importData_Return in H as (cs & ts & rs & _ & -> & _).
  unfold imported_state. destruct (strategy =? "merge")%string; eexists; reflexivity.
Qed.

(** *** Export, then import *)

Lemma exportData_fields (s : Store) :
  truthy (exportData s) = true
  /\ get "schema_version" (exportData s) = JNum STORAGE_VERSION
  /\ payload_snapshot (exportData s)
     = mkSnapshot (JObj (settings (state s)))
         (JArr (map (category_js JStr) (categories (state s))))
         (JArr (map (transaction_js JStr) (transactions (state s))))
         (JArr (map (recurring_js JStr) (recurring (state s)))).
Proof. repeat split; reflexivity. Qed.

Lemma STORAGE_VERSION_eqb : Num.eqb STORAGE_VERSION STORAGE_VERSION = true.
Proof. reflexivity. Qed.

(** *** Totals *)

(** With no income no bucket has a budget to subtract from. *)
Lemma budget_zero_income (pct : number) : Num.truthy (budget Num.zero pct) = false.
Proof.
  unfold budget. generalize (Num.div pct (Num.of_Z 100)). intros r.
  destruct r as [s|s| |s m e]; reflexivity.
Qed.

(** * Properties of the specification *)

(** ** C1: positive amounts *)

(** C1.  The specification has no transaction with [amount_cents <= 0]
    in the collection, ever.  [addTransaction] coerces the amount with
    [Math.max(0, Math.trunc(amount_cents))] and inserts the record without
    a test: with a draft of amount [0], from any store, the collection
    afterwards holds a record whose amount is [0]. *)
Theorem addTransaction_keeps_zero_amount {collation : Collation} (e : Env) (s : Store) :
  exists t,
    In t (transactions (state (snd (addTransaction e zero_draft s))))
    /\ tx_amount_cents t = Num.zero
    /\ Num.gtb (tx_amount_cents t) Num.zero = false.
Proof.
  exists (buildTransaction e (state s) zero_draft).
  split; [|split; reflexivity].
  rewrite transactions_add. apply sort_In, in_or_app. right. now left.
Qed.

(** The same record does not survive a reload: [normalizeTransactions]
    filters on [amount_cents > 0]. *)
Lemma normalizeTransactions_drops_zero_amount (e e' : Env) (s : Store) :
  normalizeTransactions e'
    (JArr [transaction_js JStr (buildTransaction e (state s) zero_draft)]) = [].
Proof. reflexivity. Qed.

(** [updateTransaction] has the same gap: an update to amount [0] is
    kept. *)
Lemma updateTransaction_keeps_zero_amount :
  let updates := mkUpdates None None (Some Num.zero) None None None None in
  map tx_amount_cents
    (transactions (state (snd (updateTransaction "A" updates (with_transactions [tx_A])))))
  = [Num.zero].
Proof. reflexivity. Qed.

(** ** C2: schema mismatch *)

(** C2.  When the payload's [schema_version] is missing or is not the
    current version, [importData] throws the error with code
    [SCHEMA_MISMATCH], whatever the strategy, and the store is the one
    before the call: the same state, the same storage (nothing was
    persisted) and the same notifications (no listener was called). *)
Theorem importData_schema_mismatch {collation : Collation}
    (e : Env) (payload : jsval) (strategy : string)
    (s : Store) :
  get "schema_version" payload <> JNum STORAGE_VERSION ->
  importData e payload strategy s = Throw SCHEMA_MISMATCH s.
Proof.
  intros H. unfold importData.
  destruct (strict_eq_num (get "schema_version" payload) STORAGE_VERSION) eqn:V.
  - exfalso. apply H. unfold strict_eq_num in V.
    destruct (get "schema_version" payload); try discriminate.
    f_equal. now apply (NumFacts.eqb_finite x false 4503599627370496 (-52)).
  - now rewrite orb_true_r.
Qed.

Lemma importData_schema_mismatch_witness :
  get "schema_version" (JObj [("schema_version", JNum (Num.of_Z 2))])
  <> JNum STORAGE_VERSION
  /\ importData sample_env (JObj [("schema_version", JNum (Num.of_Z 2))]) "merge"
       fresh_store
     = Throw SCHEMA_MISMATCH fresh_store.
Proof.
  assert (H : get "schema_version" (JObj [("schema_version", JNum (Num.of_Z 2))])
              <> JNum STORAGE_VERSION) by (vm_compute; discriminate).
  split; [exact H|].
  exact (importData_schema_mismatch sample_env _ "merge" fresh_store H).
Defined.

(** A payload that is [null], or has no [schema_version], is refused
    too. *)
Lemma importData_refuses_null {collation : Collation} (e : Env) (strategy : string) (s : Store) :
  importData e JNull strategy s = Throw SCHEMA_MISMATCH s
  /\ importData e (JObj []) strategy s = Throw SCHEMA_MISMATCH s.
Proof. split; reflexivity. Qed.

(** ** C3: merge import *)






Example merge_keeps_current_B :
  transactions (state merged_store) = [tx_A; tx_B; tx_C].
Proof. reflexivity. Qed.

(** ** C4: pagination *)

(** C4, as stated, fails: in a collection where two records share
    timestamp and identifier (a replace import keeps both) a cursor made
    from the second is resolved to the first, and the loop returns that
    record again.  With a limit of 2 the pages of [state_twice] never
    concatenate to its three records. *)
Lemma pages_repeat_duplicate_key :
  ~ exists fuel,
      pages fuel 2 None state_twice
      = Some (sort compareTransactionsDesc (transactions state_twice)).
Proof.
  intros [fuel H].
  destruct fuel as [|[|[|fuel]]]; vm_compute in H; discriminate.
Qed.

(** C4, amended.  In a collection where no two records share timestamp
    and identifier and neither field contains ["|"], the loop from
    [cursor = null] with a positive limit stops, and the concatenation of
    its pages is the sorted list of all transactions: [fuel] calls are
    enough as soon as [fuel * limit] exceeds the number of records. *)
Theorem pages_complete {collation : Collation} (st : State) (limit fuel : nat) :
  cursor_safe (transactions st) ->
  (0 < limit)%nat ->
  (List.length (transactions st) < fuel * limit)%nat ->
  pages fuel limit None st = Some (sort compareTransactionsDesc (transactions st)).
Proof.
  intros S L F. apply (pages_rest st limit S L).
  - left. split; reflexivity.
  - now rewrite sort_length.
Qed.

Lemma state_ABC_cursor_safe : cursor_safe (transactions state_ABC).
Proof.
  split.
  - repeat (constructor; [simpl; intuition discriminate|]). constructor.
  - repeat constructor.
Qed.

Lemma pages_complete_witness :
  cursor_safe (transactions state_ABC)
  /\ (0 < 2)%nat
  /\ (List.length (transactions state_ABC) < 2 * 2)%nat
  /\ pages 2 2 None state_ABC = Some [tx_A; tx_B; tx_C].
Proof.
  split; [exact state_ABC_cursor_safe|]. split; [lia|]. split; [simpl; lia|].
  exact (pages_complete state_ABC 2 2 state_ABC_cursor_safe
           (Nat.lt_0_succ 1) (Nat.lt_succ_diag_r 3)).
Defined.

(** ** C5: monthly totals *)

(** C5, as stated, fails on the budget: the code computes
    [Math.round(income * (pct / 100))] in binary64 arithmetic.  With an
    income of 50 and 29 %, [29 / 100] is rounded below 0.29, the product
    is 14.499999999999998 and the budget is 14, while
    [round(50 * 29 / 100)] is 15. *)
Lemma budget_differs_from_exact_rounding :
  exists t,
    getMonthlyTotals sample_platform 2024 0 state_29 = Some t
    /\ income_cents t = Num.of_Z 50
    /\ budget_cents (Necessities_totals t) = Num.of_Z 14
    /\ exact_budget 50 29 = 15
    /\ budget_cents (Necessities_totals t) <> Num.of_Z (exact_budget 50 29).
Proof.
  eexists. split; [vm_compute; reflexivity|]. cbn [income_cents Necessities_totals budget_cents].
  repeat split; try reflexivity. vm_compute. discriminate.
Qed.

(** C5, amended.  Each rule bucket's budget is
    [Math.round(income_cents * (pct / 100))] in the arithmetic of
    JavaScript numbers, where [pct] is the rule's percentage; the budget
    of Uncategorized is [0]; the remaining amount of every bucket is
    [budget - spent] when the budget is truthy (not [0], not [NaN]) and
    [-spent] otherwise; and with an income of [0] every bucket's remaining
    amount is [-spent]. *)
Theorem getMonthlyTotals_budget (pf : Platform) (year monthIndex : Z) (st : State)
    (t : Totals) :
  getMonthlyTotals pf year monthIndex st = Some t ->
  exists necessities leisure savings,
    rule_percentage "necessities" st = Some necessities
    /\ rule_percentage "leisure" st = Some leisure
    /\ rule_percentage "savings" st = Some savings
    /\ budget_cents (Necessities_totals t)
       = Num.round (Num.mul (income_cents t) (Num.div necessities (Num.of_Z 100)))
    /\ budget_cents (Leisure_totals t)
       = Num.round (Num.mul (income_cents t) (Num.div leisure (Num.of_Z 100)))
    /\ budget_cents (Savings_totals t)
       = Num.round (Num.mul (income_cents t) (Num.div savings (Num.of_Z 100)))
    /\ budget_cents (Uncategorized_totals t) = Num.zero
    /\ Forall (fun b =>
                 remaining_cents b
                 = if Num.truthy (budget_cents b)
                   then Num.sub (budget_cents b) (spent_cents b)
                   else Num.neg (spent_cents b)) (buckets_of t)
    /\ (income_cents t = Num.zero ->
        Forall (fun b => remaining_cents b = Num.neg (spent_cents b)) (buckets_of t)).
Proof.
  unfold getMonthlyTotals.
  destruct (rule_percentage "necessities" st) as [n|]; [|discriminate].
  destruct (rule_percentage "leisure" st) as [l|]; [|discriminate].
  destruct (rule_percentage "savings" st) as [v|]; [|discriminate].
  intros [= <-]. exists n, l, v.
  repeat (split; [reflexivity|]). split.
  - repeat constructor.
  - cbn [income_cents buckets_of Necessities_totals Leisure_totals Savings_totals
           Uncategorized_totals].
    intros ->. unfold bucket_totals, remaining.
    repeat constructor; cbn [remaining_cents spent_cents];
      now rewrite ?budget_zero_income.
Qed.

Lemma getMonthlyTotals_budget_witness :
  exists t,
    getMonthlyTotals sample_platform 2024 0 scenario_state = Some t
    /\ budget_cents (Necessities_totals t)
       = Num.round (Num.mul (income_cents t) (Num.div (Num.of_Z 50) (Num.of_Z 100)))
    /\ budget_cents (Uncategorized_totals t) = Num.zero.
Proof.
  assert (E : { t | getMonthlyTotals sample_platform 2024 0 scenario_state = Some t })
    by (eexists; vm_compute; reflexivity).
  destruct E as [t E]. exists t. split; [exact E|].
  destruct (getMonthlyTotals_budget _ _ _ _ _ E)
    as (n & l & v & Hn & _ & _ & B & _ & _ & U & _).
  assert (N : n = Num.of_Z 50) by (vm_compute in Hn; injection Hn as <-; reflexivity).
  rewrite N in B. split; [exact B|exact U].
Defined.

(** The scenario of the specification. *)
Example scenario_totals :
  exists t,
    getMonthlyTotals sample_platform 2024 0 scenario_state = Some t
    /\ Necessities_totals t
       = mkBucketTotals (Num.of_Z 50000) (Num.of_Z 100000) (Num.of_Z 50000)
    /\ Leisure_totals t = mkBucketTotals Num.zero (Num.of_Z 60000) (Num.of_Z 60000).
Proof. eexists. split; [vm_compute; reflexivity|]. split; reflexivity. Qed.

(** ** C6: the month of a transaction *)

(** C6.  The specification has the month test follow the local calendar
    of the platform, the calendar in which the store picks the month it
    shows.  [isSameMonth] reads [getUTCFullYear] and [getUTCMonth]
    instead.  One hour east of Greenwich, 23:30 UTC on 31 January 2024
    is 00:30 on 1 February in local time: the test counts the
    transaction in January (month index 0) while the local calendar has
    it in February, so that the totals of February leave the expense
    out and the totals of January hold it. *)
Lemma isSameMonth_is_not_local :
  isSameMonth platform_plus_one "2024-01-31T23:30:00.000Z" 2024 0 = true
  /\ isSameMonth_local platform_plus_one "2024-01-31T23:30:00.000Z" 2024 0 = false
  /\ isSameMonth_local platform_plus_one "2024-01-31T23:30:00.000Z" 2024 1 = true
  /\ option_map expense_cents (getMonthlyTotals platform_plus_one 2024 1 state_month_end)
     = Some Num.zero
  /\ option_map expense_cents (getMonthlyTotals platform_plus_one 2024 0 state_month_end)
     = Some (Num.of_Z 1200).
Proof. repeat split; vm_compute; reflexivity. Qed.

(** What the test computes: it includes a transaction exactly when the
    year and the month of its [date_iso] in UTC are [year] and
    [monthIndex]; for a timestamp in the format [toISOString] writes,
    these are the year and the month written in the timestamp, on every
    platform whatever its time zone. *)
Lemma isSameMonth_utc (pf : Platform) (dateIso : string) (f : Date.Fields)
    (year monthIndex : Z) :
  Date.parse_iso dateIso = Some f ->
  isSameMonth pf dateIso year monthIndex
  = (Date.f_year f =? year) && (Date.f_month f - 1 =? monthIndex).
Proof.
  intros P. destruct (DateFacts.parse_iso_fields dateIso f P) as [Hd Hm].
  unfold isSameMonth, new_Date, getUTCFullYear, getUTCMonth. rewrite P.
  cbn [option_map field_eqb].
  rewrite (DateFacts.time_of_year f Hd Hm), (DateFacts.time_of_month f Hd Hm).
  reflexivity.
Qed.

(** ** C7: sort order *)

(** C7, as stated, fails: a replace import keeps two records with the
    same timestamp and identifier, whatever the collation, and for that
    adjacent pair neither [a.date_iso > b.date_iso] nor [a.id > b.id]
    holds. *)
Lemma replace_import_not_strictly_sorted :
  exists payload,
    forall collation : Collation,
    exists s',
      importData sample_env payload "replace" fresh_store = Return tt s'
      /\ transactions (state s') = [tx_twice; tx_twice]
      /\ ~ Sorted strict_desc_order (transactions (state s')).
Proof.
  exists (payload_of [tx_twice; tx_twice]). intros collation.
  assert (T : sort compareTransactionsDesc [tx_twice; tx_twice] = [tx_twice; tx_twice]).
  { unfold sort. cbn [sort_from insert].
    destruct (compareTransactionsDesc tx_twice tx_twice <=? 0); reflexivity. }
  eexists. split; [|split].
  - apply (importData_accepts sample_env _ "replace" fresh_store [] [tx_twice; tx_twice] []);
      reflexivity.
  - rewrite state_notify, state_persist. cbn [state set_state].
    unfold imported_state. cbn [String.eqb Ascii.eqb Bool.eqb transactions].
    exact T.
  - rewrite state_notify, state_persist. cbn [state set_state].
    unfold imported_state. cbn [String.eqb Ascii.eqb Bool.eqb transactions].
    rewrite T. intros H. inversion H as [|? ? _ Hd]; subst.
    inversion Hd as [|? ? Hr]; subst.
    destruct Hr as [C|[_ C]]; vm_compute in C; discriminate.
Qed.

(** Nor is the order the one of the code units: [localeCompare] decides.
    Where the collation has ["a"] before ["B"], a replace import of two
    records of one timestamp with these identifiers leaves B before a,
    while ["a"] is the greater in the order of the code units. *)
Example order_follows_the_collation :
  exists s',
    importData (collation := letters_before_case) sample_env
      (payload_of [tx_small_a; tx_B]) "replace" fresh_store = Return tt s'
    /\ map tx_id (transactions (state s')) = ["B"; "a"]
    /\ String.compare "a" "B" = Gt.
Proof. eexists. split; [reflexivity|]. split; reflexivity. Qed.

Lemma transactions_sorted {collation : Collation} (op : Operation) (s s' : Store) :
  step op s s' ->
  op = op_addTransaction \/ op = op_updateTransaction \/ op = op_importData ->
  exists l, transactions (state s') = sort compareTransactionsDesc l.
Proof.
  intros H O. destruct H as [e d s|id u s|id s|e payload strategy s s' H|e s s' H].
  - eexists. apply transactions_add.
  - apply transactions_update.
  - destruct O as [O|[O|O]]; discriminate O.
  - exact (transactions_import _ _ _ _ _ H).
  - destruct O as [O|[O|O]]; discriminate O.
Qed.

(** C7, amended.  On a platform whose [localeCompare] is a consistent
    comparison, [addTransaction], [updateTransaction] and [importData]
    (either strategy) leave the collection in the order of
    [compareTransactionsDesc]: for every adjacent pair (a, b), when the
    timestamps are different strings [b.date_iso.localeCompare(a.date_iso)]
    is not positive, and when they are the same string
    [b.id.localeCompare(a.id)] is not positive.  [deleteTransaction]
    keeps a collection in feed order, every record in order with every
    record after it, and [reset] leaves the collection empty.  Where the
    collation tells the timestamps of the collection apart the collection
    is in feed order after each of these operations; and where it tells
    the identifiers apart too and no two records share timestamp and
    identifier, the order is strict, and the collection is the one the
    sort makes of any arrangement of its records. *)
Theorem step_keeps_order {collation : Collation} (op : Operation) (s s' : Store) :
  consistent collation ->
  step op s s' ->
  (op = op_deleteTransaction -> feed_order (transactions (state s))) ->
  let after := transactions (state s') in
  Sorted desc_order after
  /\ (op = op_deleteTransaction -> feed_order after)
  /\ (op = op_reset -> after = [])
  /\ (told_apart (map tx_date_iso after) ->
      feed_order after
      /\ (told_apart (map tx_id after) -> NoDup (map cursor_key after) ->
          Sorted desc_order_strict after
          /\ forall l, Permutation l after -> sort compareTransactionsDesc l = after)).
Proof.
  intros C H Hd after.
  assert (O : op = op_addTransaction \/ op = op_updateTransaction \/ op = op_importData
              \/ op = op_deleteTransaction \/ op = op_reset)
    by (destruct op; tauto).
  assert (R : op = op_reset -> after = []).
  { intros ->. inversion H as [| | | |e s0 s0' E]; subst.
    exact (reset_transactions _ _ _ E). }
  assert (D : op = op_deleteTransaction -> feed_order after).
  { intros E. specialize (Hd E). subst op. inversion H; subst. subst after.
    rewrite transactions_delete. now apply filter_feed_order. }
  assert (G : Sorted desc_order after).
  { destruct O as [O|[O|[O|[O|O]]]].
    - destruct (transactions_sorted op s s' H) as [l E]; [tauto|].
      subst after. rewrite E. now apply sort_desc.
    - destruct (transactions_sorted op s s' H) as [l E]; [tauto|].
      subst after. rewrite E. now apply sort_desc.
    - destruct (transactions_sorted op s s' H) as [l E]; [tauto|].
      subst after. rewrite E. now apply sort_desc.
    - apply StronglySorted_Sorted, D, O.
    - rewrite (R O). constructor. }
  split; [exact G|]. split; [exact D|]. split; [exact R|]. intros Td.
  assert (F : feed_order after).
  { apply Sorted_StronglySorted_in; [|exact G].
    intros x y z. now apply (desc_order_trans after). }
  split; [exact F|]. intros Ti N. split.
  - apply StronglySorted_Sorted. now apply feed_order_strict.
  - intros l P. now apply sort_arrangement.
Qed.

Lemma step_keeps_order_witness :
  consistent code_units
  /\ (let s' := snd (addTransaction sample_env zero_draft (with_transactions [tx_A; tx_B])) in
      step op_addTransaction (with_transactions [tx_A; tx_B]) s'
      /\ Sorted desc_order (transactions (state s')))
  /\ (let s' := snd (updateTransaction "B" later_date (with_transactions [tx_A; tx_B])) in
      step op_updateTransaction (with_transactions [tx_A; tx_B]) s'
      /\ Sorted desc_order (transactions (state s')))
  /\ (let s' := snd (deleteTransaction "A" (with_transactions [tx_A; tx_B])) in
      step op_deleteTransaction (with_transactions [tx_A; tx_B]) s'
      /\ feed_order (transactions (state (with_transactions [tx_A; tx_B])))
      /\ feed_order (transactions (state s')))
  /\ (step op_importData (with_transactions [tx_A; tx_B]) merged_store
      /\ Sorted desc_order (transactions (state merged_store))
      /\ feed_order (transactions (state merged_store))).
Proof.
  assert (N : forall op, op <> op_deleteTransaction ->
                op = op_deleteTransaction ->
                feed_order (transactions (state (with_transactions [tx_A; tx_B]))))
    by (intros op H E; contradiction).
  assert (F : feed_order (transactions (state (with_transactions [tx_A; tx_B]))))
    by (unfold feed_order; sample_order).
  split; [exact code_units_consistent|]. split; [|split; [|split]].
  - intros s'.
    assert (H : step op_addTransaction (with_transactions [tx_A; tx_B]) s')
      by constructor.
    split; [exact H|].
    refine (proj1 (step_keeps_order _ _ _ code_units_consistent H (N _ _))).
    discriminate.
  - intros s'.
    assert (H : step op_updateTransaction (with_transactions [tx_A; tx_B]) s')
      by constructor.
    split; [exact H|].
    refine (proj1 (step_keeps_order _ _ _ code_units_consistent H (N _ _))).
    discriminate.
  - intros s'.
    assert (H : step op_deleteTransaction (with_transactions [tx_A; tx_B]) s')
      by constructor.
    split; [exact H|]. split; [exact F|].
    exact (proj1 (proj2 (step_keeps_order _ _ _ code_units_consistent H (fun _ => F)))
             eq_refl).
  - assert (H : step op_importData (with_transactions [tx_A; tx_B]) merged_store)
      by (apply (step_import sample_env (payload_of [tx_B_imported; tx_C]) "merge");
          reflexivity).
    split; [exact H|].
    assert (K : op_importData <> op_deleteTransaction) by discriminate.
    destruct (step_keeps_order _ _ _ code_units_consistent H (N _ K)) as (G & _ & _ & T).
    split; [exact G|]. apply T, code_units_apart.
Defined.

(** Loading is another matter: [loadFromStorage] assigns the normalized
    array as the storage has it. *)
Example load_keeps_stored_order :
  exists s',
    init sample_env store_oldest_first = Return tt s'
    /\ transactions (state s') = [tx_C; tx_A].
Proof. eexists. split; reflexivity. Qed.

(** ** C8: export, then replace import *)

(** C8, as stated, fails: the state reached by adding a draft of amount
    [0] holds a record that the import, which normalizes the export,
    drops. *)
Lemma round_trip_drops_zero_amount :
  exists s',
    importData sample_env (exportData zero_store) "replace" zero_store = Return tt s'
    /\ List.length (transactions (state zero_store)) = 1%nat
    /\ transactions (state s') = [].
Proof. eexists. split; [reflexivity|]. split; reflexivity. Qed.

(** C8, amended.  For every store whose state is normal (the settings
    are a result of [normalizeSettings], identifiers are not empty,
    category references are [null] or not empty, amounts are integers,
    positive for a transaction) and whose transactions are in feed
    order, every record in the order of [compareTransactionsDesc] with
    every record after it,
    [importData(exportData(), {strategy: "replace"})] returns and leaves
    the state as it was; it writes that state to storage and notifies
    the listeners of the import. *)
Theorem replace_import_of_export {collation : Collation} (e : Env) (s : Store) :
  normal_state (state s) ->
  feed_order (transactions (state s)) ->
  exists s',
    importData e (exportData s) "replace" s = Return tt s'
    /\ state s' = state s
    /\ service s' = service (persist s)
    /\ notified s' = notified s ++ [(state s, D_data_import "replace")].
Proof.
  intros (Hs & Hc & Ht & Hr) Hsorted.
  destruct (exportData_fields s) as (T & V & P).
  assert (E : imported_state "replace" (normalizeSettings (get "settings" (exportData s)))
                (categories (state s)) (transactions (state s)) (recurring (state s))
                (state s) = state s).
  { unfold imported_state. cbn [String.eqb Ascii.eqb Bool.eqb].
    replace (get "settings" (exportData s)) with (JObj (settings (state s)))
      by reflexivity.
    rewrite (normalizeSettings_fixed _ Hs), (sort_feed_order_id _ Hsorted).
    destruct (state s). reflexivity. }
  eexists. split.
  - apply importData_accepts; [exact T| |].
    + rewrite V. apply STORAGE_VERSION_eqb.
    + rewrite P. unfold typed_collections. cbn [snap_categories snap_transactions snap_recurring].
      rewrite (normalize_stored_categories e _ Hc).
      rewrite (normalize_stored_transactions e _ Ht).
      rewrite (normalize_stored_recurring e _ Hr). reflexivity.
  - rewrite E. destruct s as [st sv ns b]. repeat split.
Qed.

Lemma with_transactions_normal : normal_state (state (with_transactions [tx_A; tx_B])).
Proof.
  split; [apply DEFAULT_SETTINGS_normal|]. split; [constructor|]. split; [|constructor].
  assert (H : forall t, t = tx_A \/ t = tx_B -> stored_transaction t).
  { intros t [-> | ->]; (split; [discriminate|]); (split; [|split; [reflexivity|discriminate]]);
      (split; [reflexivity|]); (split; [reflexivity|]); right; reflexivity. }
  cbn [with_transactions set_state set_transactions state transactions].
  repeat constructor; apply H; auto.
Qed.

Lemma with_transactions_sorted :
  feed_order (transactions (state (with_transactions [tx_A; tx_B]))).
Proof. unfold feed_order. sample_order. Qed.

Lemma replace_import_of_export_witness :
  normal_state (state (with_transactions [tx_A; tx_B]))
  /\ feed_order (transactions (state (with_transactions [tx_A; tx_B])))
  /\ exists s',
       importData sample_env (exportData (with_transactions [tx_A; tx_B])) "replace"
         (with_transactions [tx_A; tx_B]) = Return tt s'
       /\ state s' = state (with_transactions [tx_A; tx_B])
       /\ notified s' = [(state (with_transactions [tx_A; tx_B]), D_data_import "replace")].
Proof.
  split; [exact with_transactions_normal|]. split; [exact with_transactions_sorted|].
  destruct (replace_import_of_export sample_env (with_transactions [tx_A; tx_B])
              with_transactions_normal with_transactions_sorted)
    as (s' & R & E & _ & N).
  exists s'. split; [exact R|]. split; [exact E|exact N].
Defined.

(** ** C9: idempotent normalizers *)

(** C9.  Each normalizer, applied to its own result, returns that
    result: for the settings object, and for the arrays of categories,
    transactions and recurring templates, whatever the clock and the
    random source give on the second pass. *)
Theorem normalizers_idempotent :
  (forall raw,
     normalizeSettings (JObj (normalizeSettings raw)) = normalizeSettings raw)
  /\ (forall e e' x,
        normalizeCategories e'
          (JArr (map (category_js (fun v => v)) (normalizeCategories e x)))
        = normalizeCategories e x)
  /\ (forall e e' x,
        normalizeTransactions e'
          (JArr (map (transaction_js (fun v => v)) (normalizeTransactions e x)))
        = normalizeTransactions e x)
  /\ (forall e e' x,
        normalizeRecurring e'
          (JArr (map (recurring_js (fun v => v)) (normalizeRecurring e x)))
        = normalizeRecurring e x).
Proof.
  split; [|split; [|split]].
  - intros raw. apply normalizeSettings_fixed, normalizeSettings_normal.
  - intros e e' x. apply normalizeCategories_fixed, normalizeCategories_normal.
  - intros e e' x. apply normalizeTransactions_fixed, normalizeTransactions_normal.
  - intros e e' x. apply normalizeRecurring_fixed, normalizeRecurring_normal.
Qed.

(** ** C10: a last page that is full *)

(** C10, as stated, fails where two records share timestamp and
    identifier: the two records of [state_pair] fill one page of 2, the
    page announces more, and the call with its cursor, which is resolved
    to the first of the two, returns the second again instead of an empty
    page. *)
Lemma full_last_page_then_repeat :
  exists c,
    getRecentTransactions 2 None state_pair = mkPage [tx_twice; tx_twice] (Some c) true
    /\ getRecentTransactions 2 (Some c) state_pair = mkPage [tx_twice] None false.
Proof. eexists. split; reflexivity. Qed.

(** C10, amended.  In a collection where no two records share timestamp
    and identifier and neither field contains ["|"]: when the records
    after the cursor position fill [j + 1] pages exactly, call number [j]
    of the loop returns the last [limit] records with a cursor and
    [hasMore = true], and the call with that cursor returns no item, a
    [null] cursor and [hasMore = false]. *)
Theorem exact_multiple_last_page {collation : Collation} (st : State) (limit j : nat)
    (cursor : option string) (rest : list Transaction) :
  cursor_safe (transactions st) ->
  (0 < limit)%nat ->
  rest_after (sort compareTransactionsDesc (transactions st)) cursor rest ->
  List.length rest = (S j * limit)%nat ->
  exists c,
    page_seq j limit cursor st = mkPage (skipn (j * limit) rest) (Some c) true
    /\ List.length (skipn (j * limit) rest) = limit
    /\ getRecentTransactions limit (Some c) st = mkPage [] None false.
Proof.
  intros S L R E.
  destruct (page_seq_exact st limit S L j cursor rest R E) as (tx & P & Len & N).
  exists (cursor_of tx). auto.
Qed.

Lemma state_ABC_rest :
  rest_after (sort compareTransactionsDesc (transactions state_ABC))
    (Some (cursor_of tx_A)) [tx_B; tx_C].
Proof. right. exists [], tx_A. split; reflexivity. Qed.

Lemma exact_multiple_last_page_witness :
  cursor_safe (transactions state_ABC)
  /\ (0 < 1)%nat
  /\ rest_after (sort compareTransactionsDesc (transactions state_ABC))
       (Some (cursor_of tx_A)) [tx_B; tx_C]
  /\ List.length [tx_B; tx_C] = (2 * 1)%nat
  /\ exists c,
       page_seq 1 1 (Some (cursor_of tx_A)) state_ABC = mkPage [tx_C] (Some c) true
       /\ getRecentTransactions 1 (Some c) state_ABC = mkPage [] None false.
Proof.
  split; [exact state_ABC_cursor_safe|]. split; [lia|].
  split; [exact state_ABC_rest|]. split; [reflexivity|].
  destruct (exact_multiple_last_page state_ABC 1 1 (Some (cursor_of tx_A)) [tx_B; tx_C]
              state_ABC_cursor_safe (Nat.lt_0_succ 0) state_ABC_rest eq_refl)
    as (c & P & _ & N).
  exists c. split; [exact P|exact N].
Defined.

(** * Further properties of the store *)

(** ** Lists *)

Section MoreListFacts.
Context {A : Type}.

Lemma find_absent (p : A -> bool) (l : list A) :
  (forall x, In x l -> p x = false) -> find p l = None.
Proof.
  induction l as [|a l IH]; intros H; [reflexivity|]. simpl.
  rewrite (H a) by now left. apply IH. intros x Hx. apply H. now right.
Qed.

Lemma filter_keeps (p : A -> bool) (l : list A) :
  (forall x, In x l -> p x = true) -> filter p l = l.
Proof. intros H. apply filter_all, Forall_forall, H. Qed.

Lemma map_unchanged (f : A -> A) (l : list A) :
  (forall x, In x l -> f x = x) -> map f l = l.
Proof.
  induction l as [|a l IH]; intros H; [reflexivity|]. simpl.
  rewrite (H a) by now left. f_equal. apply IH. intros x Hx. apply H. now right.
Qed.

Lemma fold_unchanged {B : Type} (f : B -> A -> B) (l : list A) (b : B) :
  (forall c x, In x l -> f c x = c) -> fold_left f l b = b.
Proof.
  revert b. induction l as [|a l IH]; intros b H; [reflexivity|]. simpl.
  rewrite (H b a) by now left. apply IH. intros c x Hx. apply H. now right.
Qed.

Lemma findIndex_absent (p : A -> bool) (l : list A) :
  (forall x, In x l -> p x = false) -> findIndex p l = None.
Proof.
  induction l as [|a l IH]; intros H; [reflexivity|]. simpl.
  rewrite (H a) by now left. rewrite IH; [reflexivity|].
  intros x Hx. apply H. now right.
Qed.
End MoreListFacts.

Section MoreSortFacts.
Context {A : Type} (cmp : A -> A -> Z).

Lemma sort_from_snoc (x : A) (l acc : list A) :
  sort_from cmp acc (l ++ [x]) = insert cmp x (sort_from cmp acc l).
Proof. revert acc. induction l as [|a l IH]; intros acc; [reflexivity|]. apply IH. Qed.

Lemma sort_snoc (x : A) (l : list A) :
  sort cmp (l ++ [x]) = insert cmp x (sort cmp l).
Proof. apply sort_from_snoc. Qed.

Lemma filter_insert_out (p : A -> bool) (x : A) (l : list A) :
  p x = false -> filter p (insert cmp x l) = filter p l.
Proof.
  intros Hx. induction l as [|a l IH]; simpl; [now rewrite Hx|].
  destruct (cmp a x <=? 0); simpl.
  - now rewrite IH.
  - now rewrite Hx.
Qed.
End MoreSortFacts.

(** ** Records found by identifier *)

Lemma id_absent (id : string) (l : list Transaction) :
  ~ In id (map tx_id l) -> forall tx, In tx l -> (tx_id tx =? id)%string = false.
Proof.
  intros H tx Hin. apply String.eqb_neq. intros <-. apply H, in_map, Hin.
Qed.

Lemma update_target_app (st : State) (id : string) (u : Updates)
    (l1 l2 : list Transaction) (target : option Transaction) :
  update_target st id u (l1 ++ l2) target
  = update_target st id u l2 (update_target st id u l1 target).
Proof. revert target. induction l1 as [|a l1 IH]; intros target; [reflexivity|]. apply IH. Qed.

Lemma update_target_absent (st : State) (id : string) (u : Updates)
    (l : list Transaction) (target : option Transaction) :
  ~ In id (map tx_id l) -> update_target st id u l target = target.
Proof.
  revert target. induction l as [|a l IH]; intros target H; [reflexivity|]. simpl.
  rewrite (id_absent id (a :: l) H a) by now left.
  apply IH. intros Hin. apply H. now right.
Qed.

(** The effects of an operation on the transactions: what was persisted
    and who was told. *)
Lemma service_notify (d : Detail) (s : Store) : service (notify d s) = service s.
Proof. reflexivity. Qed.

Lemma notified_persist (s : Store) : notified (persist s) = notified s.
Proof. reflexivity. Qed.

(** ** Deleting a transaction *)

(** [deleteTransaction] with an identifier that no record has returns
    [undefined] and leaves the state as it was; the collections are
    written to storage and the listeners are notified all the same. *)
Theorem deleteTransaction_unknown_id (id : string) (s : Store) :
  ~ In id (map tx_id (transactions (state s))) ->
  fst (deleteTransaction id s) = None
  /\ state (snd (deleteTransaction id s)) = state s
  /\ service (snd (deleteTransaction id s)) = service (persist s)
  /\ notified (snd (deleteTransaction id s))
     = notified s ++ [(state s, D_transactions_delete None)].
Proof.
  intros H. pose proof (id_absent id _ H) as Hid.
  assert (F : find (fun tx => (tx_id tx =? id)%string) (transactions (state s)) = None)
    by (apply find_absent, Hid).
  assert (K : filter (fun tx => negb (tx_id tx =? id)%string) (transactions (state s))
              = transactions (state s)).
  { apply filter_keeps. intros tx Hin. now rewrite (Hid tx Hin). }
  unfold deleteTransaction. rewrite F, K. cbn [fst snd].
  assert (E : set_state (set_transactions (transactions (state s)) (state s)) s = s)
    by (destruct s as [[] ? ? ?]; reflexivity).
  rewrite E. repeat split.
Qed.

Lemma deleteTransaction_unknown_id_witness :
  ~ In "Z" (map tx_id (transactions (state (with_transactions [tx_A; tx_B]))))
  /\ fst (deleteTransaction "Z" (with_transactions [tx_A; tx_B])) = None
  /\ state (snd (deleteTransaction "Z" (with_transactions [tx_A; tx_B])))
     = state (with_transactions [tx_A; tx_B]).
Proof.
  assert (H : ~ In "Z" (map tx_id (transactions (state (with_transactions [tx_A; tx_B])))))
    by (simpl; intuition discriminate).
  split; [exact H|].
  destruct (deleteTransaction_unknown_id "Z" (with_transactions [tx_A; tx_B]) H)
    as (R & S & _).
  split; [exact R|exact S].
Defined.

(** [deleteTransaction] removes every record that has the identifier,
    returns the first of them, and keeps every other record, in the order
    they were in. *)
Theorem deleteTransaction_removes (id : string) (s : Store) :
  let removed := fst (deleteTransaction id s) in
  let after := transactions (state (snd (deleteTransaction id s))) in
  after = filter (fun tx => negb (tx_id tx =? id)%string) (transactions (state s))
  /\ ~ In id (map tx_id after)
  /\ (forall tx, In tx after <-> In tx (transactions (state s)) /\ tx_id tx <> id)
  /\ (In id (map tx_id (transactions (state s))) <->
      exists tx, removed = Some tx)
  /\ (forall tx, removed = Some tx ->
        first_with_id tx_id tx (transactions (state s)) /\ tx_id tx = id).
Proof.
  intros removed after.
  assert (A : after = filter (fun tx => negb (tx_id tx =? id)%string)
                        (transactions (state s))) by apply transactions_delete.
  assert (I : forall tx, In tx after <-> In tx (transactions (state s)) /\ tx_id tx <> id).
  { intros tx. rewrite A, filter_In, negb_true_iff, String.eqb_neq. reflexivity. }
  split; [exact A|]. split; [|split; [exact I|split]].
  - intros Hin. apply in_map_iff in Hin as (tx & E & Hin). apply I in Hin. tauto.
  - subst removed. unfold deleteTransaction. cbn [fst]. split.
    + intros Hin. apply in_map_iff in Hin as (tx & E & Hin).
      destruct (find _ _) as [t|] eqn:F; [now exists t|].
      apply (find_none _ _ F) in Hin. apply String.eqb_neq in Hin. contradiction.
    + intros [tx F]. apply find_some in F as [Hin E]. apply String.eqb_eq in E.
      subst id. now apply in_map.
  - subst removed. unfold deleteTransaction. cbn [fst]. intros tx F.
    pose proof (find_some _ _ F) as [_ E]. apply String.eqb_eq in E. subst id.
    split; [exact F|reflexivity].
Qed.

(** ** Adding a transaction *)

Lemma addTransaction_fst {collation : Collation} (e : Env) (d : Draft) (s : Store) :
  fst (addTransaction e d s) = buildTransaction e (state s) d.
Proof. reflexivity. Qed.

(** [addTransaction] returns the record it built, under the identifier
    drawn from the clock and the random source, and the collection
    afterwards holds that record and the records it held, each as many
    times as before: nothing is dropped and nothing is duplicated. *)
Theorem addTransaction_adds_one {collation : Collation} (e : Env) (d : Draft) (s : Store) :
  let added := fst (addTransaction e d s) in
  let after := transactions (state (snd (addTransaction e d s))) in
  tx_id added = createId e KTransactions 0
  /\ Permutation (added :: transactions (state s)) after
  /\ List.length after = S (List.length (transactions (state s)))
  /\ categories (state (snd (addTransaction e d s))) = categories (state s)
  /\ recurring (state (snd (addTransaction e d s))) = recurring (state s)
  /\ settings (state (snd (addTransaction e d s))) = settings (state s).
Proof.
  intros added after. subst added after. rewrite transactions_add, addTransaction_fst.
  split; [reflexivity|]. split; [|split; [|repeat split]].
  - etransitivity; [|apply sort_perm].
    apply Permutation_cons_append.
  - rewrite sort_length, length_app. simpl. lia.
Qed.

Lemma find_insert_new {A : Type} (cmp : A -> A -> Z) (p : A -> bool) (x : A) (l : list A) :
  p x = true -> (forall y, In y l -> p y = false) -> find p (insert cmp x l) = Some x.
Proof.
  intros Hx. induction l as [|a l IH]; intros H; simpl; [now rewrite Hx|].
  destruct (cmp a x <=? 0); simpl.
  - rewrite (H a) by now left. apply IH. intros y Hy. apply H. now right.
  - now rewrite Hx.
Qed.

(** Deleting the record that [addTransaction] has just returned gives
    that record back and restores the collection, when the collection was
    in feed order, every record in the order of [compareTransactionsDesc]
    with every record after it, and the new identifier was not in use. *)
Theorem delete_after_add {collation : Collation} (e : Env) (d : Draft) (s : Store) :
  feed_order (transactions (state s)) ->
  ~ In (createId e KTransactions 0) (map tx_id (transactions (state s))) ->
  let added := fst (addTransaction e d s) in
  let s' := snd (addTransaction e d s) in
  fst (deleteTransaction (tx_id added) s') = Some added
  /\ state (snd (deleteTransaction (tx_id added) s')) = state s.
Proof.
  intros Hs Hfresh added s'. pose proof (id_absent _ _ Hfresh) as Hid.
  assert (T : transactions (state s')
              = insert compareTransactionsDesc added (transactions (state s))).
  { subst s' added. rewrite transactions_add, sort_snoc, (sort_feed_order_id _ Hs).
    reflexivity. }
  assert (I : tx_id added = createId e KTransactions 0) by reflexivity.
  split.
  - unfold deleteTransaction. cbn [fst]. rewrite T. apply find_insert_new.
    + apply String.eqb_refl.
    + intros y Hy. rewrite I. now apply Hid.
  - assert (F : transactions (state (snd (deleteTransaction (tx_id added) s')))
                = transactions (state s)).
    { rewrite transactions_delete, T, filter_insert_out.
      - apply filter_keeps. intros y Hy. rewrite I, (Hid y Hy). reflexivity.
      - now rewrite String.eqb_refl. }
    revert F. unfold deleteTransaction. cbn [snd]. rewrite state_notify, state_persist.
    cbn [state set_state set_transactions transactions]. intros ->.
    subst s'. unfold addTransaction. cbn [snd]. rewrite state_notify, state_persist.
    cbn [state set_state set_transactions settings categories recurring month corruption].
    destruct (state s). reflexivity.
Qed.

Lemma delete_after_add_witness :
  feed_order (transactions (state (with_transactions [tx_A; tx_B])))
  /\ ~ In (createId sample_env KTransactions 0)
         (map tx_id (transactions (state (with_transactions [tx_A; tx_B]))))
  /\ state
       (snd (deleteTransaction
               (tx_id (fst (addTransaction sample_env zero_draft
                              (with_transactions [tx_A; tx_B]))))
               (snd (addTransaction sample_env zero_draft
                       (with_transactions [tx_A; tx_B])))))
     = state (with_transactions [tx_A; tx_B]).
Proof.
  assert (S : feed_order (transactions (state (with_transactions [tx_A; tx_B]))))
    by (unfold feed_order; sample_order).
  assert (F : ~ In (createId sample_env KTransactions 0)
                (map tx_id (transactions (state (with_transactions [tx_A; tx_B])))))
    by (simpl; intuition discriminate).
  split; [exact S|]. split; [exact F|].
  exact (proj2 (delete_after_add sample_env zero_draft (with_transactions [tx_A; tx_B]) S F)).
Defined.

(** ** Undoing a deletion *)

Lemma buildTransaction_draft_of (e : Env) (st : State) (t : Transaction) :
  is_amount (tx_amount_cents t) -> resolved st t ->
  buildTransaction e st (draft_of t) = with_id (createId e KTransactions 0) t.
Proof.
  intros A R. pose proof (is_amount_max _ A) as M. destruct A as (_ & T & _).
  unfold buildTransaction, draft_of, with_id, resolved in *.
  cbn [d_type d_amount_cents d_description d_category_id d_bucket d_date_iso].
  rewrite T, M.
  destruct t as [i ty a de c b da]. cbn [tx_type tx_category_id tx_bucket] in *.
  destruct ty.
  - destruct R as [-> ->]. reflexivity.
  - destruct b as [b|]; [reflexivity|].
    destruct (truthy_ref c) eqn:C; [|reflexivity].
    now rewrite (R eq_refl eq_refl).
Qed.

(** The undo of a deletion hands the removed record, spread into a
    draft, to [addTransaction].  For a record whose amount is an integer
    and whose bucket is the one its category gives, the record that comes
    back has the type, the amount, the description, the category, the
    bucket and the timestamp of the removed one, under the identifier
    that [createId] draws for it: the identifier it had is not restored.
    The collection then holds the record that came back and the records
    that the deletion had left. *)
Theorem undo_restores_under_new_id {collation : Collation} (e : Env) (t : Transaction) (s : Store) :
  is_amount (tx_amount_cents t) ->
  resolved (state s) t ->
  let s1 := snd (deleteTransaction (tx_id t) s) in
  let restored := fst (addTransaction e (draft_of t) s1) in
  restored = with_id (createId e KTransactions 0) t
  /\ Permutation
       (restored :: filter (fun tx => negb (tx_id tx =? tx_id t)%string)
                      (transactions (state s)))
       (transactions (state (snd (addTransaction e (draft_of t) s1)))).
Proof.
  intros A R s1 restored.
  assert (E : restored = with_id (createId e KTransactions 0) t).
  { subst restored. rewrite addTransaction_fst. apply buildTransaction_draft_of; [exact A|].
    unfold resolved, getCategoryBucket in *. exact R. }
  split; [exact E|].
  rewrite transactions_add. fold restored. subst s1. rewrite transactions_delete.
  etransitivity; [|apply sort_perm]. apply Permutation_cons_append.
Qed.

Lemma tx_A_amount : is_amount (tx_amount_cents tx_A).
Proof. split; [reflexivity|]. split; [reflexivity|]. right. reflexivity. Qed.

Lemma undo_restores_under_new_id_witness :
  is_amount (tx_amount_cents tx_A)
  /\ resolved (state (with_transactions [tx_A; tx_B])) tx_A
  /\ fst (addTransaction sample_env (draft_of tx_A)
            (snd (deleteTransaction (tx_id tx_A) (with_transactions [tx_A; tx_B]))))
     = with_id (createId sample_env KTransactions 0) tx_A.
Proof.
  assert (R : resolved (state (with_transactions [tx_A; tx_B])) tx_A)
    by (intros _ H; discriminate H).
  split; [exact tx_A_amount|]. split; [exact R|].
  exact (proj1 (undo_restores_under_new_id sample_env tx_A
                  (with_transactions [tx_A; tx_B]) tx_A_amount R)).
Defined.

(** ** Updating a transaction *)

Lemma updateTransaction_unique {collation : Collation} (u : Updates) (s : Store)
    (l1 l2 : list Transaction) (tx : Transaction) :
  transactions (state s) = l1 ++ tx :: l2 ->
  ~ In (tx_id tx) (map tx_id (l1 ++ l2)) ->
  fst (updateTransaction (tx_id tx) u s) = Some (mergeTransaction (state s) tx u)
  /\ transactions (state (snd (updateTransaction (tx_id tx) u s)))
     = sort compareTransactionsDesc (l1 ++ mergeTransaction (state s) tx u :: l2).
Proof.
  intros E N. rewrite map_app, in_app_iff in N.
  assert (N1 : ~ In (tx_id tx) (map tx_id l1)) by tauto.
  assert (N2 : ~ In (tx_id tx) (map tx_id l2)) by tauto.
  unfold updateTransaction. cbn [fst snd]. rewrite state_notify, state_persist.
  cbn [state set_state set_transactions transactions]. rewrite E. split.
  - rewrite update_target_app. cbn [update_target]. rewrite String.eqb_refl.
    now rewrite (update_target_absent _ _ _ l2 _ N2).
  - f_equal. rewrite map_app. cbn [map]. rewrite String.eqb_refl. cbn [negb].
    rewrite !map_unchanged; [reflexivity| |].
    + intros x Hx. now rewrite (id_absent _ _ N2 x Hx).
    + intros x Hx. now rewrite (id_absent _ _ N1 x Hx).
Qed.

(** [updateTransaction] with an identifier that no record has returns
    [null] and changes no record; it sorts the collection all the same,
    so that the state is the one before when the collection was in feed
    order, every record in the order of [compareTransactionsDesc] with
    every record after it.  On a platform whose [localeCompare] is a
    consistent comparison that tells the timestamps of the collection
    apart, the state is the one before only then. *)
Theorem updateTransaction_unknown_id {collation : Collation} (id : string) (u : Updates)
    (s : Store) :
  ~ In id (map tx_id (transactions (state s))) ->
  fst (updateTransaction id u s) = None
  /\ transactions (state (snd (updateTransaction id u s)))
     = sort compareTransactionsDesc (transactions (state s))
  /\ (feed_order (transactions (state s)) ->
      state (snd (updateTransaction id u s)) = state s)
  /\ (consistent collation ->
      told_apart (map tx_date_iso (transactions (state s))) ->
      state (snd (updateTransaction id u s)) = state s ->
      feed_order (transactions (state s))).
Proof.
  intros N. pose proof (id_absent _ _ N) as Hid.
  assert (T : transactions (state (snd (updateTransaction id u s)))
              = sort compareTransactionsDesc (transactions (state s))).
  { unfold updateTransaction. cbn [snd]. rewrite state_notify, state_persist.
    cbn [state set_state set_transactions transactions]. f_equal.
    apply map_unchanged. intros x Hx. now rewrite (Hid x Hx). }
  split; [|split; [exact T|split]].
  - unfold updateTransaction. cbn [fst]. now apply update_target_absent.
  - intros S. rewrite (sort_feed_order_id _ S) in T. revert T.
    unfold updateTransaction. cbn [snd]. rewrite state_notify, state_persist.
    cbn [state set_state set_transactions transactions]. intros ->.
    destruct (state s). reflexivity.
  - intros C A E. rewrite E in T. rewrite T. now apply sort_feed_order.
Qed.

Lemma updateTransaction_unknown_id_witness :
  ~ In "Z" (map tx_id (transactions (state (with_transactions [tx_A; tx_B]))))
  /\ fst (updateTransaction "Z" rent_to_fun (with_transactions [tx_A; tx_B])) = None
  /\ transactions
       (state (snd (updateTransaction "Z" rent_to_fun (with_transactions [tx_A; tx_B]))))
     = sort compareTransactionsDesc
         (transactions (state (with_transactions [tx_A; tx_B])))
  /\ state (snd (updateTransaction "Z" rent_to_fun (with_transactions [tx_A; tx_B])))
     = state (with_transactions [tx_A; tx_B]).
Proof.
  assert (H : ~ In "Z" (map tx_id (transactions (state (with_transactions [tx_A; tx_B])))))
    by (simpl; intuition discriminate).
  split; [exact H|].
  destruct (updateTransaction_unknown_id "Z" rent_to_fun (with_transactions [tx_A; tx_B]) H)
    as (R & T & K & _).
  split; [exact R|]. split; [exact T|]. apply K. unfold feed_order. sample_order.
Defined.

Lemma merged_amount (x : number) :
  x <> S754_infinity false ->
  is_amount (Num.max Num.zero (Num.trunc (Num.or_zero x))).
Proof.
  intros H. destruct x as [s|s| |s m e].
  - split; [reflexivity|]. split; [reflexivity|]. now left.
  - destruct s; [|congruence]. split; [reflexivity|]. split; [reflexivity|]. now left.
  - split; [reflexivity|]. split; [reflexivity|]. now left.
  - exact (coerce_amount_is_amount (JNum (S754_finite s m e))).
Qed.

(** When one record has the identifier, [updateTransaction] returns the
    merged record, and the collection afterwards holds the merged record
    in place of the old one and every other record as it was.  The merged
    record keeps the identifier unless the updates carry one; an income
    has neither category nor bucket; and the amount is [+0] or a positive
    integer unless the amount asked for is [Infinity]. *)
Theorem updateTransaction_replaces_one {collation : Collation} (u : Updates) (s : Store)
    (l1 l2 : list Transaction) (tx : Transaction) :
  transactions (state s) = l1 ++ tx :: l2 ->
  ~ In (tx_id tx) (map tx_id (l1 ++ l2)) ->
  exists merged,
    fst (updateTransaction (tx_id tx) u s) = Some merged
    /\ Permutation (merged :: l1 ++ l2)
         (transactions (state (snd (updateTransaction (tx_id tx) u s))))
    /\ (u_id u = None -> tx_id merged = tx_id tx)
    /\ (tx_type merged = income ->
        tx_category_id merged = None /\ tx_bucket merged = None)
    /\ (override (tx_amount_cents tx) (u_amount_cents u) <> S754_infinity false ->
        is_amount (tx_amount_cents merged)).
Proof.
  intros E N. destruct (updateTransaction_unique u s l1 l2 tx E N) as [R T].
  exists (mergeTransaction (state s) tx u). split; [exact R|]. split; [|split; [|split]].
  - rewrite T. etransitivity; [|apply sort_perm]. apply Permutation_middle.
  - intros I. unfold mergeTransaction. cbn [tx_id]. now rewrite I.
  - unfold mergeTransaction. cbn [tx_type tx_category_id tx_bucket].
    intros ->. split; reflexivity.
  - intros F. unfold mergeTransaction. cbn [tx_amount_cents]. now apply merged_amount.
Qed.

Lemma updateTransaction_replaces_one_witness :
  transactions (state store_with_rent) = [] ++ rent_50000 :: []
  /\ ~ In (tx_id rent_50000) (map tx_id ([] ++ []))
  /\ exists merged,
       fst (updateTransaction (tx_id rent_50000) rent_to_fun store_with_rent) = Some merged
       /\ Permutation (merged :: [] ++ [])
            (transactions
               (state (snd (updateTransaction (tx_id rent_50000) rent_to_fun
                              store_with_rent)))).
Proof.
  assert (E : transactions (state store_with_rent) = [] ++ rent_50000 :: []) by reflexivity.
  assert (N : ~ In (tx_id rent_50000) (map (@tx_id string) ([] ++ [])))
    by (intros H; exact H).
  split; [exact E|]. split; [exact N|].
  destruct (updateTransaction_replaces_one rent_to_fun store_with_rent [] [] rent_50000 E N)
    as (m & R & P & _).
  exists m. split; [exact R|exact P].
Defined.

(** An expense that has a bucket keeps it when [updateTransaction]
    changes its category: the bucket of the new category is looked up
    only for a record without a valid bucket.  The edit dialog sends the
    amount, the description and the category, never a bucket. *)
Theorem updateTransaction_keeps_bucket {collation : Collation} (u : Updates) (s : Store)
    (l1 l2 : list Transaction) (tx : Transaction) (b : Bucket) :
  transactions (state s) = l1 ++ tx :: l2 ->
  ~ In (tx_id tx) (map tx_id (l1 ++ l2)) ->
  tx_type tx = expense -> tx_bucket tx = Some b ->
  u_type u = None -> u_bucket u = None ->
  exists merged,
    fst (updateTransaction (tx_id tx) u s) = Some merged
    /\ In merged (transactions (state (snd (updateTransaction (tx_id tx) u s))))
    /\ tx_category_id merged = override (tx_category_id tx) (u_category_id u)
    /\ tx_bucket merged = Some b.
Proof.
  intros E N Ty B UT UB. destruct (updateTransaction_unique u s l1 l2 tx E N) as [R T].
  exists (mergeTransaction (state s) tx u). split; [exact R|]. split; [|split].
  - rewrite T. apply sort_In, in_or_app. right. now left.
  - unfold mergeTransaction. cbn [tx_category_id]. now rewrite UT, Ty.
  - unfold mergeTransaction. cbn [tx_bucket]. now rewrite UT, UB, Ty, B.
Qed.

Lemma updateTransaction_keeps_bucket_witness :
  exists merged,
    fst (updateTransaction (tx_id rent_50000) rent_to_fun store_with_rent) = Some merged
    /\ tx_category_id merged = Some "fun"
    /\ getCategoryBucket (state store_with_rent) (tx_category_id merged) = Some Leisure
    /\ tx_bucket merged = Some Necessities.
Proof.
  destruct (updateTransaction_keeps_bucket rent_to_fun store_with_rent [] [] rent_50000
              Necessities eq_refl (fun H => H) eq_refl eq_refl eq_refl eq_refl)
    as (m & R & _ & C & B).
  exists m. split; [exact R|]. split; [exact C|]. split; [|exact B].
  rewrite C. reflexivity.
Defined.

(** ** Storage *)

Lemma json_DEFAULT_SETTINGS : json (JObj DEFAULT_SETTINGS) = JObj DEFAULT_SETTINGS.
Proof. reflexivity. Qed.

Lemma json_category (c : Category) : json (category_js JStr c) = category_js JStr c.
Proof. reflexivity. Qed.

Lemma json_amount (a : number) : is_amount a -> json (JNum a) = JNum a.
Proof.
  intros (F & _ & [-> | G]); [reflexivity|].
  destruct a as [s|s| |s m e]; try discriminate; reflexivity.
Qed.

Lemma json_ref (c : option string) : json (opt_js JStr c) = opt_js JStr c.
Proof. destruct c; reflexivity. Qed.

Lemma json_bucket (b : option Bucket) : json (opt_js bucket_js b) = opt_js bucket_js b.
Proof. destruct b; reflexivity. Qed.

Lemma json_transaction (t : Transaction) :
  is_amount (tx_amount_cents t) -> json (transaction_js JStr t) = transaction_js JStr t.
Proof.
  destruct t as [i ty a de c b da]. cbn [tx_amount_cents]. intros (F & _ & Z).
  destruct a as [s|s| |s m e]; try discriminate F.
  - destruct Z as [Z | Z]; [|destruct s; discriminate Z]. injection Z as ->.
    destruct ty, c, b; reflexivity.
  - destruct ty, c, b; reflexivity.
Qed.

Lemma json_recurring (r : Recurring) :
  is_amount (rec_default_amount_cents r) -> json (recurring_js JStr r) = recurring_js JStr r.
Proof.
  destruct r as [i de a c]. cbn [rec_default_amount_cents]. intros (F & _ & Z).
  destruct a as [s|s| |s m e]; try discriminate F.
  - destruct Z as [Z | Z]; [|destruct s; discriminate Z]. injection Z as ->.
    destruct c; reflexivity.
  - destruct c; reflexivity.
Qed.

Lemma json_array {A : Type} (h : A -> jsval) (P : A -> Prop) (l : list A) :
  (forall a, P a -> json (h a) = h a) -> Forall P l ->
  json (JArr (map h l)) = JArr (map h l).
Proof.
  intros H F. cbn [json]. f_equal. rewrite map_map. apply map_ext_in.
  intros a Ha. apply H. rewrite Forall_forall in F. now apply F.
Qed.

Lemma filter_Boolean_records {A : Type} (h : A -> jsval) (l : list A) :
  (forall a, truthy (h a) = true) ->
  filter_Boolean (JArr (map h l)) = JArr (map h l).
Proof.
  intros H. unfold filter_Boolean. cbn [array_items]. f_equal.
  apply filter_keeps. intros x Hx. apply in_map_iff in Hx as (a & <- & _). apply H.
Qed.

(** What [persist] leaves in storage. *)
Lemma persist_storage (s : Store) :
  localStorage (service (persist s))
  = mkLocalStorage
      (Json (json (JArr (map (transaction_js JStr) (transactions (state s))))))
      (Json (json (JArr (map (category_js JStr) (categories (state s))))))
      (Json (json (JArr (map (recurring_js JStr) (recurring (state s))))))
      (Json (json (JObj (settings (state s))))).
Proof. reflexivity. Qed.

(** On a storage whose four keys hold usable values, [init] changes
    nothing and [getSnapshot] reads the values as they are. *)
Lemma init_usable (boot : Env) (st : jsval) (cs ts rs : list jsval) (ck : list Key) :
  truthy st = true ->
  strict_eq_num (get "schema_version" st) STORAGE_VERSION = true ->
  StorageService_init boot
    (mkService (mkLocalStorage (Json (JArr ts)) (Json (JArr cs)) (Json (JArr rs)) (Json st)) ck)
  = mkService (mkLocalStorage (Json (JArr ts)) (Json (JArr cs)) (Json (JArr rs)) (Json st)) [].
Proof.
  intros T V. unfold StorageService_init, ensureDefaults, read.
  cbn [localStorage getItem BW_V1_SETTINGS BW_V1_CATEGORIES BW_V1_TRANSACTIONS
         BW_V1_RECURRING]. rewrite T, V. reflexivity.
Qed.

Lemma getSnapshot_usable (st : jsval) (cs ts rs : list jsval) (ck : list Key) :
  getSnapshot
    (mkService (mkLocalStorage (Json (JArr ts)) (Json (JArr cs)) (Json (JArr rs)) (Json st)) ck)
  = (mkSnapshot st (filter_Boolean (JArr cs)) (filter_Boolean (JArr ts))
       (filter_Boolean (JArr rs)),
     mkService (mkLocalStorage (Json (JArr ts)) (Json (JArr cs)) (Json (JArr rs)) (Json st)) ck).
Proof. reflexivity. Qed.

Lemma transaction_js_truthy (t : Transaction) : truthy (transaction_js JStr t) = true.
Proof. reflexivity. Qed.

Lemma stored_amounts (ts : list Transaction) :
  Forall stored_transaction ts -> Forall (fun t => is_amount (tx_amount_cents t)) ts.
Proof. apply Forall_impl. intros t (_ & A & _). exact A. Qed.

Lemma stored_template_amounts (rs : list Recurring) :
  Forall stored_recurring rs -> Forall (fun r => is_amount (rec_default_amount_cents r)) rs.
Proof. apply Forall_impl. intros r (_ & A & _). exact A. Qed.

(** ** Reloading *)

(** What the operations persist is what the next page load reads.  For a
    store whose state is normal, whose settings hold JSON values and
    whose storage is in step with the state, as it is after [persist],
    [init] returns, and the state it builds has the same settings,
    categories, transactions and templates, with no corruption noted;
    the storage is left as it was. *)
Theorem reload_restores_the_state (e : Env) (s : Store) :
  sound s ->
  exists s',
    init e s = Return tt s'
    /\ state s' = reloaded (state s)
    /\ localStorage (service s') = localStorage (service s).
Proof.
  intros ((Hs & Hc & Ht & Hr) & J & Y).
  pose proof (json_array (category_js JStr) (fun _ => True) (categories (state s))
                (fun c _ => json_category c)) as Jc.
  pose proof (json_array (transaction_js JStr) _ (transactions (state s))
                json_transaction (stored_amounts _ Ht)) as Jt.
  pose proof (json_array (recurring_js JStr) _ (recurring (state s))
                json_recurring (stored_template_amounts _ Hr)) as Jr.
  assert (Jc' : json (JArr (map (category_js JStr) (categories (state s))))
                = JArr (map (category_js JStr) (categories (state s))))
    by (apply Jc, Forall_forall; trivial).
  clear Jc. unfold in_sync in Y. rewrite persist_storage, J, Jc', Jt, Jr in Y.
  unfold init. destruct (service s) as [ls ck] eqn:Sv.
  cbn [localStorage] in Y. subst ls. rewrite init_usable.
  - unfold loadFromStorage. cbn [service]. rewrite getSnapshot_usable.
    rewrite !filter_Boolean_records by reflexivity.
    unfold typed_collections. cbn [snap_categories snap_transactions snap_recurring
                                     snap_settings].
    rewrite (normalize_stored_categories e _ Hc).
    rewrite (normalize_stored_transactions e _ Ht).
    rewrite (normalize_stored_recurring e _ Hr).
    rewrite (normalizeSettings_fixed _ Hs).
    eexists. split; [reflexivity|]. split; reflexivity.
  - reflexivity.
  - destruct Hs as [_ _ V _ _ _ _]. unfold strict_eq_num, get. rewrite V.
    apply STORAGE_VERSION_eqb.
Qed.

Lemma persist_in_sync (s : Store) : in_sync (persist s).
Proof. reflexivity. Qed.

Lemma with_transactions_sound : sound (persist (with_transactions [tx_A; tx_B])).
Proof.
  split; [exact with_transactions_normal|]. split; [reflexivity|apply persist_in_sync].
Qed.

Lemma reload_restores_the_state_witness :
  sound (persist (with_transactions [tx_A; tx_B]))
  /\ exists s',
       init sample_env (persist (with_transactions [tx_A; tx_B])) = Return tt s'
       /\ state s' = reloaded (state (with_transactions [tx_A; tx_B])).
Proof.
  split; [exact with_transactions_sound|].
  destruct (reload_restores_the_state sample_env _ with_transactions_sound)
    as (s' & I & S & _).
  exists s'. split; [exact I|exact S].
Defined.

(** ** Starting on any storage *)

(** [ensureDefaults] treats the four keys one after the other, each
    with its own test and its own default. *)
Lemma ensureDefaults_steps (boot : Env) (s : StorageService) :
  let ensure := fun (k : Key) (ok : jsval -> bool) (d : jsval) (s : StorageService) =>
                  let '(v, s') := read k JNull s in
                  if negb (ok v) then write k d s' else s' in
  ensureDefaults boot s
  = ensure KRecurring is_array (JArr [])
      (ensure KTransactions is_array (JArr [])
         (ensure KCategories is_array
            (JArr (map (category_js JStr) (DEFAULT_CATEGORIES boot)))
            (ensure KSettings
               (fun v => truthy v
                         && strict_eq_num (get "schema_version" v) STORAGE_VERSION)
               (JObj DEFAULT_SETTINGS) s))).
Proof.
  intros ensure. unfold ensure, ensureDefaults.
  destruct (read KSettings JNull s) as [v1 s1]. rewrite negb_andb.
  destruct (read KCategories JNull _) as [v2 s2].
  destruct (read KTransactions JNull _) as [v3 s3].
  reflexivity.
Qed.

Lemma ensure_spec (k : Key) (ok : jsval -> bool) (d : jsval) (sv : StorageService) :
  ok JNull = false ->
  (let '(v, s') := read k JNull sv in if negb (ok v) then write k d s' else s')
  = mkService
      (if match getItem k (localStorage sv) with Json v => ok v | _ => false end
       then localStorage sv
       else setItem k (Json (json d)) (localStorage sv))
      (if is_corrupt (getItem k (localStorage sv))
       then if existsb (key_eqb k) (corruptedKeys sv) then corruptedKeys sv
            else corruptedKeys sv ++ [k]
       else corruptedKeys sv).
Proof.
  intros H. destruct sv as [ls ck]. unfold read, write.
  cbn [localStorage corruptedKeys].
  destruct (getItem k ls) as [| |v]; cbn [is_corrupt localStorage corruptedKeys];
    rewrite ?H; cbn [negb]; try reflexivity.
  destruct (ok v); reflexivity.
Qed.

Lemma init_spec (boot : Env) (sv : StorageService) :
  StorageService_init boot sv
  = mkService
      (mkLocalStorage
         (if usable_array (BW_V1_TRANSACTIONS (localStorage sv))
          then BW_V1_TRANSACTIONS (localStorage sv) else Json (JArr []))
         (if usable_array (BW_V1_CATEGORIES (localStorage sv))
          then BW_V1_CATEGORIES (localStorage sv)
          else Json (JArr (map (category_js JStr) (DEFAULT_CATEGORIES boot))))
         (if usable_array (BW_V1_RECURRING (localStorage sv))
          then BW_V1_RECURRING (localStorage sv) else Json (JArr []))
         (if usable_settings (BW_V1_SETTINGS (localStorage sv))
          then BW_V1_SETTINGS (localStorage sv) else Json (JObj DEFAULT_SETTINGS)))
      (filter (fun k => is_corrupt (getItem k (localStorage sv))) STORAGE_KEYS).
Proof.
  unfold StorageService_init. rewrite ensureDefaults_steps. cbv zeta beta.
  rewrite !ensure_spec by reflexivity.
  destruct sv as [[t c r st] ck].
  cbn [localStorage corruptedKeys getItem setItem BW_V1_SETTINGS BW_V1_CATEGORIES
         BW_V1_TRANSACTIONS BW_V1_RECURRING].
  unfold usable_array, usable_settings, STORAGE_KEYS.
  cbn [filter getItem BW_V1_SETTINGS BW_V1_CATEGORIES BW_V1_TRANSACTIONS BW_V1_RECURRING].
  destruct st as [| |vs];
    [| |destruct (truthy vs && strict_eq_num (get "schema_version" vs) STORAGE_VERSION)];
    cbn [is_corrupt getItem setItem BW_V1_SETTINGS BW_V1_CATEGORIES BW_V1_TRANSACTIONS
           BW_V1_RECURRING localStorage corruptedKeys existsb app key_eqb];
    (destruct c as [| |vc]; [| |destruct (is_array vc)]);
    cbn [is_corrupt getItem setItem BW_V1_SETTINGS BW_V1_CATEGORIES BW_V1_TRANSACTIONS
           BW_V1_RECURRING localStorage corruptedKeys existsb app key_eqb orb];
    (destruct t as [| |vt]; [| |destruct (is_array vt)]);
    cbn [is_corrupt getItem setItem BW_V1_SETTINGS BW_V1_CATEGORIES BW_V1_TRANSACTIONS
           BW_V1_RECURRING localStorage corruptedKeys existsb app key_eqb orb];
    (destruct r as [| |vr]; [| |destruct (is_array vr)]);
    reflexivity.
Qed.

Lemma init_getItem (boot : Env) (sv : StorageService) (k : Key) :
  getItem k (localStorage (StorageService_init boot sv))
  = if usable k (getItem k (localStorage sv)) then getItem k (localStorage sv)
    else Json (default_value boot k).
Proof. rewrite init_spec. destruct k; reflexivity. Qed.

Lemma usable_default (boot : Env) (k : Key) : usable k (Json (default_value boot k)) = true.
Proof. destruct k; reflexivity. Qed.

Lemma usable_not_corrupt (k : Key) (it : item) : usable k it = true -> is_corrupt it = false.
Proof. destruct k, it; (discriminate || reflexivity). Qed.

Lemma init_makes_usable (boot : Env) (sv : StorageService) (k : Key) :
  usable k (getItem k (localStorage (StorageService_init boot sv))) = true.
Proof.
  rewrite init_getItem. destruct (usable k (getItem k (localStorage sv))) eqn:U; [exact U|].
  apply usable_default.
Qed.

Lemma init_corrupted (boot : Env) (sv : StorageService) (k : Key) :
  In k (corruptedKeys (StorageService_init boot sv))
  <-> getItem k (localStorage sv) = Corrupt.
Proof.
  rewrite init_spec. cbn [corruptedKeys]. rewrite filter_In. split.
  - intros [_ C]. destruct (getItem k (localStorage sv)); (discriminate || reflexivity).
  - intros ->. split; [|reflexivity]. destruct k; simpl; tauto.
Qed.

(** [StorageService.init], on any content of the storage: a key that
    holds a usable value (an array for a collection, a truthy value with
    the current [schema_version] for the settings) is left as it is; any
    other key, whether missing, unparsable or of another shape or
    version, is overwritten with its default; and the keys reported as
    corrupted are those whose text did not parse, whatever was reported
    before. *)
Theorem StorageService_init_repairs (boot : Env) (sv : StorageService) (k : Key) :
  let before := getItem k (localStorage sv) in
  let after := getItem k (localStorage (StorageService_init boot sv)) in
  (usable k before = true -> after = before)
  /\ (usable k before = false -> after = Json (default_value boot k))
  /\ usable k after = true
  /\ (In k (corruptedKeys (StorageService_init boot sv)) <-> before = Corrupt)
  /\ NoDup (corruptedKeys (StorageService_init boot sv)).
Proof.
  intros before after. subst before after.
  split; [|split; [|split; [|split]]].
  - intros U. now rewrite init_getItem, U.
  - intros U. now rewrite init_getItem, U.
  - apply init_makes_usable.
  - apply init_corrupted.
  - rewrite init_spec. cbn [corruptedKeys]. apply NoDup_filter.
    repeat (constructor; [simpl; intuition discriminate|]). constructor.
Qed.

Lemma init_on_usable (boot : Env) (sv : StorageService) :
  (forall k, usable k (getItem k (localStorage sv)) = true) ->
  StorageService_init boot sv = mkService (localStorage sv) [].
Proof.
  intros U. rewrite init_spec.
  pose proof (U KSettings) as Us. pose proof (U KCategories) as Uc.
  pose proof (U KTransactions) as Ut. pose proof (U KRecurring) as Ur.
  unfold STORAGE_KEYS. cbn [filter].
  rewrite (usable_not_corrupt _ _ Us), (usable_not_corrupt _ _ Uc),
    (usable_not_corrupt _ _ Ut), (usable_not_corrupt _ _ Ur).
  cbn [usable getItem] in Us, Uc, Ut, Ur. rewrite Us, Uc, Ut, Ur.
  destruct sv as [[] ?]. reflexivity.
Qed.

Lemma getSnapshot_on_usable (sv : StorageService) :
  (forall k, usable k (getItem k (localStorage sv)) = true) ->
  snd (getSnapshot sv) = sv.
Proof.
  intros U.
  pose proof (U KSettings) as Us. pose proof (U KCategories) as Uc.
  pose proof (U KTransactions) as Ut. pose proof (U KRecurring) as Ur.
  destruct sv as [[t c r st] ck]. cbn [usable getItem localStorage BW_V1_SETTINGS
    BW_V1_CATEGORIES BW_V1_TRANSACTIONS BW_V1_RECURRING] in Us, Uc, Ut, Ur.
  destruct st as [| |vs]; try discriminate Us.
  destruct c as [| |vc]; try discriminate Uc.
  destruct t as [| |vt]; try discriminate Ut.
  destruct r as [| |vr]; try discriminate Ur.
  reflexivity.
Qed.

(** What [Store.init] leaves behind, when it returns. *)
Lemma init_Return (e : Env) (s s' : Store) :
  init e s = Return tt s' ->
  service s' = StorageService_init (boot s) (service s)
  /\ corruption (state s') = corruptedKeys (StorageService_init (boot s) (service s))
  /\ boot s' = boot s.
Proof.
  unfold init, loadFromStorage. cbn [service state notified boot].
  pose proof (getSnapshot_on_usable _ (init_makes_usable (boot s) (service s))) as G.
  destruct (getSnapshot (StorageService_init (boot s) (service s))) as [snap sv].
  cbn [snd] in G. subst sv.
  destruct (typed_collections e snap) as [[[cs ts] rs]|]; [|discriminate].
  intros [= <-]. repeat split.
Qed.

(** A corrupted key is reported once.  The first [Store.init] notes in
    the state the keys whose text did not parse, and has overwritten
    them; the next [init], which is the next page load, finds the storage
    as the first one left it and notes no corruption. *)
Theorem corruption_is_reported_once (e e' : Env) (s s1 s2 : Store) :
  init e s = Return tt s1 ->
  init e' s1 = Return tt s2 ->
  (forall k, In k (corruption (state s1))
             <-> getItem k (localStorage (service s)) = Corrupt)
  /\ (forall k, getItem k (localStorage (service s)) = Corrupt ->
        getItem k (localStorage (service s1)) = Json (default_value (boot s) k))
  /\ corruption (state s2) = []
  /\ localStorage (service s2) = localStorage (service s1).
Proof.
  intros I1 I2.
  apply init_Return in I1 as (S1 & C1 & B1). apply init_Return in I2 as (S2 & C2 & _).
  assert (U : StorageService_init (boot s1) (service s1) = mkService (localStorage (service s1)) []).
  { apply init_on_usable. intros k. rewrite S1. apply init_makes_usable. }
  rewrite U in S2, C2.
  split; [|split; [|split]].
  - intros k. rewrite C1.
    apply init_corrupted.
  - intros k K. rewrite S1, init_getItem, K. now destruct k.
  - exact C2.
  - now rewrite S2.
Qed.

Lemma corruption_is_reported_once_witness :
  exists s2,
    init sample_env corrupt_store = Return tt corrupt_store_loaded
    /\ init sample_env corrupt_store_loaded = Return tt s2
    /\ (In KTransactions (corruption (state corrupt_store_loaded))
        <-> getItem KTransactions (localStorage (service corrupt_store)) = Corrupt)
    /\ corruption (state s2) = [].
Proof.
  assert (I1 : init sample_env corrupt_store = Return tt corrupt_store_loaded)
    by reflexivity.
  assert (I2 : { s2 | init sample_env corrupt_store_loaded = Return tt s2 })
    by (eexists; reflexivity).
  destruct I2 as [s2 I2]. exists s2.
  destruct (corruption_is_reported_once _ _ _ _ _ I1 I2) as (C & _ & N & _).
  split; [exact I1|]. split; [exact I2|]. split; [exact (C KTransactions)|exact N].
Defined.

(** ** Reset *)

Lemma DEFAULT_CATEGORIES_stored (boot : Env) : Forall stored_category (DEFAULT_CATEGORIES boot).
Proof. repeat constructor; apply createId_nonempty. Qed.

(** [reset] returns on every store, whatever the storage held: the
    settings are the defaults, the categories are the three starter
    categories, there is no transaction and no template, and the storage
    holds the same; the month and the corruption noted in the state are
    those from before, although the service has forgotten the corrupted
    keys. *)
Theorem reset_gives_factory_state (e : Env) (s : Store) :
  exists s',
    reset e s = Return tt s'
    /\ state s' = factory_state s
    /\ (forall k, getItem k (localStorage (service s')) = Json (default_value (boot s) k))
    /\ corruptedKeys (service s') = []
    /\ notified s' = notified s ++ [(factory_state s, D_app_reset)].
Proof.
  unfold reset, StorageService_reset. rewrite init_spec.
  cbn [localStorage usable_array usable_settings BW_V1_SETTINGS BW_V1_CATEGORIES
         BW_V1_TRANSACTIONS BW_V1_RECURRING getItem is_corrupt STORAGE_KEYS filter].
  unfold getSnapshot, read.
  cbn [localStorage getItem BW_V1_SETTINGS BW_V1_CATEGORIES BW_V1_TRANSACTIONS
         BW_V1_RECURRING].
  rewrite filter_Boolean_records by reflexivity.
  unfold typed_collections.
  cbn [snap_categories snap_transactions snap_recurring snap_settings].
  rewrite (normalize_stored_categories e _ (DEFAULT_CATEGORIES_stored (boot s))).
  rewrite (normalizeSettings_fixed _ DEFAULT_SETTINGS_normal).
  change (filter_Boolean (JArr [])) with (JArr []).
  change (normalizeTransactions e (JArr [])) with (@nil (Transaction_ jsval)).
  change (normalizeRecurring e (JArr [])) with (@nil (Recurring_ jsval)).
  cbn [traverse].
  eexists. split; [reflexivity|]. split; [reflexivity|]. split; [|split; reflexivity].
  intros k. destruct k; reflexivity.
Qed.

(** ** The feed and its cursor *)

Lemma start_index_unmatched (d i : string) (sorted : list Transaction) :
  no_bar d = true -> no_bar i = true ->
  (forall tx, In tx sorted -> tx_date_iso tx = d -> tx_id tx <> i) ->
  start_index (Some (d ++ "|" ++ i)%string) sorted = O.
Proof.
  intros Hd Hi H. unfold start_index. rewrite (split_bar_cursor d i Hd Hi).
  cbn [nth_error]. rewrite findIndex_absent; [now destruct (negb _)|].
  intros tx Hin. destruct (tx_date_iso tx =? d)%string eqn:D; [|reflexivity].
  apply String.eqb_eq in D. apply String.eqb_neq. now apply H.
Qed.

(** A cursor made from a record that [deleteTransaction] has removed
    matches no record any more: the call with that cursor returns the
    first page again, not the records that followed the removed one. *)
Theorem deleted_cursor_restarts {collation : Collation}
    (limit : nat) (t : Transaction) (s : Store) :
  no_bar (tx_date_iso t) = true -> no_bar (tx_id t) = true ->
  getRecentTransactions limit (Some (cursor_of t))
    (state (snd (deleteTransaction (tx_id t) s)))
  = getRecentTransactions limit None (state (snd (deleteTransaction (tx_id t) s))).
Proof.
  intros Hd Hi. rewrite !getRecentTransactions_page. f_equal. f_equal.
  unfold cursor_of. rewrite start_index_unmatched; [reflexivity|exact Hd|exact Hi|].
  intros tx Hin _. apply sort_In in Hin. rewrite transactions_delete in Hin.
  apply filter_In in Hin as [_ N]. now apply negb_true_iff, String.eqb_neq in N.
Qed.

Lemma deleted_cursor_restarts_witness :
  getRecentTransactions 1 None (state (with_transactions [tx_A; tx_B; tx_C]))
  = mkPage [tx_A] (Some (cursor_of tx_A)) true
  /\ getRecentTransactions 1 (Some (cursor_of tx_A))
       (state (snd (deleteTransaction (tx_id tx_A) (with_transactions [tx_A; tx_B; tx_C]))))
     = mkPage [tx_B] (Some (cursor_of tx_B)) true.
Proof.
  split; [reflexivity|].
  rewrite (deleted_cursor_restarts 1 tx_A (with_transactions [tx_A; tx_B; tx_C])
             eq_refl eq_refl).
  reflexivity.
Defined.

(** A cursor without the separator, the empty string included, is
    resolved to the beginning of the feed. *)
Theorem cursor_without_separator_restarts {collation : Collation}
    (limit : nat) (c : string) (st : State) :
  no_bar c = true ->
  getRecentTransactions limit (Some c) st = getRecentTransactions limit None st.
Proof.
  intros H. rewrite !getRecentTransactions_page. f_equal. f_equal.
  unfold start_index. rewrite (split_bar_no_bar c H). cbn [nth_error].
  rewrite findIndex_absent by reflexivity. now destruct (negb _).
Qed.

Lemma cursor_without_separator_restarts_witness :
  no_bar "2024-01-03T09:00:00.000Z" = true
  /\ getRecentTransactions 2 (Some "2024-01-03T09:00:00.000Z") state_ABC
     = mkPage [tx_A; tx_B] (Some (cursor_of tx_B)) true.
Proof.
  split; [reflexivity|].
  rewrite (cursor_without_separator_restarts 2 "2024-01-03T09:00:00.000Z" state_ABC eq_refl).
  reflexivity.
Defined.

Lemma last_map_Some_inv {A : Type} (l : list A) (x : A) :
  last (map Some l) None = Some x -> exists front, l = front ++ [x].
Proof.
  destruct l as [|a l] using rev_ind; [discriminate|].
  rewrite last_map_Some. intros [= ->]. now exists l.
Qed.

(** Every page, for every limit and every cursor, is a run of
    consecutive records of the feed of at most [limit] records; it
    announces more exactly when it carries a cursor, which happens only
    for a page of [limit] records, [limit] not being [0], and the cursor
    is then the one of its last record. *)
Theorem page_is_a_slice {collation : Collation}
    (limit : nat) (cursor : option string) (st : State) :
  let p := getRecentTransactions limit cursor st in
  (List.length (items p) <= limit)%nat
  /\ (exists before after,
        sort compareTransactionsDesc (transactions st) = before ++ items p ++ after)
  /\ (hasMore p = true <-> nextCursor p <> None)
  /\ (forall c, nextCursor p = Some c ->
        List.length (items p) = limit /\ limit <> O
        /\ exists front tx, items p = front ++ [tx] /\ c = cursor_of tx).
Proof.
  intros p. subst p. rewrite getRecentTransactions_page.
  set (sorted := sort compareTransactionsDesc (transactions st)).
  set (k := start_index cursor sorted).
  unfold page_of. cbn [items nextCursor hasMore].
  set (slice := firstn limit (skipn k sorted)).
  assert (N : forall c,
             match last (map Some slice) None with
             | Some l => if Nat.eqb (List.length slice) limit then Some (cursor_of l) else None
             | None => None
             end = Some c ->
             List.length slice = limit /\ limit <> O
             /\ exists front tx, slice = front ++ [tx] /\ c = cursor_of tx).
  { intros c. destruct (last (map Some slice) None) as [l|] eqn:L; [|discriminate].
    destruct (Nat.eqb (List.length slice) limit) eqn:E; [|discriminate].
    intros [= <-]. apply Nat.eqb_eq in E. apply last_map_Some_inv in L as [front ->].
    split; [exact E|]. split.
    - rewrite length_app in E. simpl in E. lia.
    - now exists front, l. }
  split; [apply firstn_le_length|]. split; [|split; [|exact N]].
  - exists (firstn k sorted), (skipn limit (skipn k sorted)).
    subst slice. now rewrite firstn_skipn, firstn_skipn.
  - destruct (match last (map Some slice) None with Some _ => _ | None => _ end)
      as [c|] eqn:C.
    + destruct (N c eq_refl) as (_ & _ & front & tx & _ & ->).
      rewrite cursor_of_nonempty. split; [discriminate|reflexivity].
    + split; [discriminate|congruence].
Qed.

(** ** Monthly totals *)

Lemma accumulate_other_month (pf : Platform) (year monthIndex : Z) (acc : Sums)
    (tx : Transaction) :
  isSameMonth pf (tx_date_iso tx) year monthIndex = false ->
  accumulate pf year monthIndex acc tx = acc.
Proof. intros H. unfold accumulate. now rewrite H. Qed.

Lemma fold_accumulate_of_month (pf : Platform) (year monthIndex : Z)
    (txs : list Transaction) (acc : Sums) :
  fold_left (accumulate pf year monthIndex) txs acc
  = fold_left (accumulate pf year monthIndex) (of_month pf year monthIndex txs) acc.
Proof.
  revert acc. induction txs as [|tx txs IH]; intros acc; [reflexivity|].
  unfold of_month in *. cbn [filter fold_left].
  destruct (isSameMonth pf (tx_date_iso tx) year monthIndex) eqn:M.
  - cbn [fold_left]. apply IH.
  - rewrite (accumulate_other_month _ _ _ _ _ M). apply IH.
Qed.

(** The totals of a month depend on the settings and on the
    transactions of that month only: two states with the same settings
    and the same records in the month have the same totals, whatever
    their records of other months, their categories, their templates and
    the month they display. *)
Theorem getMonthlyTotals_reads_the_month (pf : Platform) (year monthIndex : Z)
    (st st' : State) :
  settings st = settings st' ->
  of_month pf year monthIndex (transactions st)
  = of_month pf year monthIndex (transactions st') ->
  getMonthlyTotals pf year monthIndex st = getMonthlyTotals pf year monthIndex st'.
Proof.
  intros S T. unfold getMonthlyTotals, rule_percentage, monthly_sums.
  rewrite (fold_accumulate_of_month pf year monthIndex (transactions st)).
  rewrite (fold_accumulate_of_month pf year monthIndex (transactions st')).
  now rewrite S, T.
Qed.

Lemma getMonthlyTotals_reads_the_month_witness :
  settings scenario_state_february = settings scenario_state
  /\ of_month sample_platform 2024 0 (transactions scenario_state_february)
     = of_month sample_platform 2024 0 (transactions scenario_state)
  /\ getMonthlyTotals sample_platform 2024 0 scenario_state_february
     = getMonthlyTotals sample_platform 2024 0 scenario_state.
Proof.
  assert (T : of_month sample_platform 2024 0 (transactions scenario_state_february)
              = of_month sample_platform 2024 0 (transactions scenario_state))
    by (vm_compute; reflexivity).
  split; [reflexivity|]. split; [exact T|].
  exact (getMonthlyTotals_reads_the_month sample_platform 2024 0
           scenario_state_february scenario_state eq_refl T).
Defined.

(** In a month without transactions the income, the expense and the
    amount spent in every bucket are [0], no bucket has a budget, and the
    remaining amount of every bucket is [-0], whatever the rule. *)
Theorem getMonthlyTotals_empty_month (pf : Platform) (year monthIndex : Z) (st : State)
    (t : Totals) :
  of_month pf year monthIndex (transactions st) = [] ->
  getMonthlyTotals pf year monthIndex st = Some t ->
  income_cents t = Num.zero /\ expense_cents t = Num.zero
  /\ Forall (fun b => spent_cents b = Num.zero
                      /\ Num.truthy (budget_cents b) = false
                      /\ remaining_cents b = Num.neg Num.zero) (buckets_of t).
Proof.
  intros E. unfold getMonthlyTotals, monthly_sums.
  rewrite fold_accumulate_of_month, E. cbn [fold_left sum_income sum_expense
    sum_Necessities sum_Leisure sum_Savings sum_Uncategorized].
  destruct (rule_percentage "necessities" st) as [n|]; [|discriminate].
  destruct (rule_percentage "leisure" st) as [l|]; [|discriminate].
  destruct (rule_percentage "savings" st) as [v|]; [|discriminate].
  intros [= <-]. cbn [income_cents expense_cents buckets_of Necessities_totals
    Leisure_totals Savings_totals Uncategorized_totals].
  split; [reflexivity|]. split; [reflexivity|].
  unfold bucket_totals, remaining. cbn [spent_cents budget_cents remaining_cents].
  rewrite !budget_zero_income.
  repeat (apply Forall_cons;
          [split; [reflexivity|split; [apply budget_zero_income || reflexivity|reflexivity]]|]).
  apply Forall_nil.
Qed.

Lemma getMonthlyTotals_empty_month_witness :
  exists t,
    of_month sample_platform 2024 5 (transactions scenario_state) = []
    /\ getMonthlyTotals sample_platform 2024 5 scenario_state = Some t
    /\ income_cents t = Num.zero /\ expense_cents t = Num.zero.
Proof.
  assert (E : of_month sample_platform 2024 5 (transactions scenario_state) = [])
    by (vm_compute; reflexivity).
  assert (G : { t | getMonthlyTotals sample_platform 2024 5 scenario_state = Some t })
    by (eexists; vm_compute; reflexivity).
  destruct G as [t G]. exists t.
  destruct (getMonthlyTotals_empty_month _ _ _ _ _ E G) as (I & X & _).
  split; [exact E|]. split; [exact G|]. split; [exact I|exact X].
Defined.

(** ** Maps *)

Section MapFacts.
Context {V : Type}.

Lemma Map_get_set_same (k : string) (v : V) (m : Map V) :
  Map_get k (Map_set k v m) = Some v.
Proof.
  induction m as [|[k' v'] m IH]; simpl.
  - now rewrite String.eqb_refl.
  - destruct (k =? k')%string eqn:E; simpl.
    + now rewrite String.eqb_refl.
    + now rewrite E.
Qed.

Lemma Map_get_set_other (k k' : string) (v : V) (m : Map V) :
  k <> k' -> Map_get k (Map_set k' v m) = Map_get k m.
Proof.
  intros N. apply String.eqb_neq in N.
  induction m as [|[k0 v0] m IH]; simpl.
  - now rewrite N.
  - destruct (k' =? k0)%string eqn:E; simpl.
    + apply String.eqb_eq in E. subst k0. now rewrite N.
    + now rewrite IH.
Qed.

Lemma Map_get_In (k : string) (v : V) (m : Map V) :
  Map_get k m = Some v -> In (k, v) m.
Proof.
  induction m as [|[k' v'] m IH]; simpl; [discriminate|].
  destruct (k =? k')%string eqn:E.
  - apply String.eqb_eq in E. subst k'. intros [= ->]. now left.
  - intros H. right. now apply IH.
Qed.

Lemma Map_get_absent (k : string) (m : Map V) :
  Map_get k m = None -> ~ In k (map fst m).
Proof.
  induction m as [|[k' v'] m IH]; simpl; [tauto|].
  destruct (k =? k')%string eqn:E; [discriminate|].
  apply String.eqb_neq in E. intros H [K|K]; [congruence|]. now apply IH.
Qed.

Lemma Map_In_get (k : string) (v : V) (m : Map V) :
  NoDup (map fst m) -> In (k, v) m -> Map_get k m = Some v.
Proof.
  induction m as [|[k' v'] m IH]; simpl; [tauto|].
  intros N [H|H].
  - injection H as -> ->. now rewrite String.eqb_refl.
  - inversion N as [|? ? Nk Nm]; subst.
    destruct (k =? k')%string eqn:E; [|now apply IH].
    apply String.eqb_eq in E. subst k'. exfalso. apply Nk.
    change k with (fst (k, v)). now apply in_map.
Qed.

Lemma Map_set_keys (k : string) (v : V) (m : Map V) :
  map fst (Map_set k v m)
  = match Map_get k m with Some _ => map fst m | None => map fst m ++ [k] end.
Proof.
  induction m as [|[k' v'] m IH]; simpl; [reflexivity|].
  destruct (k =? k')%string eqn:E; simpl.
  - apply String.eqb_eq in E. now subst k'.
  - rewrite IH. now destruct (Map_get k m).
Qed.

Lemma Map_set_NoDup (k : string) (v : V) (m : Map V) :
  NoDup (map fst m) -> NoDup (map fst (Map_set k v m)).
Proof.
  intros N. rewrite Map_set_keys. destruct (Map_get k m) eqn:G; [exact N|].
  apply Map_get_absent in G.
  apply NoDup_app; [exact N|repeat constructor; simpl; tauto|].
  intros a Ha [<-|[]]. contradiction.
Qed.
End MapFacts.

(** ** Counts and spending by category *)

Lemma expenses_of_month_snoc (pf : Platform) (year monthIndex : Z)
    (l : list Transaction) (tx : Transaction) :
  expenses_of_month pf year monthIndex (l ++ [tx])
  = expenses_of_month pf year monthIndex l
    ++ match tx_type tx with
       | income => []
       | expense =>
           if negb (isSameMonth pf (tx_date_iso tx) year monthIndex) then [] else [tx]
       end.
Proof.
  unfold expenses_of_month, of_month. rewrite !filter_app. f_equal. cbn [filter].
  destruct (isSameMonth pf (tx_date_iso tx) year monthIndex); cbn [filter negb];
    destruct (tx_type tx); reflexivity.
Qed.

Lemma with_key_snoc (k : string) (l : list Transaction) (tx : Transaction) :
  with_key k (l ++ [tx])
  = with_key k l ++ (if (category_key tx =? k)%string then [tx] else []).
Proof. unfold with_key. rewrite filter_app. reflexivity. Qed.

(** The counts after the loop of [getCategoryStats]. *)
Lemma count_expense_fold (pf : Platform) (year monthIndex : Z) (txs : list Transaction)
    (k : string) :
  match Map_get k (fold_left (count_expense pf year monthIndex) txs []) with
  | Some n => n
  | None => O
  end = List.length (with_key k (expenses_of_month pf year monthIndex txs)).
Proof.
  induction txs as [|tx txs IH] using rev_ind; [reflexivity|].
  rewrite fold_left_app, expenses_of_month_snoc. cbn [fold_left].
  unfold count_expense at 1.
  destruct (tx_type tx); [now rewrite app_nil_r|].
  destruct (negb (isSameMonth pf (tx_date_iso tx) year monthIndex));
    [now rewrite app_nil_r|].
  rewrite with_key_snoc, length_app.
  destruct (category_key tx =? k)%string eqn:E.
  - apply String.eqb_eq in E. subst k. rewrite Map_get_set_same, IH. simpl. lia.
  - apply String.eqb_neq in E. rewrite Map_get_set_other by congruence.
    rewrite IH. simpl. lia.
Qed.

(** [getCategoryStats] returns the categories of the state, in their
    order, each with the number of expenses of the month filed under its
    identifier; an expense without category is filed under
    ["uncategorized"]. *)
Theorem getCategoryStats_counts (pf : Platform) (year monthIndex : Z) (st : State) :
  getCategoryStats pf year monthIndex st
  = map (fun category =>
           (category,
            List.length
              (with_key (cat_id category)
                 (expenses_of_month pf year monthIndex (transactions st)))))
      (categories st).
Proof.
  unfold getCategoryStats. apply map_ext. intros category.
  now rewrite count_expense_fold.
Qed.

Lemma spending_entry_snoc (st : State) (k : string) (txs : list Transaction)
    (tx : Transaction) :
  txs <> [] ->
  spending_entry st k (txs ++ [tx])
  = {| sp_category_id := sp_category_id (spending_entry st k txs);
       sp_name := sp_name (spending_entry st k txs);
       sp_bucket := sp_bucket (spending_entry st k txs);
       sp_spent_cents :=
         Num.add (sp_spent_cents (spending_entry st k txs)) (tx_amount_cents tx);
       sp_count := S (sp_count (spending_entry st k txs)) |}.
Proof.
  intros N. destruct txs as [|t0 txs]; [congruence|].
  unfold spending_entry. cbn [sp_category_id sp_name sp_bucket sp_spent_cents sp_count].
  rewrite fold_left_app, length_app. cbn [fold_left app List.length].
  f_equal. lia.
Qed.

(** The map after the loop of [getSpendingByCategory]: an entry for each
    key under which an expense of the month is filed. *)
Lemma spend_fold (pf : Platform) (year monthIndex : Z) (st : State)
    (txs : list Transaction) (k : string) :
  Map_get k (fold_left (spend pf year monthIndex st) txs [])
  = match with_key k (expenses_of_month pf year monthIndex txs) with
    | [] => None
    | _ :: _ =>
        Some (spending_entry st k
                (with_key k (expenses_of_month pf year monthIndex txs)))
    end.
Proof.
  induction txs as [|tx txs IH] using rev_ind; [reflexivity|].
  rewrite fold_left_app, expenses_of_month_snoc. cbn [fold_left].
  set (m := fold_left (spend pf year monthIndex st) txs []) in *.
  set (E := expenses_of_month pf year monthIndex txs) in *.
  unfold spend at 1.
  destruct (tx_type tx); [now rewrite app_nil_r|].
  destruct (negb (isSameMonth pf (tx_date_iso tx) year monthIndex));
    [now rewrite app_nil_r|].
  rewrite with_key_snoc.
  destruct (category_key tx =? k)%string eqn:K.
  - apply String.eqb_eq in K. subst k. unfold Map_has. rewrite IH.
    destruct (with_key (category_key tx) E) as [|t0 l0] eqn:W.
    + cbn [negb]. rewrite Map_get_set_same, Map_get_set_same. reflexivity.
    + cbn [negb]. rewrite IH, Map_get_set_same.
      rewrite (spending_entry_snoc st (category_key tx) (t0 :: l0) tx) by discriminate.
      reflexivity.
  - apply String.eqb_neq in K. rewrite app_nil_r.
    assert (G : forall m', Map_get k m' = Map_get k m ->
                  Map_get k
                    match Map_get (category_key tx) m' with
                    | Some entry =>
                        Map_set (category_key tx)
                          {| sp_category_id := sp_category_id entry;
                             sp_name := sp_name entry;
                             sp_bucket := sp_bucket entry;
                             sp_spent_cents :=
                               Num.add (sp_spent_cents entry) (tx_amount_cents tx);
                             sp_count := S (sp_count entry) |} m'
                    | None => m'
                    end = Map_get k m).
    { intros m' H. destruct (Map_get (category_key tx) m'); [|exact H].
      rewrite Map_get_set_other by congruence. exact H. }
    rewrite G; [exact IH|].
    destruct (negb (Map_has (category_key tx) m)); [|reflexivity].
    apply Map_get_set_other. congruence.
Qed.

Lemma spend_fold_NoDup (pf : Platform) (year monthIndex : Z) (st : State)
    (txs : list Transaction) :
  NoDup (map fst (fold_left (spend pf year monthIndex st) txs [])).
Proof.
  induction txs as [|tx txs IH] using rev_ind; [constructor|].
  rewrite fold_left_app. cbn [fold_left].
  set (m := fold_left (spend pf year monthIndex st) txs []) in *.
  unfold spend. destruct (tx_type tx); [exact IH|].
  destruct (negb (isSameMonth pf (tx_date_iso tx) year monthIndex)); [exact IH|].
  assert (N : NoDup (map fst
                       (if negb (Map_has (category_key tx) m)
                        then Map_set (category_key tx)
                               {| sp_category_id := category_key tx;
                                  sp_name :=
                                    match
                                      match tx_category_id tx with
                                      | Some c =>
                                          find (fun cat => (cat_id cat =? c)%string)
                                            (categories st)
                                      | None => None
                                      end
                                    with
                                    | Some c => cat_name c
                                    | None => "Uncategorized"
                                    end;
                                  sp_bucket :=
                                    option_map cat_bucket
                                      match tx_category_id tx with
                                      | Some c =>
                                          find (fun cat => (cat_id cat =? c)%string)
                                            (categories st)
                                      | None => None
                                      end;
                                  sp_spent_cents := Num.zero;
                                  sp_count := 0 |} m
                        else m))).
  { destruct (negb _); [now apply Map_set_NoDup|exact IH]. }
  destruct (Map_get (category_key tx) _); [now apply Map_set_NoDup|exact N].
Qed.

(** [getSpendingByCategory] returns one entry for each key under which
    an expense of the month is filed, and no other entry.  The entry of a
    key counts the expenses filed under it, adds their amounts in the
    order of the collection, and carries the name and the bucket of the
    category of the first of them, or ["Uncategorized"] and [null] when
    the state has no such category. *)
Theorem getSpendingByCategory_entries (pf : Platform) (year monthIndex : Z) (st : State) :
  let filed := expenses_of_month pf year monthIndex (transactions st) in
  NoDup (map sp_category_id (getSpendingByCategory pf year monthIndex st))
  /\ (forall entry,
        In entry (getSpendingByCategory pf year monthIndex st)
        <-> exists tx,
              In tx filed
              /\ entry = spending_entry st (category_key tx)
                           (with_key (category_key tx) filed)).
Proof.
  intros filed. unfold getSpendingByCategory.
  set (m := fold_left (spend pf year monthIndex st) (transactions st) []).
  pose proof (spend_fold_NoDup pf year monthIndex st (transactions st)) as N. fold m in N.
  assert (G : forall k, Map_get k m
                        = match with_key k filed with
                          | [] => None
                          | _ :: _ => Some (spending_entry st k (with_key k filed))
                          end) by (intros k; apply spend_fold).
  assert (K : forall k v, In (k, v) m -> sp_category_id v = k).
  { intros k v H. apply (Map_In_get _ _ _ N) in H. rewrite G in H.
    destruct (with_key k filed); [discriminate|]. now injection H as <-. }
  split.
  - eapply Permutation_NoDup; [apply Permutation_map, sort_perm|].
    unfold Map_values. rewrite map_map.
    replace (map (fun x => sp_category_id (snd x)) m) with (map fst m); [exact N|].
    apply map_ext_in. intros [k v] H. symmetry. now apply K.
  - intros entry. rewrite sort_In. unfold Map_values. rewrite in_map_iff. split.
    + intros ([k v] & <- & H). cbn [snd]. apply (Map_In_get _ _ _ N) in H.
      rewrite G in H. destruct (with_key k filed) as [|tx l] eqn:W; [discriminate|].
      injection H as <-.
      assert (T : In tx (with_key k filed)) by (rewrite W; now left).
      apply filter_In in T as [T E]. apply String.eqb_eq in E. subst k.
      exists tx. rewrite W. split; [exact T|reflexivity].
    + intros (tx & T & ->). exists (category_key tx, spending_entry st (category_key tx)
                                     (with_key (category_key tx) filed)).
      split; [reflexivity|]. apply Map_get_In. rewrite G.
      destruct (with_key (category_key tx) filed) as [|t0 l0] eqn:W; [|reflexivity].
      exfalso. assert (X : In tx (with_key (category_key tx) filed)).
      { apply filter_In. split; [exact T|apply String.eqb_refl]. }
      now rewrite W in X.
Qed.

(** ** Activity groups *)

Section SnocSorted.
Context {A : Type} (R : A -> A -> Prop).

Lemma Sorted_snoc_replace (front : list A) (g g' : A) :
  (forall x, R x g -> R x g') ->
  Sorted R (front ++ [g]) -> Sorted R (front ++ [g']).
Proof.
  intros H. induction front as [|a front IH]; intros S; [repeat constructor|].
  cbn [app] in *. inversion S as [|? ? S' Hd]; subst. constructor; [now apply IH|].
  destruct front as [|b front]; cbn [app] in *.
  - constructor. apply H. now inversion Hd.
  - constructor. now inversion Hd.
Qed.

Lemma Sorted_snoc_add (front : list A) (g h : A) :
  R g h -> Sorted R (front ++ [g]) -> Sorted R (front ++ [g; h]).
Proof.
  intros H. induction front as [|a front IH]; intros S; [repeat constructor; exact H|].
  cbn [app] in *. inversion S as [|? ? S' Hd]; subst. constructor; [now apply IH|].
  destruct front as [|b front]; cbn [app] in *.
  - constructor. now inversion Hd.
  - constructor. now inversion Hd.
Qed.
End SnocSorted.

Lemma push_entry_snoc (tx : Transaction) (front : list Group) (g : Group) :
  push_entry tx (front ++ [g]) = front ++ [mkGroup (dateLabel g) (entries g ++ [tx])].
Proof.
  induction front as [|a front IH]; [reflexivity|].
  cbn [app push_entry]. rewrite IH. now destruct front.
Qed.

Lemma concat_entries_snoc (front : list Group) (g : Group) :
  List.concat (map entries (front ++ [g])) = List.concat (map entries front) ++ entries g.
Proof. now rewrite map_app, concat_app; cbn [map List.concat]; rewrite app_nil_r. Qed.

(** One turn of the loop keeps the groups well formed and puts the
    record at the end. *)
Lemma group_entry_step (format : Z -> string) (pf : Platform) (tx : Transaction)
    (label : string) (grouped : list Group) :
  day_label format pf tx = Some label ->
  Forall (day_group format pf) grouped -> Sorted other_day grouped ->
  Forall (day_group format pf) (group_entry label tx grouped)
  /\ Sorted other_day (group_entry label tx grouped)
  /\ List.concat (map entries (group_entry label tx grouped))
     = List.concat (map entries grouped) ++ [tx].
Proof.
  intros L F S. unfold group_entry.
  destruct grouped as [|g0 front] using rev_ind.
  - cbn [map last app push_entry]. split; [|split; [repeat constructor|reflexivity]].
    repeat constructor; [discriminate|exact L].
  - clear IHfront. rename g0 into g. rewrite (last_map_Some front g).
    apply Forall_app in F as [Ff Fg]. inversion Fg as [|? ? [Gn Gl] _]; subst.
    destruct (dateLabel g =? label)%string eqn:E; cbn [negb].
    + apply String.eqb_eq in E. rewrite push_entry_snoc.
      split; [|split].
      * apply Forall_app. split; [exact Ff|]. constructor; [|constructor].
        split; cbn [entries dateLabel].
        -- destruct (entries g); discriminate.
        -- apply Forall_app. split; [exact Gl|]. constructor; [|constructor].
           now rewrite E.
      * eapply Sorted_snoc_replace; [|exact S]. intros x. unfold other_day. now cbn.
      * rewrite !concat_entries_snoc. cbn [entries]. now rewrite app_assoc.
    + apply String.eqb_neq in E.
      rewrite push_entry_snoc. cbn [dateLabel entries app].
      split; [|split].
      * apply Forall_app. split; [apply Forall_app; split; [exact Ff|exact Fg]|].
        constructor; [|constructor]. split; cbn [entries dateLabel]; [discriminate|].
        constructor; [exact L|constructor].
      * rewrite <- app_assoc. cbn [app]. apply Sorted_snoc_add; [exact E|exact S].
      * rewrite !concat_entries_snoc. cbn [entries]. reflexivity.
Qed.

Lemma group_items_Some (format : Z -> string) (pf : Platform) (txs : list Transaction) :
  forall grouped result,
    group_items format pf txs grouped = Some result ->
    Forall (day_group format pf) grouped -> Sorted other_day grouped ->
    Forall (day_group format pf) result
    /\ Sorted other_day result
    /\ List.concat (map entries result) = List.concat (map entries grouped) ++ txs.
Proof.
  induction txs as [|tx txs IH]; intros grouped result.
  - intros [= <-] F S. now rewrite app_nil_r.
  - cbn [group_items]. destruct (new_Date pf (tx_date_iso tx)) as [t|] eqn:D; [|discriminate].
    intros H F S.
    assert (L : day_label format pf tx = Some (format t))
      by (unfold day_label; now rewrite D).
    destruct (group_entry_step format pf tx (format t) grouped L F S) as (F' & S' & C').
    destruct (IH _ _ H F' S') as (F'' & S'' & C'').
    split; [exact F''|]. split; [exact S''|].
    rewrite C'', C', <- app_assoc. reflexivity.
Qed.

Lemma group_items_None (format : Z -> string) (pf : Platform) (txs : list Transaction) :
  forall grouped,
    group_items format pf txs grouped = None
    <-> exists tx, In tx txs /\ new_Date pf (tx_date_iso tx) = None.
Proof.
  induction txs as [|tx txs IH]; intros grouped; cbn [group_items].
  - split; [discriminate|]. intros (tx & [] & _).
  - destruct (new_Date pf (tx_date_iso tx)) as [t|] eqn:D.
    + rewrite IH. split.
      * intros (x & Hx & Dx). exists x. split; [now right|exact Dx].
      * intros (x & [<-|Hx] & Dx); [congruence|]. now exists x.
    + split; [|reflexivity]. intros _. exists tx. split; [now left|exact D].
Qed.

(** When [getActivityGroups] returns, the entries of its groups, one
    group after the other, are the items of the page that
    [getRecentTransactions] gives for the same limit and cursor, with the
    cursor and the flag of that page; no group is empty, every record is
    in a group labelled with its day, and two groups that follow each
    other have different labels. *)
Theorem getActivityGroups_partitions_the_page {collation : Collation}
    (intl : DateTimeFormat) (pf : Platform)
    (year monthIndex : Z) (pageSize : nat) (cursor : option string) (st : State)
    (a : Activity) :
  getActivityGroups intl pf year monthIndex pageSize cursor st = Some a ->
  let p := getRecentTransactions pageSize cursor st in
  List.concat (map entries (groups a)) = items p
  /\ activity_nextCursor a = nextCursor p
  /\ activity_hasMore a = hasMore p
  /\ Sorted other_day (groups a)
  /\ exists format,
       intl (get "locale" (JObj (settings st))) = Some format
       /\ Forall (day_group format pf) (groups a).
Proof.
  intros H. cbv zeta. unfold getActivityGroups in H.
  set (p := getRecentTransactions pageSize cursor st) in *.
  destruct (intl (get "locale" (JObj (settings st)))) as [format|]; [|discriminate].
  destruct (group_items format pf (items p) []) as [grouped|] eqn:G; [|discriminate].
  injection H as <-. cbn [groups activity_nextCursor activity_hasMore].
  destruct (group_items_Some format pf (items p) [] grouped G) as (F & S & C);
    [constructor|constructor|].
  split; [exact C|]. split; [reflexivity|]. split; [reflexivity|]. split; [exact S|].
  exists format. split; [reflexivity|exact F].
Qed.

(** [getActivityGroups] throws a [RangeError] exactly when the formatter
    refuses the locale of the settings or the page holds a record whose
    [date_iso] is not a date: one such record, which an import accepts,
    is enough for the page to fail. *)
Theorem getActivityGroups_throws {collation : Collation} (intl : DateTimeFormat) (pf : Platform)
    (year monthIndex : Z) (pageSize : nat) (cursor : option string) (st : State) :
  getActivityGroups intl pf year monthIndex pageSize cursor st = None
  <-> intl (get "locale" (JObj (settings st))) = None
      \/ exists tx,
           In tx (items (getRecentTransactions pageSize cursor st))
           /\ new_Date pf (tx_date_iso tx) = None.
Proof.
  unfold getActivityGroups.
  destruct (intl (get "locale" (JObj (settings st)))) as [format|].
  - destruct (group_items format pf _ []) as [grouped|] eqn:G.
    + split; [discriminate|]. intros [H|H]; [discriminate|].
      apply (group_items_None format pf _ []) in H. congruence.
    + split; [|reflexivity]. intros _. right.
      now apply (group_items_None format pf _ []).
  - split; [now left|reflexivity].
Qed.

Lemma getActivityGroups_partitions_the_page_witness :
  exists a,
    getActivityGroups sample_intl sample_platform 2024 0 2 None state_ABC = Some a
    /\ List.concat (map entries (groups a)) = [tx_A; tx_B]
    /\ List.length (groups a) = 2%nat.
Proof.
  assert (G : { a | getActivityGroups sample_intl sample_platform 2024 0 2 None state_ABC
                    = Some a }) by (eexists; vm_compute; reflexivity).
  destruct G as [a G]. exists a. split; [exact G|].
  destruct (getActivityGroups_partitions_the_page _ _ _ _ _ _ _ _ G) as (C & _).
  split; [exact C|].
  vm_compute in G. injection G as <-. reflexivity.
Defined.

(** A page with a record that carries no date. *)
Example getActivityGroups_undated :
  getActivityGroups sample_intl sample_platform 2024 0 20 None
    (set_transactions [tx_A; tx_undated] initial_state) = None.
Proof. reflexivity. Qed.

(** ** Amounts typed in *)

Lemma lastIndexOf_absent (x : ascii) (l : list ascii) :
  ~ In x l -> lastIndexOf x l = -1.
Proof.
  induction l as [|a l IH]; intros H; [reflexivity|]. cbn [lastIndexOf].
  rewrite IH by (intros K; apply H; now right). cbn.
  destruct (Ascii.eqb a x) eqn:E; [|reflexivity].
  apply Ascii.eqb_eq in E. exfalso. apply H. now left.
Qed.

Lemma lastIndexOf_bounds (x : ascii) (l : list ascii) :
  -1 <= lastIndexOf x l < Z.of_nat (List.length l).
Proof.
  induction l as [|a l IH]; [cbn; lia|]. cbn [lastIndexOf List.length].
  destruct (0 <=? lastIndexOf x l) eqn:E.
  - apply Z.leb_le in E. lia.
  - destruct (Ascii.eqb a x); lia.
Qed.

Lemma lastIndexOf_last (x : ascii) (l1 l2 : list ascii) :
  ~ In x l2 -> lastIndexOf x (l1 ++ x :: l2) = Z.of_nat (List.length l1).
Proof.
  intros H. induction l1 as [|a l1 IH].
  - cbn [app lastIndexOf List.length]. rewrite (lastIndexOf_absent x l2 H). cbn.
    now rewrite Ascii.eqb_refl.
  - cbn [app lastIndexOf List.length]. rewrite IH.
    destruct (0 <=? Z.of_nat (List.length l1)) eqn:E; [lia|].
    apply Z.leb_gt in E. lia.
Qed.

Lemma lastIndexOf_before (x y : ascii) (l1 l2 : list ascii) :
  x <> y -> ~ In x l2 -> lastIndexOf x (l1 ++ y :: l2) = lastIndexOf x l1.
Proof.
  intros N H. induction l1 as [|a l1 IH].
  - cbn [app lastIndexOf]. rewrite (lastIndexOf_absent x l2 H). cbn.
    destruct (Ascii.eqb y x) eqn:E; [|reflexivity].
    apply Ascii.eqb_eq in E. congruence.
  - cbn [app lastIndexOf]. now rewrite IH.
Qed.

Lemma is_separator_cases (c : ascii) :
  is_separator c = true -> c = "."%char \/ c = ","%char.
Proof.
  unfold is_separator. intros H. apply orb_true_iff in H as [H|H];
    apply Ascii.eqb_eq in H; auto.
Qed.

Lemma digit_not_separator (c : ascii) : is_digit c = true -> is_separator c = false.
Proof.
  intros D. destruct (is_separator c) eqn:S; [|reflexivity].
  apply is_separator_cases in S as [-> | ->]; discriminate D.
Qed.

Lemma filter_filter {A : Type} (p q : A -> bool) (l : list A) :
  (forall x, q x = true -> p x = true) -> filter q (filter p l) = filter q l.
Proof.
  intros H. induction l as [|a l IH]; [reflexivity|]. cbn [filter].
  destruct (p a) eqn:P; cbn [filter].
  - now rewrite IH.
  - destruct (q a) eqn:Q; [|exact IH]. rewrite (H a Q) in P. discriminate.
Qed.

Lemma digits_of_kept (l : list ascii) :
  filter is_digit (filter (fun c => is_digit c || is_separator c) l) = filter is_digit l.
Proof. apply filter_filter. intros x ->. reflexivity. Qed.

Lemma kept_without_separator (l : list ascii) :
  Forall (fun c => is_separator c = false) l ->
  filter (fun c => is_digit c || is_separator c) l = filter is_digit l.
Proof.
  intros F. apply filter_ext_in. intros a Ha. rewrite Forall_forall in F.
  rewrite (F a Ha). apply orb_false_r.
Qed.

Lemma separator_absent (c : ascii) (l : list ascii) :
  is_separator c = true -> ~ In c (filter is_digit l).
Proof.
  intros S H. apply filter_In in H as [_ D]. apply digit_not_separator in D. congruence.
Qed.

(** The position of the decimal separator in the sanitized text. *)
Lemma separatorIndex_last (c : ascii) (l1 l2 : list ascii) :
  is_separator c = true ->
  Z.max (lastIndexOf ","%char (l1 ++ c :: filter is_digit l2))
    (lastIndexOf "."%char (l1 ++ c :: filter is_digit l2))
  = Z.of_nat (List.length l1).
Proof.
  intros S. pose proof (lastIndexOf_bounds ","%char l1) as Bc.
  pose proof (lastIndexOf_bounds "."%char l1) as Bd.
  destruct (is_separator_cases c S) as [-> | ->].
  - rewrite (lastIndexOf_last "."%char) by now apply separator_absent.
    rewrite (lastIndexOf_before ","%char "."%char)
      by (discriminate || now apply separator_absent). lia.
  - rewrite (lastIndexOf_last ","%char) by now apply separator_absent.
    rewrite (lastIndexOf_before "."%char ","%char)
      by (discriminate || now apply separator_absent). lia.
Qed.

(** In a text with a separator, [parseAmountToCents] takes the last
    separator, comma or dot alike, for the decimal point: the digits
    before it, whatever stands between them, are the units, and the first
    two digits after it are the cents, a third digit being dropped
    without rounding.  Every other character is ignored, a minus sign
    included. *)
Theorem parseAmountToCents_decimal (units fraction : list ascii) (c : ascii) :
  is_separator c = true ->
  Forall (fun x => is_separator x = false) fraction ->
  parseAmountToCents (JStr (string_of_list_ascii (units ++ c :: fraction)))
  = cents_of (filter is_digit units) (filter is_digit fraction).
Proof.
  intros Hs F. unfold parseAmountToCents. rewrite list_ascii_of_string_of_list_ascii.
  rewrite filter_app. cbn [filter].
  assert (K : is_digit c || is_separator c = true) by (rewrite Hs; apply orb_true_r).
  rewrite K, (kept_without_separator fraction F).
  set (kept := filter (fun x => is_digit x || is_separator x) units).
  destruct (kept ++ c :: filter is_digit fraction) as [|a0 l0] eqn:E;
    [destruct kept; discriminate E|].
  rewrite <- E. clear a0 l0 E.
  rewrite (separatorIndex_last c kept fraction Hs).
  destruct (Z.of_nat (List.length kept) =? -1) eqn:N; [apply Z.eqb_eq in N; lia|].
  rewrite Nat2Z.id.
  replace (Z.to_nat (Z.of_nat (List.length kept) + 1)) with (S (List.length kept)) by lia.
  rewrite firstn_app, Nat.sub_diag, firstn_all. cbn [firstn]. rewrite app_nil_r.
  rewrite skipn_middle. subst kept. rewrite digits_of_kept.
  rewrite (filter_filter is_digit is_digit) by trivial.
  unfold cents_of. destruct (filter is_digit units) as [|u us]; [reflexivity|].
  destruct (filter is_digit fraction) as [|d1 [|d2 ds]]; reflexivity.
Qed.

Lemma parseAmountToCents_decimal_witness :
  is_separator ","%char = true
  /\ Forall (fun x => is_separator x = false) (list_ascii_of_string "234")
  /\ parseAmountToCents (JStr "$1,234") = Num.of_Z 123.
Proof.
  assert (F : Forall (fun x => is_separator x = false) (list_ascii_of_string "234"))
    by (repeat constructor).
  split; [reflexivity|]. split; [exact F|].
  exact (parseAmountToCents_decimal (list_ascii_of_string "$1") (list_ascii_of_string "234")
           ","%char eq_refl F).
Defined.

(** In a text without separator the digits are the units: the amount is
    a hundred times the number they write, and [NaN] when the text has no
    digit. *)
Theorem parseAmountToCents_units (s : string) :
  Forall (fun x => is_separator x = false) (list_ascii_of_string s) ->
  parseAmountToCents (JStr s)
  = match filter is_digit (list_ascii_of_string s) with
    | [] => Num.NaN
    | digits => Num.mul (parseInt digits) (Num.of_Z 100)
    end.
Proof.
  intros F. unfold parseAmountToCents. rewrite (kept_without_separator _ F).
  destruct (filter is_digit (list_ascii_of_string s)) as [|d ds] eqn:E; [reflexivity|].
  rewrite <- E.
  rewrite (lastIndexOf_absent ","%char), (lastIndexOf_absent "."%char)
    by now apply separator_absent.
  cbn [Z.max Z.compare Z.eqb]. rewrite (filter_filter is_digit is_digit) by trivial.
  now rewrite E.
Qed.

Lemma parseAmountToCents_units_witness :
  Forall (fun x => is_separator x = false) (list_ascii_of_string "-12 EUR")
  /\ parseAmountToCents (JStr "-12 EUR") = Num.of_Z 1200.
Proof.
  assert (F : Forall (fun x => is_separator x = false) (list_ascii_of_string "-12 EUR"))
    by (repeat constructor).
  split; [exact F|]. exact (parseAmountToCents_units "-12 EUR" F).
Defined.

(** *** The sign of an amount *)

Lemma binary_round_aux_sign (mx ex : Z) (lx : location) :
  not_negative (binary_round_aux Num.prec Num.emax false mx ex lx).
Proof.
  unfold binary_round_aux.
  destruct (shr_fexp Num.prec Num.emax mx ex lx) as [mrs' e'].
  destruct (shr_fexp Num.prec Num.emax _ e' loc_Exact) as [mrs'' e''].
  destruct (shr_m mrs''); [exact eq_refl| |exact I].
  destruct (e'' <=? Num.emax - Num.prec); exact eq_refl.
Qed.

Lemma binary_round_sign (m : positive) (e : Z) :
  not_negative (binary_round Num.prec Num.emax false m e).
Proof.
  unfold binary_round. destruct (shl_align m e _) as [mz ez].
  apply binary_round_aux_sign.
Qed.

Lemma of_Z_sign (n : Z) : 0 <= n -> not_negative (Num.of_Z n).
Proof.
  intros H. unfold Num.of_Z, binary_normalize. destruct n as [|p|p]; [exact eq_refl| |lia].
  apply binary_round_sign.
Qed.

Lemma mul_sign (x y : number) :
  not_negative x -> not_negative y -> not_negative (Num.mul x y).
Proof.
  destruct x as [sx|sx| |sx mx ex], y as [sy|sy| |sy my ey];
    unfold not_negative at 1 2; try (intros _ _; exact I); try (intros _ []; fail);
    try (intros -> ->; exact eq_refl).
  intros -> ->. apply binary_round_aux_sign.
Qed.

Lemma add_sign (x y : number) :
  not_negative x -> not_negative y -> not_negative (Num.add x y).
Proof.
  destruct x as [sx|sx| |sx mx ex], y as [sy|sy| |sy my ey];
    unfold not_negative at 1 2; try (intros _ _; exact I);
    try (intros -> ->; exact eq_refl); try (intros -> _; exact eq_refl);
    try (intros _ ->; exact eq_refl).
  intros -> ->. unfold Num.add, SFadd. cbn [cond_Zopp Z.add]. apply binary_round_sign.
Qed.

Lemma number_of_sign (cs : list ascii) (acc n : Z) :
  0 <= acc -> Date.number_of cs acc = Some n -> 0 <= n.
Proof.
  revert acc. induction cs as [|c cs IH]; intros acc A.
  - intros [= <-]. exact A.
  - rewrite DateFacts.number_of_cons. destruct (Date.digit c) as [d|] eqn:D; [|discriminate].
    apply DateFacts.digit_range in D. apply IH. lia.
Qed.

Lemma parseInt_sign (digits : list ascii) : not_negative (parseInt digits).
Proof.
  unfold parseInt. destruct digits as [|d ds]; [exact I|].
  destruct (Date.number_of (d :: ds) 0) as [n|] eqn:N; [|exact I].
  apply of_Z_sign. apply (number_of_sign (d :: ds) 0 n); [lia|exact N].
Qed.

(** Whatever it is given, [parseAmountToCents] returns [NaN] or a number
    whose sign is [+]: a text never reads as a negative amount, nor as
    [-0]. *)
Theorem parseAmountToCents_not_negative (inputValue : jsval) :
  not_negative (parseAmountToCents inputValue)
  /\ Num.gtb Num.zero (parseAmountToCents inputValue) = false.
Proof.
  assert (N : not_negative (parseAmountToCents inputValue)).
  { unfold parseAmountToCents. destruct inputValue; try exact I.
    destruct (filter _ _) as [|a l] eqn:E; [exact I|]. rewrite <- E.
    set (kept := filter _ _). clearbody kept. clear.
    destruct (_ =? -1).
    - destruct (filter is_digit kept); [exact I|].
      apply mul_sign; [apply parseInt_sign|now apply of_Z_sign].
    - destruct (filter is_digit (firstn _ kept)); [exact I|].
      match goal with |- not_negative (if Num.isFinite ?c then _ else _) =>
        assert (C : not_negative c); [|destruct (Num.isFinite c); [exact C|exact I]] end.
      apply add_sign; [|apply parseInt_sign].
      apply mul_sign; [apply parseInt_sign|now apply of_Z_sign]. }
  split; [exact N|].
  destruct (parseAmountToCents inputValue) as [s|s| |s m e];
    unfold not_negative in N; subst; reflexivity.
Qed.

(** ** Operations on a sound store *)

Lemma Forall_sort {A : Type} (cmp : A -> A -> Z) (P : A -> Prop) (l : list A) :
  Forall P l -> Forall P (sort cmp l).
Proof.
  rewrite !Forall_forall. intros H x Hx. apply H. now apply (sort_In cmp).
Qed.

Lemma Forall_replace {A : Type} (P : A -> Prop) (p : A -> bool) (f : A -> A) (l : list A) :
  (forall x, P x -> P (f x)) ->
  Forall P l -> Forall P (map (fun x => if negb (p x) then x else f x) l).
Proof.
  intros H F. apply Forall_map. revert F. apply Forall_impl.
  intros x Px. destruct (negb (p x)); [exact Px|now apply H].
Qed.

Lemma stored_positive (t : Transaction) :
  stored_transaction t -> positive_amount (tx_amount_cents t).
Proof. intros (_ & (F & T & _) & G & _). split; [exact F|now rewrite T]. Qed.

Lemma kept_amount (a : number) :
  positive_amount a ->
  is_amount (Num.max Num.zero (Num.trunc a))
  /\ Num.gtb (Num.max Num.zero (Num.trunc a)) Num.zero = true.
Proof.
  intros [F G]. rewrite (NumFacts.gtb_zero_max _ G). split; [|exact G].
  split; [now apply NumFacts.trunc_finite|]. split; [apply NumFacts.trunc_idempotent|].
  now right.
Qed.

Lemma positive_truthy (a : number) : positive_amount a -> Num.or_zero a = a.
Proof.
  intros [F G]. unfold Num.or_zero.
  destruct a as [s|s| |s m e]; try discriminate F; try discriminate G; reflexivity.
Qed.

Lemma buildTransaction_stored (e : Env) (st : State) (d : Draft) :
  positive_amount (d_amount_cents d) -> d_category_id d <> Some "" ->
  stored_transaction (buildTransaction e st d).
Proof.
  intros A C. destruct (kept_amount _ A) as [I G]. unfold buildTransaction.
  split; [apply createId_nonempty|]. split; [exact I|]. split; [exact G|].
  cbn [tx_category_id]. destruct (d_type d); [discriminate|exact C].
Qed.

Lemma mergeTransaction_stored (st : State) (tx : Transaction) (u : Updates) :
  u_id u = None -> u_category_id u <> Some (Some "") ->
  (forall a, u_amount_cents u = Some a -> positive_amount a) ->
  stored_transaction tx -> stored_transaction (mergeTransaction st tx u).
Proof.
  intros I C A S. pose proof (stored_positive tx S) as P. destruct S as (N & _ & _ & R).
  assert (M : positive_amount (override (tx_amount_cents tx) (u_amount_cents u))).
  { destruct (u_amount_cents u) as [a|]; [now apply A|exact P]. }
  unfold mergeTransaction. rewrite I, (positive_truthy _ M).
  destruct (kept_amount _ M) as [Ia G].
  split; [exact N|]. split; [exact Ia|]. split; [exact G|].
  cbn [tx_category_id]. destruct (override (tx_type tx) (u_type u)); [discriminate|].
  destruct (u_category_id u) as [c|]; [|exact R]. cbn [override]. congruence.
Qed.

Lemma mergeRecurring_stored (r : Recurring) (u : RecurringUpdates) :
  ru_id u = None -> ru_category_id u <> Some (Some "") ->
  ru_default_amount_cents u <> Some (S754_infinity false) ->
  stored_recurring r -> stored_recurring (mergeRecurring r u).
Proof.
  intros I C A (N & Am & R). unfold mergeRecurring. rewrite I.
  split; [exact N|]. split.
  - cbn [rec_default_amount_cents]. apply merged_amount.
    destruct (ru_default_amount_cents u) as [a|]; cbn [override];
      [intros E; apply A; now f_equal|].
    destruct Am as (F & _). intros E. rewrite E in F. discriminate F.
  - cbn [rec_category_id]. destruct (ru_category_id u) as [c|]; [|exact R].
    cbn [override]. congruence.
Qed.

(** The operations keep a store sound.  After a call of
    [addTransaction], [updateTransaction], [deleteTransaction],
    [addCategory], [updateCategory], [addRecurring], [updateRecurring] or
    [deleteRecurring] with arguments as the forms send them, the state is
    normal again, the settings still hold JSON values and the storage
    holds what the state holds: the next page load restores the state. *)
Theorem form_call_keeps_sound {collation : Collation} (s s' : Store) :
  form_call s s' -> sound s -> sound s'.
Proof.
  intros C ((Hs & Hc & Ht & Hr) & J & _).
  destruct C as [e d s A Cn|id u s I Cn A|id s|trim e name bucket s|id u s I
                |trim e description amount category_id s A|id u s I Cn A|id s];
    (split; [|split; [exact J|reflexivity]]);
    (split; [exact Hs|]).
  - split; [exact Hc|]. split; [|exact Hr].
    rewrite transactions_add. apply Forall_sort, Forall_app. split; [exact Ht|].
    constructor; [|constructor]. now apply buildTransaction_stored.
  - split; [exact Hc|]. split; [|exact Hr].
    apply Forall_sort. apply (Forall_replace stored_transaction
                                (fun tx => (tx_id tx =? id)%string)); [|exact Ht].
    intros tx. now apply mergeTransaction_stored.
  - split; [exact Hc|]. split; [|exact Hr].
    rewrite transactions_delete. now apply Forall_filter_keep.
  - split; [|split; [exact Ht|exact Hr]].
    apply Forall_app. split; [exact Hc|]. constructor; [|constructor].
    apply createId_nonempty.
  - split; [|split; [exact Ht|exact Hr]].
    apply (Forall_replace stored_category (fun cat => (cat_id cat =? id)%string));
      [|exact Hc].
    intros cat N. unfold stored_category, mergeCategory. cbn [cat_id]. now rewrite I.
  - split; [exact Hc|]. split; [exact Ht|].
    apply Forall_app. split; [exact Hr|]. constructor; [|constructor].
    split; [apply createId_nonempty|]. split; [now apply merged_amount|].
    cbn [rec_category_id]. destruct category_id as [c|]; [|discriminate].
    cbn [truthy_ref]. destruct (c =? "")%string eqn:E; cbn [negb]; [discriminate|].
    apply String.eqb_neq in E. congruence.
  - split; [exact Hc|]. split; [exact Ht|].
    apply (Forall_replace stored_recurring
             (fun template => (rec_id template =? id)%string)); [|exact Hr].
    intros r. now apply mergeRecurring_stored.
  - split; [exact Hc|]. split; [exact Ht|]. now apply Forall_filter_keep.
Qed.

Lemma coffee_positive : positive_amount (d_amount_cents coffee_draft).
Proof. split; reflexivity. Qed.

Lemma form_call_keeps_sound_witness :
  form_call (persist (with_transactions [tx_A; tx_B]))
    (snd (addTransaction sample_env coffee_draft (persist (with_transactions [tx_A; tx_B]))))
  /\ sound (persist (with_transactions [tx_A; tx_B]))
  /\ sound (snd (addTransaction sample_env coffee_draft
                   (persist (with_transactions [tx_A; tx_B])))).
Proof.
  assert (C : form_call (persist (with_transactions [tx_A; tx_B]))
                (snd (addTransaction sample_env coffee_draft
                        (persist (with_transactions [tx_A; tx_B])))))
    by (apply call_addTransaction; [exact coffee_positive|discriminate]).
  split; [exact C|]. split; [exact with_transactions_sound|].
  exact (form_call_keeps_sound _ _ C with_transactions_sound).
Defined.

(** ** Categories *)

Lemma last_replaced_absent {A : Type} (p : A -> bool) (f : A -> A) (l : list A) :
  (forall x, In x l -> p x = false) -> last_replaced p f l = None.
Proof.
  intros H. unfold last_replaced. apply fold_unchanged.
  intros c x Hx. now rewrite (H x Hx).
Qed.

Lemma category_absent (id : string) (l : list Category) :
  ~ In id (map cat_id l) -> forall c, In c l -> (cat_id c =? id)%string = false.
Proof. intros H c Hin. apply String.eqb_neq. intros <-. apply H, in_map, Hin. Qed.

Lemma find_replaced (id : string) (u : CategoryUpdates) (cs : list Category) :
  cu_id u = None -> In id (map cat_id cs) ->
  exists cat,
    In cat cs /\ cat_id cat = id
    /\ find (fun c => (cat_id c =? id)%string)
         (map (fun c => if negb (cat_id c =? id)%string then c else mergeCategory c u) cs)
       = Some (mergeCategory cat u).
Proof.
  intros I. induction cs as [|c cs IH]; intros H; [destruct H|].
  cbn [map find]. destruct (cat_id c =? id)%string eqn:E; cbn [negb].
  - exists c. split; [now left|]. split; [now apply String.eqb_eq|].
    unfold mergeCategory at 1. cbn [cat_id]. rewrite I. cbn [override]. now rewrite E.
  - rewrite E. destruct H as [H|H]; [apply String.eqb_neq in E; contradiction|].
    destruct (IH H) as (cat & Hin & Hid & F). exists cat. split; [now right|]. now split.
Qed.

(** [updateCategory] changes the category and nothing else.  When it
    moves a category to another bucket, the expenses filed under the
    category keep the bucket they were given when they were entered, and
    the totals of every month stay as they were: the amounts already
    spent are not moved to the new bucket. *)
Theorem updateCategory_leaves_expenses (id : string) (u : CategoryUpdates) (s : Store)
    (v : jsval) (b : Bucket) :
  In id (map cat_id (categories (state s))) ->
  cu_id u = None -> cu_bucket u = Some v -> bucket_of v = Some b ->
  let s' := snd (fst (updateCategory id u s)) in
  getCategoryBucket (state s') (Some id) = Some b
  /\ transactions (state s') = transactions (state s)
  /\ (forall pf year monthIndex,
        getMonthlyTotals pf year monthIndex (state s')
        = getMonthlyTotals pf year monthIndex (state s)).
Proof.
  intros H I B V s'. split; [|split; [reflexivity|]].
  - destruct (find_replaced id u _ I H) as (cat & _ & _ & F).
    unfold getCategoryBucket. subst s'. unfold updateCategory, announce.
    cbn [fst snd]. rewrite state_persist. cbn [state set_state set_categories categories].
    rewrite F. unfold mergeCategory. cbn [cat_bucket]. now rewrite B, V.
  - intros pf year monthIndex. reflexivity.
Qed.

Lemma updateCategory_leaves_expenses_witness :
  getCategoryBucket (state (snd (fst (updateCategory "housing" housing_to_savings
                                        store_with_rent)))) (Some "housing")
  = Some Savings
  /\ map tx_bucket
       (transactions (state (snd (fst (updateCategory "housing" housing_to_savings
                                         store_with_rent)))))
     = [Some Necessities].
Proof.
  destruct (updateCategory_leaves_expenses "housing" housing_to_savings store_with_rent
              (JStr "Savings") Savings (or_introl eq_refl) eq_refl eq_refl eq_refl)
    as (G & T & _).
  split; [exact G|]. rewrite T. reflexivity.
Defined.

(** [updateCategory] with an identifier that no category has returns
    [null] and leaves the state as it was; [archiveCategory], which calls
    it, does the same. *)
Theorem updateCategory_unknown_id (id : string) (u : CategoryUpdates) (s : Store) :
  ~ In id (map cat_id (categories (state s))) ->
  fst (fst (updateCategory id u s)) = None
  /\ state (snd (fst (updateCategory id u s))) = state s
  /\ snd (updateCategory id u s) = (state s, D_categories_update None)
  /\ forall archived, fst (fst (archiveCategory id archived s)) = None.
Proof.
  intros N. pose proof (category_absent id _ N) as Hid.
  assert (T : forall u',
             last_replaced (fun cat => (cat_id cat =? id)%string)
               (fun cat => mergeCategory cat u') (categories (state s)) = None)
    by (intros u'; now apply last_replaced_absent).
  assert (M : map (fun cat => if negb (cat_id cat =? id)%string then cat
                              else mergeCategory cat u) (categories (state s))
              = categories (state s)).
  { apply map_unchanged. intros c Hc. now rewrite (Hid c Hc). }
  unfold archiveCategory, updateCategory, announce. cbn [fst snd].
  rewrite state_persist. cbn [state set_state]. rewrite M, T.
  assert (E : set_categories (categories (state s)) (state s) = state s)
    by (destruct (state s); reflexivity).
  rewrite E. repeat split. intros archived. apply T.
Qed.

Lemma updateCategory_unknown_id_witness :
  ~ In "pets" (map cat_id (categories (state store_with_rent)))
  /\ fst (fst (updateCategory "pets" housing_to_savings store_with_rent)) = None
  /\ state (snd (fst (updateCategory "pets" housing_to_savings store_with_rent)))
     = state store_with_rent.
Proof.
  assert (N : ~ In "pets" (map cat_id (categories (state store_with_rent))))
    by (simpl; intuition discriminate).
  split; [exact N|].
  destruct (updateCategory_unknown_id "pets" housing_to_savings store_with_rent N)
    as (R & S & _).
  split; [exact R|exact S].
Defined.

Lemma archive_map (id : string) (archived : bool) (cs : list Category) :
  map (fun cat => if negb (cat_id cat =? id)%string then cat
                  else mergeCategory cat (mkCategoryUpdates None None None (Some archived)))
    cs
  = map (fun cat => if (cat_id cat =? id)%string
                    then mkCategory (cat_id cat) (cat_name cat) (cat_bucket cat) archived
                    else cat) cs.
Proof. apply map_ext. intros cat. now destruct (cat_id cat =? id)%string. Qed.

(** [archiveCategory] sets the flag of the categories that have the
    identifier, and changes nothing else: no category is removed, and the
    identifiers, the names and the buckets are those from before, in the
    same order; setting the flag back restores the categories that were
    not archived. *)
Theorem archiveCategory_sets_the_flag (id : string) (archived : bool) (s : Store) :
  let after := categories (state (snd (fst (archiveCategory id archived s)))) in
  map cat_id after = map cat_id (categories (state s))
  /\ map cat_name after = map cat_name (categories (state s))
  /\ map cat_bucket after = map cat_bucket (categories (state s))
  /\ map cat_archived after
     = map (fun cat => if (cat_id cat =? id)%string then archived else cat_archived cat)
         (categories (state s))
  /\ (Forall (fun cat => cat_id cat = id -> cat_archived cat = negb archived)
         (categories (state s)) ->
      categories
        (state (snd (fst (archiveCategory id (negb archived)
                            (snd (fst (archiveCategory id archived s)))))))
      = categories (state s)).
Proof.
  intros after. subst after. unfold archiveCategory, updateCategory, announce.
  cbn [fst snd]. rewrite !state_persist.
  cbn [state set_state set_categories categories]. rewrite !archive_map.
  rewrite !map_map. repeat split.
  - apply map_ext. intros c. now destruct (cat_id c =? id)%string.
  - apply map_ext. intros c. now destruct (cat_id c =? id)%string.
  - apply map_ext. intros c. now destruct (cat_id c =? id)%string.
  - apply map_ext. intros c. now destruct (cat_id c =? id)%string.
  - intros F. apply map_unchanged. intros c Hc. rewrite Forall_forall in F.
    specialize (F c Hc). destruct (cat_id c =? id)%string eqn:E; cbn [cat_id].
    + rewrite E. apply String.eqb_eq in E. rewrite <- (F E). now destruct c.
    + now rewrite E.
Qed.

(** ** Settings *)

Lemma lookup_set_all (k : string) (props base : obj) :
  NoDup (keys base) ->
  lookup k (set_all props base)
  = match lookup k props with Some v => Some v | None => lookup k base end.
Proof.
  revert base. induction props as [|[k' v'] props IH]; intros base N; [reflexivity|].
  rewrite set_all_cons, (IH _ (obj_set_NoDup k' v' base N)). cbn [lookup].
  destruct (lookup k props) as [w|]; [reflexivity|].
  destruct (k =? k')%string eqn:E.
  - apply String.eqb_eq in E. subst k'. now apply lookup_obj_set_same.
  - apply String.eqb_neq in E. now apply lookup_obj_set_other.
Qed.

Lemma lookup_spread (k : string) (base : obj) (v : jsval) :
  NoDup (keys base) ->
  lookup k (spread base v)
  = match lookup k (own_props v) with Some w => Some w | None => lookup k base end.
Proof. apply lookup_set_all. Qed.

Lemma lookup_absent (k : string) (o : obj) : lookup k o = None -> ~ In k (keys o).
Proof.
  induction o as [|[k' v] o IH]; cbn [lookup keys map]; [tauto|].
  destruct (lookup k o) as [w|]; [discriminate|].
  destruct (k =? k')%string eqn:E; [discriminate|]. apply String.eqb_neq in E.
  intros _ [H|H]; [cbn in H; congruence|]. now apply IH.
Qed.

Lemma normalizeSettings_other_key (k : string) (raw : jsval) :
  ~ In k normalized_keys ->
  lookup k (normalizeSettings raw) = lookup k (spread DEFAULT_SETTINGS raw).
Proof.
  intros H. unfold normalized_keys in H. cbn [In] in H.
  unfold normalizeSettings. cbv zeta.
  rewrite !lookup_obj_set_other by (intros ->; apply H; auto 10). reflexivity.
Qed.

(** [saveSettings] returns settings in the form [normalizeSettings]
    gives them, whatever the updates are: the version is the current one
    even when the updates carry another, the rule has its three
    percentages, the two flags are booleans and the first day of the week
    is [0] or [1].  The state and the storage hold what it returns; and
    updates without property, on a state whose settings are in that form,
    change nothing. *)
Theorem saveSettings_normalizes (updates : jsval) (s : Store) :
  let saved := fst (fst (saveSettings updates s)) in
  let s' := snd (fst (saveSettings updates s)) in
  normal_settings saved
  /\ lookup "schema_version" saved = Some (JNum STORAGE_VERSION)
  /\ settings (state s') = saved
  /\ BW_V1_SETTINGS (localStorage (service s')) = Json (json (JObj saved))
  /\ (normal_settings (settings (state s)) -> own_props updates = [] ->
      state s' = state s).
Proof.
  intros saved s'.
  assert (N : normal_settings saved) by apply normalizeSettings_normal.
  split; [exact N|]. split; [now destruct N|]. split; [reflexivity|].
  split; [reflexivity|].
  intros Hs E. subst s'. unfold saveSettings, announce. cbn [fst snd].
  rewrite state_persist. cbn [state set_state]. unfold spread. rewrite E. cbn [fold_left].
  rewrite (normalizeSettings_fixed _ Hs). now destruct (state s).
Qed.

(** A setting that [normalizeSettings] does not assign itself, such as
    the currency or the locale, has after [saveSettings] the value of the
    updates when they carry the key, and the value it had otherwise: a
    key that the updates do not mention is kept, and a key that the
    program does not know is stored as well. *)
Theorem saveSettings_merges (k : string) (updates : jsval) (s : Store) :
  normal_settings (settings (state s)) ->
  ~ In k normalized_keys ->
  lookup k (fst (fst (saveSettings updates s)))
  = match lookup k (own_props updates) with
    | Some v => Some v
    | None => lookup k (settings (state s))
    end.
Proof.
  intros Hs K. unfold saveSettings, announce. cbn [fst].
  rewrite (normalizeSettings_other_key k _ K).
  rewrite (lookup_spread k DEFAULT_SETTINGS _ DEFAULT_SETTINGS_NoDup). cbn [own_props].
  destruct Hs as [Nd [ex Ks] _ _ _ _ _].
  rewrite (lookup_spread k _ updates Nd).
  destruct (lookup k (own_props updates)) as [v|]; [reflexivity|].
  destruct (lookup k (settings (state s))) as [v|] eqn:L; [reflexivity|].
  apply lookup_notin. intros H. apply (lookup_absent _ _ L). rewrite Ks.
  apply in_or_app. now left.
Qed.

Lemma saveSettings_merges_witness :
  normal_settings (settings (state fresh_store))
  /\ ~ In "currency" normalized_keys
  /\ lookup "currency" (fst (fst (saveSettings euro_update fresh_store)))
     = Some (JStr "EUR")
  /\ lookup "schema_version" (fst (fst (saveSettings euro_update fresh_store)))
     = Some (JNum STORAGE_VERSION).
Proof.
  assert (K : ~ In "currency" normalized_keys) by (simpl; intuition discriminate).
  split; [exact DEFAULT_SETTINGS_normal|]. split; [exact K|].
  split; [|reflexivity].
  exact (saveSettings_merges "currency" euro_update fresh_store DEFAULT_SETTINGS_normal K).
Defined.

Lemma rule_29_normal : normal_settings (settings (state store_29)).
Proof.
  assert (E : settings (state store_29) = normalizeSettings (JObj rule_29))
    by (vm_compute; reflexivity).
  rewrite E. apply normalizeSettings_normal.
Qed.

(** When the updates carry a rule, [saveSettings] builds the new rule
    from the default rule and the rule of the updates, and the rule the
    state had plays no part: a percentage that the updates do not mention
    goes back to its default, not to its previous value. *)
Theorem saveSettings_replaces_the_rule (updates : jsval) (s : Store) (v : jsval) :
  normal_settings (settings (state s)) ->
  lookup "rule" (own_props updates) = Some v -> truthy v = true ->
  lookup "rule" (fst (fst (saveSettings updates s)))
  = Some (JObj (spread DEFAULT_RULE v)).
Proof.
  intros Hs L T. destruct Hs as [Nd _ _ _ _ _ _].
  unfold saveSettings, announce. cbn [fst].
  set (raw := JObj (spread (settings (state s)) updates)).
  assert (R : get "rule" raw = v).
  { unfold raw, get. now rewrite (lookup_spread "rule" _ updates Nd), L. }
  unfold normalizeSettings. cbv zeta.
  rewrite !lookup_obj_set_other by discriminate.
  rewrite lookup_obj_set_same.
  - rewrite R, T. reflexivity.
  - apply obj_set_NoDup. apply (spread_keys DEFAULT_SETTINGS raw DEFAULT_SETTINGS_NoDup).
Qed.

Lemma saveSettings_replaces_the_rule_witness :
  lookup "rule" (settings (state store_29))
  = Some (JObj [ ("necessities", JNum (Num.of_Z 29));
                 ("leisure", JNum (Num.of_Z 51));
                 ("savings", JNum (Num.of_Z 20)) ])
  /\ lookup "rule" (fst (fst (saveSettings necessities_60 store_29)))
     = Some (JObj [ ("necessities", JNum (Num.of_Z 60));
                    ("leisure", JNum (Num.of_Z 30));
                    ("savings", JNum (Num.of_Z 20)) ]).
Proof.
  split; [reflexivity|].
  exact (saveSettings_replaces_the_rule necessities_60 store_29
           (JObj [("necessities", JNum (Num.of_Z 60))]) rule_29_normal eq_refl eq_refl).
Defined.

(** ** Merging one's own export *)

Section MoreDedupe.
Context {A : Type} (id : A -> string).

Lemma dedupe_from_fresh (l l2 : list A) :
  forall seen,
    NoDup (map id l) -> Forall (fun x => id x <> "") l ->
    (forall x, In x l -> ~ In (id x) seen) ->
    dedupe_from id seen (l ++ l2)
    = l ++ dedupe_from id (rev (map id l) ++ seen) l2.
Proof.
  induction l as [|a l IH]; intros seen N F H; [reflexivity|].
  inversion N as [|? ? Na Nl]; subst. inversion F as [|? ? Fa Fl]; subst.
  cbn [app dedupe_from map rev]. apply String.eqb_neq in Fa. rewrite Fa.
  destruct (existsb (String.eqb (id a)) seen) eqn:E.
  - apply existsb_eqb in E. exfalso. apply (H a); [now left|exact E].
  - f_equal. rewrite IH; [now rewrite <- app_assoc|exact Nl|exact Fl|].
    intros x Hx [K|K].
    + apply Na. rewrite K. now apply in_map.
    + apply (H x); [now right|exact K].
Qed.

Lemma dedupe_from_seen (l : list A) (seen : list string) :
  (forall x, In x l -> In (id x) seen) -> dedupe_from id seen l = [].
Proof.
  induction l as [|a l IH]; intros H; [reflexivity|]. cbn [dedupe_from].
  destruct (id a =? "")%string; [apply IH; intros x Hx; apply H; now right|].
  assert (E : existsb (String.eqb (id a)) seen = true)
    by (apply existsb_eqb, H; now left).
  rewrite E. apply IH. intros x Hx. apply H. now right.
Qed.

Lemma dedupeById_twice (l : list A) :
  NoDup (map id l) -> Forall (fun x => id x <> "") l -> dedupeById id (l ++ l) = l.
Proof.
  intros N F. unfold dedupeById. rewrite dedupe_from_fresh; [|exact N|exact F|tauto].
  rewrite dedupe_from_seen; [apply app_nil_r|].
  intros x Hx. rewrite app_nil_r. apply in_rev. rewrite rev_involutive. now apply in_map.
Qed.
End MoreDedupe.

Lemma filter_none {A : Type} (p : A -> bool) (l : list A) :
  (forall x, In x l -> p x = false) -> filter p l = [].
Proof.
  induction l as [|a l IH]; intros H; [reflexivity|]. cbn [filter].
  rewrite (H a) by now left. apply IH. intros x Hx. apply H. now right.
Qed.

(** Merging the export of a store into that store changes nothing, when
    the state is normal, the transactions are in feed order (every
    record in the order of [compareTransactionsDesc] with every record
    after it), and no two transactions and no two templates share an
    identifier: [importData(exportData(), {strategy: "merge"})] returns
    and leaves the state as it was; it writes that state to storage and
    notifies the listeners of the import. *)
Theorem merge_import_of_export {collation : Collation} (e : Env) (s : Store) :
  normal_state (state s) ->
  feed_order (transactions (state s)) ->
  NoDup (map tx_id (transactions (state s))) ->
  NoDup (map rec_id (recurring (state s))) ->
  exists s',
    importData e (exportData s) "merge" s = Return tt s'
    /\ state s' = state s
    /\ service s' = service (persist s)
    /\ notified s' = notified s ++ [(state s, D_data_import "merge")].
Proof.
  intros (Hs & Hc & Ht & Hr) Hsorted Nt Nr.
  destruct (exportData_fields s) as (T & V & P).
  assert (E : imported_state "merge" (normalizeSettings (get "settings" (exportData s)))
                (categories (state s)) (transactions (state s)) (recurring (state s))
                (state s) = state s).
  { unfold imported_state. cbn [String.eqb Ascii.eqb Bool.eqb].
    replace (get "settings" (exportData s)) with (JObj (settings (state s)))
      by reflexivity.
    rewrite (normalizeSettings_fixed _ Hs).
    rewrite filter_none, app_nil_r.
    + rewrite (dedupeById_twice tx_id _ Nt), (dedupeById_twice rec_id _ Nr).
      * rewrite (sort_feed_order_id _ Hsorted). destruct (state s). reflexivity.
      * revert Hr. apply Forall_impl. intros r (N & _). exact N.
      * revert Ht. apply Forall_impl. intros t (N & _). exact N.
    + intros c Hc'. apply negb_false_iff, existsb_eqb. now apply in_map. }
  eexists. split.
  - apply importData_accepts; [exact T| |].
    + rewrite V. apply STORAGE_VERSION_eqb.
    + rewrite P. unfold typed_collections.
      cbn [snap_categories snap_transactions snap_recurring].
      rewrite (normalize_stored_categories e _ Hc).
      rewrite (normalize_stored_transactions e _ Ht).
      rewrite (normalize_stored_recurring e _ Hr). reflexivity.
  - rewrite E. destruct s as [st sv ns b]. repeat split.
Qed.

Lemma merge_import_of_export_witness :
  normal_state (state (with_transactions [tx_A; tx_B]))
  /\ feed_order (transactions (state (with_transactions [tx_A; tx_B])))
  /\ exists s',
       importData sample_env (exportData (with_transactions [tx_A; tx_B])) "merge"
         (with_transactions [tx_A; tx_B]) = Return tt s'
       /\ state s' = state (with_transactions [tx_A; tx_B])
       /\ notified s' = [(state (with_transactions [tx_A; tx_B]), D_data_import "merge")].
Proof.
  split; [exact with_transactions_normal|]. split; [exact with_transactions_sorted|].
  assert (Nt : NoDup (map tx_id (transactions (state (with_transactions [tx_A; tx_B])))))
    by (repeat (constructor; [simpl; intuition discriminate|]); constructor).
  assert (Nr : NoDup (map rec_id (recurring (state (with_transactions [tx_A; tx_B])))))
    by constructor.
  destruct (merge_import_of_export sample_env (with_transactions [tx_A; tx_B])
              with_transactions_normal with_transactions_sorted Nt Nr)
    as (s' & R & E & _ & N).
  exists s'. split; [exact R|]. split; [exact E|exact N].
Defined.
